(** * Referee and time-slot scheduling of the tournament backend

    A shallow embedding of the scheduling core of the backend
    ([bracket/sql/time_slots.py], [bracket/routes/time_slots.py],
    [bracket/sql/referees.py], [bracket/routes/referees.py] and the tables
    declared in the migration [add_referees_and_scheduling.py]), and the
    properties of its conflict checker, slot-grid generator, availability
    resolver and assignment manager.

    Conventions of the embedding.
    - The relational store is explicit state: a record of tables, each a
      list of rows in insertion order, together with the primary-key
      sequence of the table.  A query without ORDER BY is read in table
      order.
    - An [async] function that talks to the database becomes a function
      from the store to the new store and a result; a raised exception is
      the left injection of the result.
    - Instants ([datetime_utc]) are integers, microseconds since the epoch
      in UTC (the resolution of Python's [datetime]); identifiers are
      Python [int]s, that is [Z].
    - The unique constraints of the migration are checked on every write,
      since the claims about duplicates rest on them, and the primary key
      of [time_slots] on the one write that can name it, the update.  An
      insert takes its identifier from the sequence and is not checked
      against the primary key: it is the insert of the database as long as
      the sequence is ahead of the stored identifiers.  Foreign keys are
      not checked: the tables they point into (tournaments, courts,
      matches) are maintained outside these files, and the one into
      [referees] is checked by the route itself before it inserts.
    - [database.execute] gives [None] for a DELETE, so the three delete
      functions end in the [TypeError] of [result > 0]; the rows are gone
      by then, each statement being committed on its own.
    - [strptime] has already turned the daily opening hours of a bulk
      request into [datetime.time] values; range errors of [datetime]
      (years beyond 9999) are not modelled. *)

From Stdlib Require Import ZArith List Bool Lia String.
From Stdlib Require Import Sorting.Permutation Sorting.Sorted.
Import ListNotations.
Open Scope Z_scope.

(** ** Python and datetime primitives *)

Module Clock.

Definition datetime_utc := Z.
Definition date := Z.

Definition MICROSECONDS_PER_MINUTE : Z := 60000000.
Definition MICROSECONDS_PER_DAY : Z := 86400000000.

(** [timedelta(minutes=n)] and [timedelta(days=n)]. *)
Definition timedelta_minutes (n : Z) : Z := n * MICROSECONDS_PER_MINUTE.
Definition timedelta_days (n : Z) : Z := n * MICROSECONDS_PER_DAY.

(** [datetime.time] as produced by [strptime(_, "%H:%M").time()]. *)
Record time := mk_time { hour : Z; minute : Z }.

Definition time_offset (t : time) : Z :=
  timedelta_minutes (hour t * 60 + minute t).

(** The range of the fields of a [datetime.time]. *)
Definition valid_time (t : time) : Prop :=
  0 <= hour t < 24 /\ 0 <= minute t < 60.

(** [dt.date()] of a UTC instant: days since 1970-01-01. *)
Definition date_of (dt : datetime_utc) : date := dt / MICROSECONDS_PER_DAY.

(** [datetime.combine(d, t, tzinfo=UTC)]. *)
Definition combine (d : date) (t : time) : datetime_utc :=
  timedelta_days d + time_offset t.

(** [d.weekday()]: Monday is 0; 1970-01-01 was a Thursday. *)
Definition weekday (d : date) : Z := (d + 3) mod 7.

(** Wall-clock helper used in examples: [at_ d h m] is day [d], [h:m]. *)
Definition at_ (d h m : Z) : datetime_utc := combine d (mk_time h m).

End Clock.

(** Truth value of an optional identifier in a Python condition
    ([if exclude_slot_id:], [if slot.match_id:]): [None] and [0] are
    false. *)
Definition truthy (x : option Z) : bool :=
  match x with
  | Some n => negb (n =? 0)
  | None => false
  end.

(** ** Interval predicates of the specification (section 4.1) *)

Definition overlaps (aStart aEnd bStart bEnd : Z) : Prop :=
  aStart < bEnd /\ bStart < aEnd.

Definition contains (outerStart outerEnd innerStart innerEnd : Z) : Prop :=
  outerStart <= innerStart /\ innerEnd <= outerEnd.

(** ** Failures *)

(** The [detail] of the HTTP errors the routes raise. *)
Inductive detail :=
| slot_conflicts (count : nat)
| new_time_conflicts (count : nat)
| slot_not_found (slot_id : Z)
| slot_not_available
| slot_has_match
| slot_has_no_match
| slot_delete_with_match
| slot_delete_failed
| referee_not_found (referee_id : Z)
| invalid_role
| assignment_not_found (referee_id match_id : Z).

(** What a call can raise: the HTTP errors of the routes, the driver's
    unique violation, the Python [TypeError] of comparing [None] with a
    number, and the error of the database layer for a statement it cannot
    run. *)
Inductive exception :=
| HTTPException (status_code : Z) (d : detail)
| UniqueViolationError (constraint : string)
| TypeError
| DatabaseError.

Definition HTTP_400_BAD_REQUEST : Z := 400.
Definition HTTP_404_NOT_FOUND : Z := 404.
Definition HTTP_409_CONFLICT : Z := 409.
Definition HTTP_500_INTERNAL_SERVER_ERROR : Z := 500.

(** The error taxonomy of the specification (sections 6 and 7): 404 is
    NotFound, 409 and a duplicate key are Conflict, 400 is InvalidArgument
    for a bad role and InvalidState for a slot in the wrong state. *)
Inductive failure := NotFound | Conflict | InvalidArgument | InvalidState | Internal.

Definition classify (e : exception) : failure :=
  match e with
  | UniqueViolationError _ => Conflict
  | HTTPException 404 _ => NotFound
  | HTTPException 409 _ => Conflict
  | HTTPException 400 invalid_role => InvalidArgument
  | HTTPException 400 _ => InvalidState
  | HTTPException _ _ => Internal
  | TypeError => Internal
  | DatabaseError => Internal
  end.

Definition result (A : Type) : Type := (exception + A)%type.

(** ** Time slots *)

Module TimeSlots.
Import Clock.

(** [TimeSlotInsertable], [TimeSlot] and [TimeSlotBody] of
    [models/db/time_slot.py]. *)
Record TimeSlotInsertable := mk_insertable {
  ins_tournament_id : Z;
  ins_court_id : Z;
  ins_start_time : datetime_utc;
  ins_end_time : datetime_utc;
  ins_is_available : bool;
  ins_match_id : option Z
}.

Record TimeSlot := mk_slot {
  id : Z;
  tournament_id : Z;
  court_id : Z;
  start_time : datetime_utc;
  end_time : datetime_utc;
  is_available : bool;
  match_id : option Z
}.

Record TimeSlotBody := mk_body {
  body_court_id : Z;
  body_start_time : datetime_utc;
  body_end_time : datetime_utc;
  body_is_available : bool
}.

Record TimeSlotBulkCreate := mk_bulk {
  bulk_tournament_id : Z;
  court_ids : list Z;
  start_date : datetime_utc;
  end_date : datetime_utc;
  slot_duration_minutes : Z;
  break_duration_minutes : Z;
  daily_start_time : time;   (* after strptime "%H:%M" *)
  daily_end_time : time;
  exclude_days : list Z
}.

(** The [updates: dict] of [update_time_slot], which the route hands over
    as the client sent it: one optional entry per column of the table,
    the primary key [id] included.  [match_id] may be set to NULL.  The
    values are typed: a dict with a key that is no column, or with a value
    the column cannot hold, is not modelled. *)
Record TimeSlotUpdates := mk_updates {
  upd_id : option Z;
  upd_tournament_id : option Z;
  upd_court_id : option Z;
  upd_start_time : option datetime_utc;
  upd_end_time : option datetime_utc;
  upd_is_available : option bool;
  upd_match_id : option (option Z)
}.

(** The [time_slots] table and its primary-key sequence. *)
Record Store := mk_store {
  time_slots : list TimeSlot;
  time_slots_id_seq : Z
}.

Definition empty_store : Store := mk_store [] 1.

Definition row_of (i : Z) (v : TimeSlotInsertable) : TimeSlot :=
  mk_slot i (ins_tournament_id v) (ins_court_id v) (ins_start_time v)
          (ins_end_time v) (ins_is_available v) (ins_match_id v).

(** UniqueConstraint('court_id', 'start_time', 'end_time',
    name='unique_court_time_slot'). *)
Definition same_key (c s e : Z) (r : TimeSlot) : bool :=
  (court_id r =? c) && (start_time r =? s) && (end_time r =? e).

(** [time_slots.insert().values(...).returning(time_slots)].  The
    sequence value is consumed whether or not the row is accepted.  The
    new identifier is the sequence value and is not compared with the
    stored ones. *)
Definition insert_time_slot (db : Store) (v : TimeSlotInsertable)
  : Store * result TimeSlot :=
  let i := time_slots_id_seq db in
  if existsb (same_key (ins_court_id v) (ins_start_time v) (ins_end_time v))
             (time_slots db)
  then (mk_store (time_slots db) (i + 1),
        inl (UniqueViolationError "unique_court_time_slot"))
  else (mk_store (time_slots db ++ [row_of i v]) (i + 1),
        inr (row_of i v)).

(** *** bracket/sql/time_slots.py *)

Definition create_time_slot (db : Store) (tournament : Z) (slot : TimeSlotBody)
  : Store * result TimeSlot :=
  insert_time_slot db
    (mk_insertable tournament (body_court_id slot) (body_start_time slot)
                   (body_end_time slot) (body_is_available slot) None).

Definition get_time_slot_by_id (db : Store) (slot_id : Z) : option TimeSlot :=
  find (fun r => id r =? slot_id) (time_slots db).

Definition set_field {A : Type} (new : option A) (old : A) : A :=
  match new with
  | Some v => v
  | None => old
  end.

Definition apply_updates (u : TimeSlotUpdates) (r : TimeSlot) : TimeSlot :=
  mk_slot (set_field (upd_id u) (id r))
          (set_field (upd_tournament_id u) (tournament_id r))
          (set_field (upd_court_id u) (court_id r))
          (set_field (upd_start_time u) (start_time r))
          (set_field (upd_end_time u) (end_time r))
          (set_field (upd_is_available u) (is_available r))
          (set_field (upd_match_id u) (match_id r)).

(** [updates] is the empty dict. *)
Definition no_values (u : TimeSlotUpdates) : bool :=
  match upd_id u, upd_tournament_id u, upd_court_id u, upd_start_time u,
        upd_end_time u, upd_is_available u, upd_match_id u with
  | None, None, None, None, None, None, None => true
  | _, _, _, _, _, _, _ => false
  end.

(** [time_slots.update().where(id == slot_id).values(...)
    .returning(time_slots)], the values being the entries of [updates].
    An UPDATE without values is not a statement the database layer runs,
    whether or not the row exists.  A new [id] must not be the primary key
    of another row ([time_slots_pkey]); new bounds or a new court must not
    repeat the unique key of another row. *)
Definition update_time_slot (db : Store) (slot_id : Z) (updates : TimeSlotUpdates)
  : Store * result (option TimeSlot) :=
  if no_values updates then (db, inl DatabaseError)
  else
    match find (fun r => id r =? slot_id) (time_slots db) with
    | None => (db, inr None)
    | Some r =>
        let r' := apply_updates updates r in
        if existsb (fun o => negb (id o =? slot_id) && (id o =? id r'))
                   (time_slots db)
        then (db, inl (UniqueViolationError "time_slots_pkey"))
        else if existsb (fun o => negb (id o =? slot_id)
                                  && same_key (court_id r') (start_time r')
                                              (end_time r') o)
                        (time_slots db)
        then (db, inl (UniqueViolationError "unique_court_time_slot"))
        else (mk_store
                (map (fun o => if id o =? slot_id then apply_updates updates o else o)
                     (time_slots db))
                (time_slots_id_seq db),
              inr (Some r'))
    end.

Definition assign_match_to_slot (db : Store) (slot_id match_id' : Z)
  : Store * result (option TimeSlot) :=
  update_time_slot db slot_id
    (mk_updates None None None None None (Some false) (Some (Some match_id'))).

Definition release_slot (db : Store) (slot_id : Z)
  : Store * result (option TimeSlot) :=
  update_time_slot db slot_id
    (mk_updates None None None None None (Some true) (Some None)).

(** [database.execute] gives [None] for a DELETE, so [result > 0] raises
    [TypeError] once the rows are gone: the function never returns its
    [bool]. *)
Definition delete_time_slot (db : Store) (slot_id : Z) : Store * result bool :=
  (mk_store (filter (fun r => negb (id r =? slot_id)) (time_slots db))
            (time_slots_id_seq db),
   inl TypeError).

Definition check_slot_conflicts (db : Store) (tournament court : Z)
    (start_time' end_time' : datetime_utc) (exclude_slot_id : option Z)
  : list TimeSlot :=
  let query :=
    filter (fun r => (tournament_id r =? tournament)
                     && (court_id r =? court)
                     && ((start_time r <? end_time') && (end_time r >? start_time')))
           (time_slots db) in
  match exclude_slot_id with
  | Some x => if truthy (Some x)
              then filter (fun r => negb (id r =? x)) query
              else query
  | None => query
  end.

(** Outcome of a function with a loop that may not terminate: [None] when
    the fuel runs out, otherwise the store reached and the value returned
    or the exception raised. *)
Definition run (A : Type) : Type := option (Store * result A).

(** [while current_time < end_time_for_day: ...], one step per unit of
    [fuel]; [None] when the fuel is spent before the loop ends. *)
Fixpoint slots_loop (fuel : nat) (bulk_request : TimeSlotBulkCreate)
    (court : Z) (current_time end_time_for_day : datetime_utc)
    (db : Store) (created_slots : list TimeSlot) : run (list TimeSlot) :=
  match fuel with
  | O => None
  | S fuel' =>
      if current_time <? end_time_for_day then
        let slot_end :=
          current_time + timedelta_minutes (slot_duration_minutes bulk_request) in
        if slot_end >? end_time_for_day then Some (db, inr created_slots)
        else
          let slot_data :=
            mk_insertable (bulk_tournament_id bulk_request) court
                          current_time slot_end true None in
          match insert_time_slot db slot_data with
          | (db', inl e) => Some (db', inl e)
          | (db', inr row) =>
              slots_loop fuel' bulk_request court
                (slot_end + timedelta_minutes (break_duration_minutes bulk_request))
                end_time_for_day db' (created_slots ++ [row])
          end
      else Some (db, inr created_slots)
  end.

(** [for court_id in bulk_request.court_ids: ...] on one date. *)
Fixpoint courts_loop (fuel : nat) (bulk_request : TimeSlotBulkCreate)
    (current_date : date) (courts : list Z)
    (db : Store) (created_slots : list TimeSlot) : run (list TimeSlot) :=
  match courts with
  | [] => Some (db, inr created_slots)
  | court :: courts' =>
      let current_time := combine current_date (daily_start_time bulk_request) in
      let end_time_for_day := combine current_date (daily_end_time bulk_request) in
      match slots_loop fuel bulk_request court current_time end_time_for_day
                       db created_slots with
      | None => None
      | Some (db', inl e) => Some (db', inl e)
      | Some (db', inr created_slots') =>
          courts_loop fuel bulk_request current_date courts' db' created_slots'
      end
  end.

(** [while current_date <= end_date: ...; current_date += 1 day], by
    recursion on the number of dates left up to [end_date]. *)
Fixpoint days_loop (days_left : nat) (fuel : nat) (bulk_request : TimeSlotBulkCreate)
    (current_date : date) (db : Store) (created_slots : list TimeSlot)
  : run (list TimeSlot) :=
  match days_left with
  | O => Some (db, inr created_slots)
  | S days_left' =>
      if existsb (Z.eqb (weekday current_date)) (exclude_days bulk_request)
      then days_loop days_left' fuel bulk_request (current_date + 1) db created_slots
      else
        match courts_loop fuel bulk_request current_date (court_ids bulk_request)
                          db created_slots with
        | None => None
        | Some (db', inl e) => Some (db', inl e)
        | Some (db', inr created_slots') =>
            days_loop days_left' fuel bulk_request (current_date + 1) db' created_slots'
        end
  end.

Definition bulk_create_time_slots (fuel : nat) (db : Store)
    (bulk_request : TimeSlotBulkCreate) : run (list TimeSlot) :=
  let current_date := date_of (start_date bulk_request) in
  let end_date' := date_of (end_date bulk_request) in
  days_loop (Z.to_nat (end_date' - current_date + 1)) fuel bulk_request
            current_date db [].

(** *** bracket/routes/time_slots.py *)

Definition create_new_time_slot (db : Store) (tournament : Z) (slot : TimeSlotBody)
  : Store * result TimeSlot :=
  let conflicts :=
    check_slot_conflicts db tournament (body_court_id slot)
                         (body_start_time slot) (body_end_time slot) None in
  match conflicts with
  | _ :: _ =>
      (db, inl (HTTPException HTTP_409_CONFLICT (slot_conflicts (List.length conflicts))))
  | [] => create_time_slot db tournament slot
  end.

Definition with_tournament (tournament : Z) (r : TimeSlotBulkCreate)
  : TimeSlotBulkCreate :=
  mk_bulk tournament (court_ids r) (start_date r) (end_date r)
          (slot_duration_minutes r) (break_duration_minutes r)
          (daily_start_time r) (daily_end_time r) (exclude_days r).

(** Returns [created_count] and the sample of the first ten slots. *)
Definition create_time_slots_bulk (fuel : nat) (db : Store) (tournament : Z)
    (bulk_request : TimeSlotBulkCreate) : run (nat * list TimeSlot) :=
  match bulk_create_time_slots fuel db (with_tournament tournament bulk_request) with
  | None => None
  | Some (db', inl e) => Some (db', inl e)
  | Some (db', inr created_slots) =>
      Some (db', inr (List.length created_slots, firstn 10 created_slots))
  end.

Definition is_some {A : Type} (x : option A) : bool :=
  match x with
  | Some _ => true
  | None => false
  end.

Definition update_time_slot_info (db : Store) (slot_id : Z) (updates : TimeSlotUpdates)
  : Store * result (option TimeSlot) :=
  match get_time_slot_by_id db slot_id with
  | None => (db, inl (HTTPException HTTP_404_NOT_FOUND (slot_not_found slot_id)))
  | Some existing_slot =>
      let conflicts :=
        if is_some (upd_start_time updates) || is_some (upd_end_time updates)
        then check_slot_conflicts db
               (tournament_id existing_slot) (court_id existing_slot)
               (set_field (upd_start_time updates) (start_time existing_slot))
               (set_field (upd_end_time updates) (end_time existing_slot))
               (Some slot_id)
        else [] in
      match conflicts with
      | _ :: _ =>
          (db, inl (HTTPException HTTP_409_CONFLICT
                                  (new_time_conflicts (List.length conflicts))))
      | [] => update_time_slot db slot_id updates
      end
  end.

Definition delete_time_slot_by_id (db : Store) (slot_id : Z) : Store * result unit :=
  match get_time_slot_by_id db slot_id with
  | None => (db, inl (HTTPException HTTP_404_NOT_FOUND (slot_not_found slot_id)))
  | Some slot =>
      if truthy (match_id slot)
      then (db, inl (HTTPException HTTP_400_BAD_REQUEST slot_delete_with_match))
      else
        match delete_time_slot db slot_id with
        | (db', inl e) => (db', inl e)
        | (db', inr deleted) =>
            if deleted then (db', inr tt)
            else (db', inl (HTTPException HTTP_500_INTERNAL_SERVER_ERROR
                                          slot_delete_failed))
        end
  end.

Definition assign_match_to_time_slot (db : Store) (slot_id match_id' : Z)
  : Store * result (option TimeSlot) :=
  match get_time_slot_by_id db slot_id with
  | None => (db, inl (HTTPException HTTP_404_NOT_FOUND (slot_not_found slot_id)))
  | Some slot =>
      if negb (is_available slot)
      then (db, inl (HTTPException HTTP_400_BAD_REQUEST slot_not_available))
      else if truthy (match_id slot)
      then (db, inl (HTTPException HTTP_400_BAD_REQUEST slot_has_match))
      else assign_match_to_slot db slot_id match_id'
  end.

Definition release_time_slot (db : Store) (slot_id : Z)
  : Store * result (option TimeSlot) :=
  match get_time_slot_by_id db slot_id with
  | None => (db, inl (HTTPException HTTP_404_NOT_FOUND (slot_not_found slot_id)))
  | Some slot =>
      if negb (truthy (match_id slot))
      then (db, inl (HTTPException HTTP_400_BAD_REQUEST slot_has_no_match))
      else release_slot db slot_id
  end.

(** *** Listing queries of bracket/sql/time_slots.py *)

(** ORDER BY: a stable insertion sort under the comparison [leb] (rows
    that compare equal keep their table order; SQL leaves their order
    open). *)
Fixpoint insert_by {A : Type} (leb : A -> A -> bool) (x : A) (l : list A) : list A :=
  match l with
  | [] => [x]
  | y :: l' => if leb x y then x :: l else y :: insert_by leb x l'
  end.

Definition order_by {A : Type} (leb : A -> A -> bool) (l : list A) : list A :=
  fold_right (insert_by leb) [] l.

(** [order_by(start_time, court_id)] and [order_by(start_time)]. *)
Definition by_start_then_court (a b : TimeSlot) : bool :=
  (start_time a <? start_time b)
  || ((start_time a =? start_time b) && (court_id a <=? court_id b)).

Definition by_start (a b : TimeSlot) : bool := start_time a <=? start_time b.

(** [datetime.combine(date.date(), time.min)] and
    [datetime.combine(date.date(), time.max)]: 00:00:00 and
    23:59:59.999999 of the day of [date]. *)
Definition start_of_day (date' : datetime_utc) : datetime_utc :=
  timedelta_days (date_of date').

Definition end_of_day (date' : datetime_utc) : datetime_utc :=
  timedelta_days (date_of date') + (MICROSECONDS_PER_DAY - 1).

Definition get_time_slots_for_tournament (db : Store) (tournament : Z)
    (court : option Z) (date' : option datetime_utc) (only_available : bool)
  : list TimeSlot :=
  let query := filter (fun r => tournament_id r =? tournament) (time_slots db) in
  let query :=
    match court with
    | Some c => if truthy (Some c)
                then filter (fun r => court_id r =? c) query
                else query
    | None => query
    end in
  let query :=
    match date' with
    | Some d => filter (fun r => (start_time r >=? start_of_day d)
                                 && (start_time r <=? end_of_day d)) query
    | None => query
    end in
  let query :=
    if only_available
    then filter (fun r => Bool.eqb (is_available r) true) query
    else query in
  order_by by_start_then_court query.

(** [.order_by(start_time).limit(1)] with [fetch_one]. *)
Definition get_next_available_slot (db : Store) (tournament : Z)
    (court : option Z) (after_time : option datetime_utc) : option TimeSlot :=
  let query :=
    filter (fun r => (tournament_id r =? tournament)
                     && Bool.eqb (is_available r) true) (time_slots db) in
  let query :=
    match court with
    | Some c => if truthy (Some c)
                then filter (fun r => court_id r =? c) query
                else query
    | None => query
    end in
  let query :=
    match after_time with
    | Some t => filter (fun r => start_time r >? t) query
    | None => query
    end in
  hd_error (order_by by_start query).

(** *** Read routes of bracket/routes/time_slots.py *)

Definition get_time_slot (db : Store) (slot_id : Z) : result TimeSlot :=
  match get_time_slot_by_id db slot_id with
  | None => inl (HTTPException HTTP_404_NOT_FOUND (slot_not_found slot_id))
  | Some slot => inr slot
  end.

(** The value of [slots_by_court[court_id]]. *)
Record CourtSlots := mk_court_slots {
  available : list TimeSlot;
  occupied : list TimeSlot
}.

(** A Python [dict] keyed by court, in insertion order. *)
Definition court_dict := list (Z * CourtSlots).

Fixpoint dict_get (k : Z) (d : court_dict) : option CourtSlots :=
  match d with
  | [] => None
  | (k', v) :: d' => if k' =? k then Some v else dict_get k d'
  end.

Fixpoint dict_set (k : Z) (v : CourtSlots) (d : court_dict) : court_dict :=
  match d with
  | [] => [(k, v)]
  | (k', v') :: d' => if k' =? k then (k, v) :: d' else (k', v') :: dict_set k v d'
  end.

(** One iteration of [for slot in all_slots]. *)
Definition group_slot (slots_by_court : court_dict) (slot : TimeSlot) : court_dict :=
  let slots_by_court :=
    match dict_get (court_id slot) slots_by_court with
    | None => dict_set (court_id slot) (mk_court_slots [] []) slots_by_court
    | Some _ => slots_by_court
    end in
  match dict_get (court_id slot) slots_by_court with
  | Some entry =>
      dict_set (court_id slot)
        (if is_available slot
         then mk_court_slots (available entry ++ [slot]) (occupied entry)
         else mk_court_slots (available entry) (occupied entry ++ [slot]))
        slots_by_court
  | None => slots_by_court
  end.

(** The answer of [get_schedule_availability], without its
    [availability_percentage], which is a float. *)
Record ScheduleAvailability := mk_schedule {
  sa_tournament_id : Z;
  sa_date : datetime_utc;
  total_slots : nat;
  available_count : nat;
  occupied_count : nat;
  slots_by_court : court_dict
}.

Definition get_schedule_availability (db : Store) (tournament : Z)
    (date' : datetime_utc) : ScheduleAvailability :=
  let all_slots := get_time_slots_for_tournament db tournament None (Some date') false in
  let available_slots := filter (fun s => is_available s) all_slots in
  let occupied_slots := filter (fun s => negb (is_available s)) all_slots in
  mk_schedule tournament date' (List.length all_slots)
              (List.length available_slots) (List.length occupied_slots)
              (fold_left group_slot all_slots []).

End TimeSlots.

(** ** The slot grid of the specification (section 4.2)

    The grid written after the specification's words, to be compared with
    the loops of [bulk_create_time_slots]: on every date of the inclusive
    range whose weekday is not excluded, and for every court, the slots
    [[open + k * (duration + break), + duration)] that end by the daily
    close. *)

Module SlotGrid.
Import Clock TimeSlots.

Section Request.
Variable req : TimeSlotBulkCreate.

Definition duration : Z := timedelta_minutes (slot_duration_minutes req).

Definition stride : Z :=
  timedelta_minutes (slot_duration_minutes req)
  + timedelta_minutes (break_duration_minutes req).

Definition daily_window : Z :=
  time_offset (daily_end_time req) - time_offset (daily_start_time req).

(** S: the number of slots that fit between daily open and close. *)
Definition slots_per_day : Z :=
  if duration <=? daily_window
  then (daily_window - duration) / stride + 1
  else 0.

Definition first_date : date := date_of (start_date req).
Definition last_date : date := date_of (end_date req).

Definition dates : list date :=
  map (fun k => first_date + Z.of_nat k)
      (seq 0 (Z.to_nat (last_date - first_date + 1))).

Definition excluded (d : date) : bool :=
  existsb (Z.eqb (weekday d)) (exclude_days req).

(** The D dates that are not excluded. *)
Definition open_dates : list date := filter (fun d => negb (excluded d)) dates.

(** The draft that starts at [cursor]: never shorter than the slot
    duration, available, without a match. *)
Definition slot_at (court : Z) (cursor : datetime_utc) : TimeSlotInsertable :=
  mk_insertable (bulk_tournament_id req) court cursor (cursor + duration) true None.

(** [n] slots from [cursor] on, each one stride after the other. *)
Definition walk (court : Z) (cursor : datetime_utc) (n : nat)
  : list TimeSlotInsertable :=
  map (fun k => slot_at court (cursor + Z.of_nat k * stride)) (seq 0 n).

Definition day_slots (d : date) (court : Z) : list TimeSlotInsertable :=
  walk court (combine d (daily_start_time req)) (Z.to_nat slots_per_day).

(** The slots that still fit when the cursor stands at [cursor]. *)
Definition fitting (cursor close : datetime_utc) : Z :=
  if cursor + duration <=? close
  then (close - cursor - duration) / stride + 1
  else 0.

Definition slot_grid : list TimeSlotInsertable :=
  flat_map (fun d => flat_map (day_slots d) (court_ids req)) open_dates.

(** Iterations the inner loop can need on one date. *)
Definition enough_fuel : nat := Z.to_nat slots_per_day + 1.
End Request.

(** Persisting a list of drafts one by one, stopping at the first
    rejected insert. *)
Fixpoint insert_all (db : Store) (drafts : list TimeSlotInsertable)
    (created : list TimeSlot) : Store * result (list TimeSlot) :=
  match drafts with
  | [] => (db, inr created)
  | v :: drafts' =>
      match insert_time_slot db v with
      | (db', inl e) => (db', inl e)
      | (db', inr row) => insert_all db' drafts' (created ++ [row])
      end
  end.

Definition slot_key (r : TimeSlot) : Z * Z * Z :=
  (court_id r, start_time r, end_time r).

Definition draft_key (v : TimeSlotInsertable) : Z * Z * Z :=
  (ins_court_id v, ins_start_time v, ins_end_time v).

Definition draft_of (r : TimeSlot) : TimeSlotInsertable :=
  mk_insertable (tournament_id r) (court_id r) (start_time r) (end_time r)
                (is_available r) (match_id r).

(** No draft repeats the (court, start, end) key of a stored slot or of
    another draft: every insert passes [unique_court_time_slot]. *)
Definition keys_free (db : Store) (drafts : list TimeSlotInsertable) : Prop :=
  NoDup (map slot_key (time_slots db) ++ map draft_key drafts).

End SlotGrid.

(** ** Store invariants for time slots *)

Module SlotInvariants.
Import Clock TimeSlots.

(** Identifiers are the values handed out by the table's sequence,
    which starts at 1. *)
Definition ids_from_sequence (db : Store) : Prop :=
  1 <= time_slots_id_seq db
  /\ Forall (fun r => 1 <= id r < time_slots_id_seq db) (time_slots db)
  /\ NoDup (map id (time_slots db)).

(** The table satisfies its primary key. *)
Definition primary_key (db : Store) : Prop :=
  NoDup (map id (time_slots db)).

(** The table satisfies its constraint [unique_court_time_slot]. *)
Definition keys_unique (db : Store) : Prop :=
  NoDup (map SlotGrid.slot_key (time_slots db)).

(** Primary key from the sequence, and the unique key of the table. *)
Definition constraints_hold (db : Store) : Prop :=
  ids_from_sequence db /\ keys_unique db.

(** A stored match reference is the identifier of a match, never 0: the
    foreign key of [match_id] points into [matches], whose identifiers come
    from a sequence as well. *)
Definition match_refs_positive (db : Store) : Prop :=
  Forall (fun r => forall m, match_id r = Some m -> 0 < m) (time_slots db).

(** The per-court invariant of the data model (section 3). *)
Definition no_overlap (db : Store) : Prop :=
  forall a b, In a (time_slots db) -> In b (time_slots db) ->
    id a <> id b -> court_id a = court_id b ->
    ~ overlaps (start_time a) (end_time a) (start_time b) (end_time b).

(** The same invariant among the slots of one tournament, which is the
    scope of [check_slot_conflicts]. *)
Definition no_overlap_in_tournament (db : Store) : Prop :=
  forall a b, In a (time_slots db) -> In b (time_slots db) ->
    id a <> id b -> tournament_id a = tournament_id b -> court_id a = court_id b ->
    ~ overlaps (start_time a) (end_time a) (start_time b) (end_time b).

(** An update that names [id] names a value the sequence has handed
    out. *)
Definition names_issued_id (db : Store) (u : TimeSlotUpdates) : Prop :=
  forall x, upd_id u = Some x -> 1 <= x < time_slots_id_seq db.

(** Updates that leave the slot on its court and in its tournament. *)
Definition keeps_place (u : TimeSlotUpdates) : Prop :=
  upd_tournament_id u = None /\ upd_court_id u = None.

(** The record a successful assignment leaves behind, the one a release
    leaves behind, and the table with that one record rewritten. *)
Definition assigned (slot : TimeSlot) (m : Z) : TimeSlot :=
  mk_slot (id slot) (tournament_id slot) (court_id slot)
          (start_time slot) (end_time slot) false (Some m).

Definition released (slot : TimeSlot) : TimeSlot :=
  mk_slot (id slot) (tournament_id slot) (court_id slot)
          (start_time slot) (end_time slot) true None.

Definition replace_slot (slot_id : Z) (new : TimeSlot -> TimeSlot) (db : Store)
  : Store :=
  mk_store (map (fun o => if id o =? slot_id then new o else o) (time_slots db))
           (time_slots_id_seq db).

(** The stores the routes of [routes/time_slots.py] can reach from the
    empty table; the update is the one that takes the client's dict as it
    is, [id] included. *)
Inductive reachable : Store -> Prop :=
| reach_empty : reachable empty_store
| reach_create : forall db tournament body db' res,
    reachable db ->
    create_new_time_slot db tournament body = (db', res) -> reachable db'
| reach_bulk : forall db fuel tournament req db' res,
    reachable db ->
    create_time_slots_bulk fuel db tournament req = Some (db', res) -> reachable db'
| reach_update : forall db slot_id updates db' res,
    reachable db ->
    update_time_slot_info db slot_id updates = (db', res) -> reachable db'
| reach_delete : forall db slot_id db' res,
    reachable db ->
    delete_time_slot_by_id db slot_id = (db', res) -> reachable db'
| reach_assign : forall db slot_id m db' res,
    reachable db ->
    assign_match_to_time_slot db slot_id m = (db', res) -> reachable db'
| reach_release : forall db slot_id db' res,
    reachable db ->
    release_time_slot db slot_id = (db', res) -> reachable db'.

(** A store with the single slot [10:00, 11:00) of tournament 1 on
    court 7. *)
Definition one_slot_store : Store :=
  mk_store [mk_slot 1 1 7 (at_ 0 10 0) (at_ 0 11 0) true None] 2.

End SlotInvariants.

(** ** Referees *)

Module Referees.
Import Clock.

(** [Referee], [RefereeAvailability] and [RefereeAssignment] of
    [models/db/referee.py]. *)
Record Referee := mk_referee {
  id : Z;
  name : string;
  email : option string;
  phone : option string;
  certification_level : option string;
  created : datetime_utc;
  active : bool;
  notes : option string
}.

Record RefereeAvailability := mk_availability {
  av_referee_id : Z;
  av_tournament_id : Z;
  available_from : datetime_utc;
  available_to : datetime_utc;
  max_matches_per_day : Z;
  preferred_courts : list string;
  av_notes : option string
}.

Record RefereeAssignment := mk_assignment {
  referee_id : Z;
  match_id : Z;
  role : string;
  confirmed : bool;
  assignment_notes : option string
}.

(** Modelled from the spec: the [matches] table is declared outside these
    files; the conflict query reads its columns [id], [start_time],
    [duration_minutes] and [margin_minutes], and section 3 gives a match a
    start instant, a duration and a margin in minutes. *)
Record Match := mk_match {
  m_id : Z;
  m_start_time : datetime_utc;
  duration_minutes : Z;
  margin_minutes : Z
}.

Record Store := mk_store {
  referees : list Referee;
  referees_x_tournaments : list RefereeAvailability;
  referees_x_matches : list RefereeAssignment;
  matches : list Match
}.

(** *** bracket/sql/referees.py *)

Definition get_referee_by_id (db : Store) (referee : Z) : option Referee :=
  find (fun r => id r =? referee) (referees db).

(** The first query of [get_available_referees_for_time_slot]: the join
    of [referees] with [referees_x_tournaments] under its WHERE clause. *)
Definition candidate_referees (db : Store) (tournament : Z)
    (start_time end_time : datetime_utc) : list Referee :=
  flat_map
    (fun r =>
       map (fun _ => r)
           (filter (fun a => (id r =? av_referee_id a)
                             && ((av_tournament_id a =? tournament)
                                 && (available_from a <=? start_time)
                                 && (available_to a >=? end_time)
                                 && Bool.eqb (active r) true))
                   (referees_x_tournaments db)))
    (referees db).

(** The rows counted by [conflict_query] for one referee. *)
Definition conflicting_assignments (db : Store) (referee : Z)
    (start_time end_time : datetime_utc) : list (RefereeAssignment * Match) :=
  flat_map
    (fun rxm =>
       map (fun m => (rxm, m))
           (filter (fun m => (match_id rxm =? m_id m)
                             && ((referee_id rxm =? referee)
                                 && (m_start_time m <? end_time)
                                 && (m_start_time m
                                     + timedelta_minutes 1
                                       * (duration_minutes m + margin_minutes m)
                                     >? start_time)))
                   (matches db)))
    (referees_x_matches db).

Definition conflict_count (db : Store) (referee : Z)
    (start_time end_time : datetime_utc) : Z :=
  Z.of_nat (List.length (conflicting_assignments db referee start_time end_time)).

Definition get_available_referees_for_time_slot (db : Store) (tournament : Z)
    (start_time end_time : datetime_utc) : list Referee :=
  filter (fun referee => conflict_count db (id referee) start_time end_time =? 0)
         (candidate_referees db tournament start_time end_time).

(** UniqueConstraint('referee_id', 'match_id', 'role',
    name='unique_referee_match_role'). *)
Definition same_triple (referee match_id' : Z) (role' : string)
    (a : RefereeAssignment) : bool :=
  (referee_id a =? referee) && (match_id a =? match_id') && String.eqb (role a) role'.

Definition assign_referee_to_match (db : Store) (referee match_id' : Z)
    (role' : string) (confirmed' : bool) (notes' : option string)
  : Store * result RefereeAssignment :=
  if existsb (same_triple referee match_id' role') (referees_x_matches db)
  then (db, inl (UniqueViolationError "unique_referee_match_role"))
  else
    let row := mk_assignment referee match_id' role' confirmed' notes' in
    (mk_store (referees db) (referees_x_tournaments db)
              (referees_x_matches db ++ [row]) (matches db),
     inr row).

Definition same_pair (referee match_id' : Z) (a : RefereeAssignment) : bool :=
  (referee_id a =? referee) && (match_id a =? match_id').

(** The SET clause built from [update_values], on one row: a key absent
    from the dict keeps the stored column. *)
Definition set_values (confirmed' : option bool) (notes' : option string)
    (a : RefereeAssignment) : RefereeAssignment :=
  mk_assignment (referee_id a) (match_id a) (role a)
    (match confirmed' with Some c => c | None => confirmed a end)
    (match notes' with Some n => Some n | None => assignment_notes a end).

Definition update_referee_assignment (db : Store) (referee match_id' : Z)
    (confirmed' : option bool) (notes' : option string)
  : Store * option RefereeAssignment :=
  match confirmed', notes' with
  | None, None => (db, None)
  | _, _ =>
      (mk_store (referees db) (referees_x_tournaments db)
                (map (fun a => if same_pair referee match_id' a
                               then set_values confirmed' notes' a else a)
                     (referees_x_matches db))
                (matches db),
       match filter (same_pair referee match_id') (referees_x_matches db) with
       | [] => None
       | a :: _ => Some (set_values confirmed' notes' a)
       end)
  end.

(** *** bracket/routes/referees.py *)

Definition valid_roles : list string :=
  ["main"; "assistant"; "line_judge"; "video_referee"]%string.

Definition assign_referee (db : Store) (match_id' referee : Z) (role' : string)
    (confirmed' : bool) (notes' : option string)
  : Store * result RefereeAssignment :=
  match get_referee_by_id db referee with
  | None => (db, inl (HTTPException HTTP_404_NOT_FOUND (referee_not_found referee)))
  | Some _ =>
      if negb (existsb (String.eqb role') valid_roles)
      then (db, inl (HTTPException HTTP_400_BAD_REQUEST invalid_role))
      else assign_referee_to_match db referee match_id' role' confirmed' notes'
  end.

Definition update_referee_match_assignment (db : Store) (match_id' referee : Z)
    (confirmed' : option bool) (notes' : option string)
  : Store * result RefereeAssignment :=
  match update_referee_assignment db referee match_id' confirmed' notes' with
  | (db', None) =>
      (db', inl (HTTPException HTTP_404_NOT_FOUND
                               (assignment_not_found referee match_id')))
  | (db', Some updated) => (db', inr updated)
  end.

(** The conflict window of a match (section 3): the margin extends the
    end, the start is the match's own. *)
Definition window_start (m : Match) : datetime_utc := m_start_time m.
Definition window_end (m : Match) : datetime_utc :=
  m_start_time m + timedelta_minutes (duration_minutes m + margin_minutes m).

(** *** The other queries of bracket/sql/referees.py *)

(** UniqueConstraint('referee_id', 'tournament_id',
    name='unique_referee_tournament'). *)
Definition same_referee_tournament (referee tournament : Z)
    (a : RefereeAvailability) : bool :=
  (av_referee_id a =? referee) && (av_tournament_id a =? tournament).

(** The row is built from the two path parameters and the payload of
    [availability]; the identifiers inside [availability] are not read. *)
Definition add_referee_to_tournament (db : Store) (referee tournament : Z)
    (availability : RefereeAvailability) : Store * result RefereeAvailability :=
  if existsb (same_referee_tournament referee tournament) (referees_x_tournaments db)
  then (db, inl (UniqueViolationError "unique_referee_tournament"))
  else
    let row := mk_availability referee tournament
                 (available_from availability) (available_to availability)
                 (max_matches_per_day availability) (preferred_courts availability)
                 (av_notes availability) in
    (mk_store (referees db) (referees_x_tournaments db ++ [row])
              (referees_x_matches db) (matches db),
     inr row).

(** [RefereeWithAssignments]. *)
Record RefereeWithAssignments := mk_with_assignments {
  the_referee : Referee;
  assignments : list RefereeAssignment;
  availability : list RefereeAvailability
}.

Definition get_referees_for_tournament (db : Store) (tournament : Z)
  : list RefereeWithAssignments :=
  let referees_result :=
    flat_map
      (fun r =>
         map (fun _ => r)
             (filter (fun a => (id r =? av_referee_id a)
                               && ((av_tournament_id a =? tournament)
                                   && Bool.eqb (active r) true))
                     (referees_x_tournaments db)))
      (referees db) in
  map (fun referee =>
         mk_with_assignments referee
           (filter (fun a => referee_id a =? id referee) (referees_x_matches db))
           (filter (fun a => (av_referee_id a =? id referee)
                             && (av_tournament_id a =? tournament))
                   (referees_x_tournaments db)))
      referees_result.

(** The join of [referees] with [referees_x_matches] on one match; the
    assignment of each row is rebuilt from the referee's id, the match id
    asked for and the joined columns. *)
Definition get_referees_for_match (db : Store) (match_id' : Z)
  : list (Referee * RefereeAssignment) :=
  flat_map
    (fun r =>
       map (fun a => (r, mk_assignment (id r) match_id' (role a) (confirmed a)
                                       (assignment_notes a)))
           (filter (fun a => (id r =? referee_id a) && (match_id a =? match_id'))
                   (referees_x_matches db)))
    (referees db).

(** As every DELETE here, it ends in the [TypeError] of [result > 0]
    with [result = None], after the rows are gone. *)
Definition remove_referee_from_match (db : Store) (referee match_id' : Z)
  : Store * result bool :=
  (mk_store (referees db) (referees_x_tournaments db)
            (filter (fun a => negb (same_pair referee match_id' a))
                    (referees_x_matches db))
            (matches db),
   inl TypeError).

(** [referees.delete()] with the ON DELETE CASCADE of the two bridge
    tables, which takes the rows of a deleted referee; then the
    [TypeError] of [result > 0]. *)
Definition delete_referee (db : Store) (referee : Z) : Store * result bool :=
  if existsb (fun r => id r =? referee) (referees db)
  then (mk_store (filter (fun r => negb (id r =? referee)) (referees db))
                 (filter (fun a => negb (av_referee_id a =? referee))
                         (referees_x_tournaments db))
                 (filter (fun a => negb (referee_id a =? referee))
                         (referees_x_matches db))
                 (matches db),
        inl TypeError)
  else (db, inl TypeError).

(** *** The other routes of bracket/routes/referees.py *)

Definition get_referee (db : Store) (referee : Z) : result Referee :=
  match get_referee_by_id db referee with
  | None => inl (HTTPException HTTP_404_NOT_FOUND (referee_not_found referee))
  | Some r => inr r
  end.

Definition delete_referee_by_id (db : Store) (referee : Z) : Store * result unit :=
  match delete_referee db referee with
  | (db', inl e) => (db', inl e)
  | (db', inr deleted) =>
      if deleted then (db', inr tt)
      else (db', inl (HTTPException HTTP_404_NOT_FOUND (referee_not_found referee)))
  end.

Definition add_referee_availability (db : Store) (tournament referee : Z)
    (availability' : RefereeAvailability) : Store * result RefereeAvailability :=
  match get_referee_by_id db referee with
  | None => (db, inl (HTTPException HTTP_404_NOT_FOUND (referee_not_found referee)))
  | Some _ => add_referee_to_tournament db referee tournament availability'
  end.

Definition get_available_referees (db : Store) (tournament : Z)
    (start_time end_time : datetime_utc) : list Referee :=
  get_available_referees_for_time_slot db tournament start_time end_time.

Definition get_match_referees (db : Store) (match_id' : Z)
  : list (Referee * RefereeAssignment) :=
  get_referees_for_match db match_id'.

Definition remove_referee_from_match_endpoint (db : Store) (match_id' referee : Z)
  : Store * result unit :=
  match remove_referee_from_match db referee match_id' with
  | (db', inl e) => (db', inl e)
  | (db', inr removed) =>
      if removed then (db', inr tt)
      else (db', inl (HTTPException HTTP_404_NOT_FOUND
                                    (assignment_not_found referee match_id')))
  end.

End Referees.

(** ** The referee registry: [create_referee] and its sequence *)

Module RefereeRegistry.
Import Clock Referees.

(** [RefereeBody]. *)
Record RefereeBody := mk_referee_body {
  body_name : string;
  body_email : option string;
  body_phone : option string;
  body_certification_level : option string;
  body_active : bool;
  body_notes : option string
}.

(** The tables together with the primary-key sequence of [referees]. *)
Record Registry := mk_registry {
  tables : Store;
  referees_id_seq : Z
}.

(** [now] is the value of [datetime_utc.now()] at the call. *)
Definition create_referee (reg : Registry) (now : datetime_utc) (referee : RefereeBody)
  : Registry * Referee :=
  let row := mk_referee (referees_id_seq reg) (body_name referee) (body_email referee)
                        (body_phone referee) (body_certification_level referee)
                        now (body_active referee) (body_notes referee) in
  (mk_registry
     (mk_store (referees (tables reg) ++ [row])
               (referees_x_tournaments (tables reg))
               (referees_x_matches (tables reg))
               (matches (tables reg)))
     (referees_id_seq reg + 1),
   row).

(** Identifiers of [referees] are the values handed out by the sequence. *)
Definition referee_ids_from_sequence (reg : Registry) : Prop :=
  Forall (fun r => id r < referees_id_seq reg) (referees (tables reg)).

End RefereeRegistry.

(** ** Invariants of the referee tables *)

Module RefereeInvariants.
Import Clock Referees.

(** The primary key of [referees]. *)
Definition referee_ids_unique (db : Store) : Prop :=
  NoDup (map id (referees db)).

(** The table satisfies [unique_referee_tournament]. *)
Definition availability_unique (db : Store) : Prop :=
  NoDup (map (fun a => (av_referee_id a, av_tournament_id a))
             (referees_x_tournaments db)).

(** The table satisfies [unique_referee_match_role]. *)
Definition assignments_unique (db : Store) : Prop :=
  NoDup (map (fun a => (referee_id a, match_id a, role a)) (referees_x_matches db)).

End RefereeInvariants.

(** ** Scenarios of section 8 *)

Module Scenarios.
Import Clock Referees.

Definition ana : Referee :=
  mk_referee 1 "Ana" None None (Some "Nacional"%string) 0 true None.

(** Ana is available [09:00, 17:00) in tournament 1 and is the main
    referee of match 10, which starts at 09:00 and lasts 60 minutes with
    a margin of 5: her conflict window ends at 10:05. *)
Definition ana_store : Store :=
  mk_store [ana]
           [mk_availability 1 1 (at_ 0 9 0) (at_ 0 17 0) 5 [] None]
           [mk_assignment 1 10 "main" false None]
           [mk_match 10 (at_ 0 9 0) 60 5].

Definition ben : Referee :=
  mk_referee 2 "Ben" None None (Some "Regional"%string) 0 true None.

(** Ana and Ben are both available [09:00, 17:00) in tournament 1; Ana
    has a second availability row, in tournament 2.  Matches 10 and 11
    are played at 09:00 and at 14:00. *)
Definition two_referees_store (assignments : list RefereeAssignment) : Store :=
  mk_store [ana; ben]
           [mk_availability 1 1 (at_ 0 9 0) (at_ 0 17 0) 5 [] None;
            mk_availability 1 2 (at_ 1 9 0) (at_ 1 17 0) 5 [] None;
            mk_availability 2 1 (at_ 0 9 0) (at_ 0 17 0) 3 [] None]
           assignments
           [mk_match 10 (at_ 0 9 0) 60 5; mk_match 11 (at_ 0 14 0) 60 5].

(** Section 8, property 2: days 0 and 1 (a Thursday and a Friday), courts
    1 and 2, slots of 90 minutes with a break of 15 between 09:00 and
    12:00: one slot per day and court, [09:00, 10:30). *)
Definition two_days_two_courts : TimeSlots.TimeSlotBulkCreate :=
  TimeSlots.mk_bulk 1 [1; 2] (at_ 0 0 0) (at_ 1 23 0) 90 15
                    (mk_time 9 0) (mk_time 12 0) [].

(** Half-hour slots on court 7 between 09:00 and 10:00 of day 0. *)
Definition half_hours_on_court_7 : TimeSlots.TimeSlotBulkCreate :=
  TimeSlots.mk_bulk 1 [7] (at_ 0 0 0) (at_ 0 0 0) 30 0
                    (mk_time 9 0) (mk_time 10 0) [].

End Scenarios.

(** * Properties *)

(** ** Conflict checker *)

Module ConflictChecker.
Import Clock TimeSlots SlotInvariants.

Lemma truthy_true : forall x, truthy x = true <-> exists n, x = Some n /\ n <> 0.
Proof.
  intros [n|]; simpl.
  - rewrite negb_true_iff, Z.eqb_neq. split.
    + intros H; exists n; auto.
    + intros [m [E H]]; inversion E; subst; auto.
  - split; [discriminate | intros [m [E _]]; discriminate].
Qed.

Lemma truthy_false : forall x, truthy x = false <-> x = None \/ x = Some 0.
Proof.
  intros [n|]; simpl.
  - rewrite negb_false_iff, Z.eqb_eq. split.
    + intros ->; auto.
    + intros [E|E]; [discriminate | inversion E; auto].
  - split; auto.
Qed.

(** The WHERE clause of the query, as a proposition. *)
Lemma where_clause_spec : forall r tournament court s e,
    (tournament_id r =? tournament) && (court_id r =? court)
    && ((start_time r <? e) && (end_time r >? s)) = true
    <-> tournament_id r = tournament /\ court_id r = court
        /\ overlaps (start_time r) (end_time r) s e.
Proof.
  intros; unfold overlaps.
  rewrite !andb_true_iff, !Z.eqb_eq, Z.ltb_lt, Z.gtb_ltb, Z.ltb_lt. tauto.
Qed.

Lemma check_slot_conflicts_sublist : forall db tournament court s e exclude r,
    In r (check_slot_conflicts db tournament court s e exclude) ->
    In r (time_slots db).
Proof.
  intros db tournament court s e exclude r; unfold check_slot_conflicts.
  destruct exclude as [x|]; [destruct (truthy (Some x))|];
    rewrite ?filter_In; tauto.
Qed.

(** What [check_slot_conflicts] returns, on every table: the slots of the
    tournament and court that overlap [s, e) under strict comparison, other
    than the excluded one when the identifier supplied is not 0; a slot
    that only touches the proposal is never returned. *)
Lemma check_slot_conflicts_spec :
  forall db tournament court s e (exclude : option Z) r,
    In r (check_slot_conflicts db tournament court s e exclude) <->
    In r (time_slots db)
    /\ tournament_id r = tournament /\ court_id r = court
    /\ (forall x, exclude = Some x -> x <> 0 -> id r <> x)
    /\ start_time r < e /\ end_time r > s.
Proof.
  intros db tournament court s e exclude r; unfold check_slot_conflicts.
  destruct exclude as [x|].
  - destruct (truthy (Some x)) eqn:Ht.
    + apply truthy_true in Ht. destruct Ht as [n [E Hn]]. inversion E; subst n.
      rewrite !filter_In, where_clause_spec, negb_true_iff, Z.eqb_neq.
      unfold overlaps. split.
      * intros [[Hin [Ht' [Hc [H1 H2]]]] Hx]. repeat split; auto; try lia.
        intros y Ey _; inversion Ey; subst y; exact Hx.
      * intros [Hin [Ht' [Hc [Hx [H1 H2]]]]]. repeat split; auto; try lia.
    + apply truthy_false in Ht. destruct Ht as [Ht|Ht]; [discriminate|].
      inversion Ht; subst x.
      rewrite filter_In, where_clause_spec. unfold overlaps. split.
      * intros [Hin [Ht' [Hc [H1 H2]]]]. repeat split; auto; try lia.
        intros y Ey Hy; inversion Ey; congruence.
      * intros [Hin [Ht' [Hc [Hx [H1 H2]]]]]. repeat split; auto; lia.
  - rewrite filter_In, where_clause_spec. unfold overlaps. split.
    + intros [Hin [Ht' [Hc [H1 H2]]]]. repeat split; auto; try lia. discriminate.
    + intros [Hin [Ht' [Hc [Hx [H1 H2]]]]]. repeat split; auto; lia.
Qed.

Lemma check_slot_conflicts_no_touch :
  forall db tournament court s e exclude r,
    end_time r = s \/ start_time r = e ->
    ~ In r (check_slot_conflicts db tournament court s e exclude).
Proof.
  intros db tournament court s e exclude r Htouch Hin.
  apply check_slot_conflicts_spec in Hin. lia.
Qed.

(** Each conflict is returned once when the table holds each row once. *)
Lemma check_slot_conflicts_once : forall db tournament court s e exclude,
    NoDup (time_slots db) ->
    NoDup (check_slot_conflicts db tournament court s e exclude).
Proof.
  intros db tournament court s e exclude Hnd; unfold check_slot_conflicts.
  destruct exclude as [x|]; [destruct (truthy (Some x))|];
    repeat apply NoDup_filter; exact Hnd.
Qed.

(** Section 8, property 4: with [10:00, 11:00) stored on court 7, the
    proposal [10:30, 11:30) meets one conflict and [11:00, 12:00) none. *)

Example conflict_on_overlap :
  List.length (check_slot_conflicts one_slot_store 1 7 (at_ 0 10 30) (at_ 0 11 30) None)
  = 1%nat.
Proof. reflexivity. Qed.

Example no_conflict_on_touch :
  check_slot_conflicts one_slot_store 1 7 (at_ 0 11 0) (at_ 0 12 0) None = [].
Proof. reflexivity. Qed.

(** A supplied identifier other than 0 takes its slot out of the answer. *)
Example excluded_slot_is_not_returned :
  check_slot_conflicts one_slot_store 1 7 (at_ 0 10 30) (at_ 0 11 30) (Some 1) = []
  /\ check_slot_conflicts one_slot_store 1 7 (at_ 0 10 30) (at_ 0 11 30) (Some 2)
     = time_slots one_slot_store.
Proof. split; reflexivity. Qed.

(** C1, at the input where it fails: [if exclude_slot_id:] reads the
    identifier 0 as no identifier.  The slot [10:00, 11:00) created on
    court 7 gets the identifier 0 from the update [{id: 0}], which
    [update_time_slot] hands to the UPDATE as it is; the store is one the
    routes reach.  Checking [10:30, 11:30) on that court with the slot 0
    excluded returns the slot 0 itself, and the route that re-times the slot
    answers 409 on the slot's own bounds.  On every table the answer is
    otherwise as C1 says: the slots of the tournament and court with
    [slot.start < e] and [slot.end > s], other than the excluded one when
    its identifier is not 0, and never a slot that only touches the
    proposal. *)
Theorem excluded_slot_zero_is_returned :
  let slot := mk_slot 1 1 7 (at_ 0 10 0) (at_ 0 11 0) true None in
  let moved := mk_slot 0 1 7 (at_ 0 10 0) (at_ 0 11 0) true None in
  create_new_time_slot empty_store 1 (mk_body 7 (at_ 0 10 0) (at_ 0 11 0) true)
  = (mk_store [slot] 2, inr slot)
  /\ update_time_slot_info (mk_store [slot] 2) 1
       (mk_updates (Some 0) None None None None None None)
     = (mk_store [moved] 2, inr (Some moved))
  /\ reachable (mk_store [moved] 2)
  /\ check_slot_conflicts (mk_store [moved] 2) 1 7 (at_ 0 10 30) (at_ 0 11 30) (Some 0)
     = [moved]
  /\ update_time_slot_info (mk_store [moved] 2) 0
       (mk_updates None None None (Some (at_ 0 10 30)) (Some (at_ 0 11 30)) None None)
     = (mk_store [moved] 2,
        inl (HTTPException HTTP_409_CONFLICT (new_time_conflicts 1)))
  /\ (forall db tournament court s e exclude r,
         In r (check_slot_conflicts db tournament court s e exclude) <->
         In r (time_slots db)
         /\ tournament_id r = tournament /\ court_id r = court
         /\ (forall x, exclude = Some x -> x <> 0 -> id r <> x)
         /\ start_time r < e /\ end_time r > s)
  /\ (forall db tournament court s e exclude r,
         end_time r = s \/ start_time r = e ->
         ~ In r (check_slot_conflicts db tournament court s e exclude)).
Proof.
  intros slot moved.
  assert (Hcreate : create_new_time_slot empty_store 1
                      (mk_body 7 (at_ 0 10 0) (at_ 0 11 0) true)
                    = (mk_store [slot] 2, inr slot)) by reflexivity.
  assert (Hmove : update_time_slot_info (mk_store [slot] 2) 1
                    (mk_updates (Some 0) None None None None None None)
                  = (mk_store [moved] 2, inr (Some moved))) by reflexivity.
  split; [exact Hcreate|]. split; [exact Hmove|]. split.
  { eapply reach_update; [|exact Hmove].
    eapply reach_create; [apply reach_empty | exact Hcreate]. }
  split; [reflexivity|]. split; [reflexivity|]. split.
  - apply check_slot_conflicts_spec.
  - apply check_slot_conflicts_no_touch.
Qed.

End ConflictChecker.

(** ** Assignment manager: slots *)

Module SlotAssignment.
Import Clock TimeSlots SlotGrid SlotInvariants ConflictChecker.

Lemma find_id_In : forall rows slot_id slot,
    find (fun r => id r =? slot_id) rows = Some slot ->
    In slot rows /\ id slot = slot_id.
Proof.
  intros rows slot_id slot H. apply find_some in H.
  rewrite Z.eqb_eq in H. exact H.
Qed.

Lemma find_id_fresh : forall rows slot_id,
    (forall r, In r rows -> id r <> slot_id) ->
    find (fun r => id r =? slot_id) rows = None.
Proof.
  induction rows as [|a rows IH]; simpl; intros slot_id H; [reflexivity|].
  destruct (id a =? slot_id) eqn:E.
  - apply Z.eqb_eq in E. exfalso. apply (H a); auto.
  - apply IH. intros r Hr. apply H; auto.
Qed.

Lemma find_id_app_last : forall rows row,
    (forall r, In r rows -> id r <> id row) ->
    find (fun r => id r =? id row) (rows ++ [row]) = Some row.
Proof.
  induction rows as [|a rows IH]; simpl; intros row H.
  - rewrite Z.eqb_refl. reflexivity.
  - destruct (id a =? id row) eqn:E.
    + apply Z.eqb_eq in E. exfalso. apply (H a); auto.
    + apply IH. intros r Hr. apply H; auto.
Qed.

Lemma find_id_map : forall (f : TimeSlot -> TimeSlot) rows slot_id slot,
    (forall r, id (f r) = id r) ->
    find (fun r => id r =? slot_id) rows = Some slot ->
    find (fun r => id r =? slot_id)
         (map (fun o => if id o =? slot_id then f o else o) rows)
    = Some (f slot).
Proof.
  intros f rows slot_id slot Hf.
  induction rows as [|a rows IH]; simpl; [discriminate|].
  destruct (id a =? slot_id) eqn:E; simpl.
  - rewrite Hf, E. intros H; inversion H; reflexivity.
  - rewrite E. exact IH.
Qed.

Lemma NoDup_map_inj : forall (A B : Type) (f : A -> B) (l : list A) a b,
    NoDup (map f l) -> In a l -> In b l -> f a = f b -> a = b.
Proof.
  intros A B f l a b; induction l as [|x l IH]; simpl; intros Hnd Ha Hb E;
    [contradiction|].
  inversion Hnd as [|? ? Hx Hl]; subst.
  destruct Ha as [->|Ha], Hb as [->|Hb]; auto.
  - exfalso. apply Hx. rewrite E. apply in_map; exact Hb.
  - exfalso. apply Hx. rewrite <- E. apply in_map; exact Ha.
Qed.

Lemma same_key_spec : forall c s e r,
    same_key c s e r = true <-> slot_key r = (c, s, e).
Proof.
  intros; unfold same_key, slot_key.
  rewrite !andb_true_iff, !Z.eqb_eq. split.
  - intros [[-> ->] ->]; reflexivity.
  - intros H; inversion H; auto.
Qed.

(** An update that leaves court and bounds alone never trips the
    unique constraint of a table that satisfies it. *)
Lemma update_keeps_key_free : forall db slot_id slot,
    keys_unique db ->
    find (fun r => id r =? slot_id) (time_slots db) = Some slot ->
    existsb (fun o => negb (id o =? slot_id)
                      && same_key (court_id slot) (start_time slot) (end_time slot) o)
            (time_slots db) = false.
Proof.
  intros db slot_id slot Hk Hf.
  apply find_id_In in Hf. destruct Hf as [Hin Hid].
  apply not_true_is_false. intros H.
  apply existsb_exists in H. destruct H as [o [Ho H]].
  apply andb_true_iff in H. destruct H as [Hne Hkey].
  apply negb_true_iff, Z.eqb_neq in Hne.
  apply same_key_spec in Hkey.
  assert (E : o = slot).
  { apply (NoDup_map_inj _ _ slot_key (time_slots db)); auto. }
  subst o. congruence.
Qed.

(** An update that leaves [id] alone never trips the primary key. *)
Lemma update_keeps_pkey_free : forall rows slot_id,
    existsb (fun o : TimeSlot => negb (id o =? slot_id) && (id o =? slot_id)) rows
    = false.
Proof.
  intros rows slot_id. apply not_true_is_false. intros H.
  apply existsb_exists in H. destruct H as [o [_ H]].
  destruct (id o =? slot_id); discriminate.
Qed.

Lemma assign_match_to_slot_ok : forall db slot_id m slot,
    keys_unique db ->
    get_time_slot_by_id db slot_id = Some slot ->
    assign_match_to_slot db slot_id m
    = (replace_slot slot_id (fun o => assigned o m) db, inr (Some (assigned slot m))).
Proof.
  intros db slot_id m slot Hk Hf.
  unfold assign_match_to_slot, update_time_slot.
  unfold get_time_slot_by_id in Hf. rewrite Hf. simpl.
  destruct (find_id_In _ _ _ Hf) as [_ Hid]. rewrite Hid.
  rewrite update_keeps_pkey_free.
  rewrite (update_keeps_key_free db slot_id slot Hk Hf). reflexivity.
Qed.

Lemma release_slot_ok : forall db slot_id slot,
    keys_unique db ->
    get_time_slot_by_id db slot_id = Some slot ->
    release_slot db slot_id
    = (replace_slot slot_id released db, inr (Some (released slot))).
Proof.
  intros db slot_id slot Hk Hf.
  unfold release_slot, update_time_slot.
  unfold get_time_slot_by_id in Hf. rewrite Hf. simpl.
  destruct (find_id_In _ _ _ Hf) as [_ Hid]. rewrite Hid.
  rewrite update_keeps_pkey_free.
  rewrite (update_keeps_key_free db slot_id slot Hk Hf). reflexivity.
Qed.

Lemma update_time_slot_failure : forall db slot_id u db' e,
    update_time_slot db slot_id u = (db', inl e) -> db' = db.
Proof.
  intros db slot_id u db' e; unfold update_time_slot.
  destruct (no_values u); [intros H; inversion H; reflexivity|].
  destruct (find _ _); [|intros H; inversion H].
  destruct (existsb _ _); [intros H; inversion H; reflexivity|].
  destruct (existsb _ _); intros H; inversion H; reflexivity.
Qed.

Lemma assign_match_to_time_slot_failure : forall db slot_id m db' e,
    assign_match_to_time_slot db slot_id m = (db', inl e) -> db' = db.
Proof.
  intros db slot_id m db' e; unfold assign_match_to_time_slot.
  destruct (get_time_slot_by_id db slot_id) as [slot|];
    [|intros H; inversion H; reflexivity].
  destruct (negb (is_available slot)); [intros H; inversion H; reflexivity|].
  destruct (truthy (match_id slot)); [intros H; inversion H; reflexivity|].
  apply update_time_slot_failure.
Qed.

Lemma release_time_slot_failure : forall db slot_id db' e,
    release_time_slot db slot_id = (db', inl e) -> db' = db.
Proof.
  intros db slot_id db' e; unfold release_time_slot.
  destruct (get_time_slot_by_id db slot_id) as [slot|];
    [|intros H; inversion H; reflexivity].
  destruct (negb (truthy (match_id slot))); [intros H; inversion H; reflexivity|].
  apply update_time_slot_failure.
Qed.

Lemma holds_match_truthy : forall db slot,
    match_refs_positive db -> In slot (time_slots db) ->
    match_id slot <> None -> truthy (match_id slot) = true.
Proof.
  intros db slot Hpos Hin Hm. unfold match_refs_positive in Hpos.
  rewrite Forall_forall in Hpos. specialize (Hpos slot Hin).
  destruct (match_id slot) as [m|]; [|congruence].
  specialize (Hpos m eq_refl). simpl.
  apply negb_true_iff, Z.eqb_neq. lia.
Qed.

(** C7: on a stored slot, [assign_match_to_time_slot] fails with
    InvalidState when the slot is unavailable or already holds a match,
    and any failure leaves the store as it was; when the slot is free it
    writes the match and clears [is_available] in one update.
    [release_time_slot] fails with InvalidState when no match is
    assigned, and otherwise clears the match and sets [is_available] in
    one update. *)
Theorem assign_and_release_guards :
  forall db slot_id slot m,
    keys_unique db -> match_refs_positive db ->
    get_time_slot_by_id db slot_id = Some slot ->
    (is_available slot = false \/ match_id slot <> None ->
     exists e, assign_match_to_time_slot db slot_id m = (db, inl e)
               /\ classify e = InvalidState)
    /\ (forall db' e,
          assign_match_to_time_slot db slot_id m = (db', inl e) -> db' = db)
    /\ (is_available slot = true -> match_id slot = None ->
        let db' := replace_slot slot_id (fun o => assigned o m) db in
        assign_match_to_time_slot db slot_id m = (db', inr (Some (assigned slot m)))
        /\ get_time_slot_by_id db' slot_id = Some (assigned slot m))
    /\ (match_id slot = None ->
        exists e, release_time_slot db slot_id = (db, inl e)
                  /\ classify e = InvalidState)
    /\ (forall db' e, release_time_slot db slot_id = (db', inl e) -> db' = db)
    /\ (match_id slot <> None ->
        let db' := replace_slot slot_id released db in
        release_time_slot db slot_id = (db', inr (Some (released slot)))
        /\ get_time_slot_by_id db' slot_id = Some (released slot)).
Proof.
  intros db slot_id slot m Hk Hpos Hget.
  assert (Hin : In slot (time_slots db)).
  { unfold get_time_slot_by_id in Hget. apply find_id_In in Hget. tauto. }
  split; [|split; [|split; [|split; [|split]]]].
  - intros Hbusy. unfold assign_match_to_time_slot. rewrite Hget.
    destruct (is_available slot) eqn:Ha; simpl.
    + destruct Hbusy as [Hbusy|Hbusy]; [discriminate|].
      rewrite (holds_match_truthy db slot Hpos Hin Hbusy).
      eexists; split; reflexivity.
    + eexists; split; reflexivity.
  - apply assign_match_to_time_slot_failure.
  - intros Hfree Hnone db'. split.
    + unfold assign_match_to_time_slot. rewrite Hget, Hfree, Hnone. simpl.
      apply assign_match_to_slot_ok; assumption.
    + unfold get_time_slot_by_id, db', replace_slot; simpl.
      apply (find_id_map (fun o => assigned o m)); [reflexivity|exact Hget].
  - intros Hnone. unfold release_time_slot. rewrite Hget, Hnone. simpl.
    eexists; split; reflexivity.
  - apply release_time_slot_failure.
  - intros Hheld db'. split.
    + unfold release_time_slot. rewrite Hget.
      rewrite (holds_match_truthy db slot Hpos Hin Hheld). simpl.
      apply release_slot_ok; assumption.
    + unfold get_time_slot_by_id, db', replace_slot; simpl.
      apply (find_id_map released); [reflexivity|exact Hget].
Qed.

Lemma assign_and_release_guards_witness :
  get_time_slot_by_id (replace_slot 1 (fun o => assigned o 5) one_slot_store) 1
  = Some (assigned (mk_slot 1 1 7 (at_ 0 10 0) (at_ 0 11 0) true None) 5)
  /\ exists e,
      assign_match_to_time_slot
        (replace_slot 1 (fun o => assigned o 5) one_slot_store) 1 9
      = (replace_slot 1 (fun o => assigned o 5) one_slot_store, inl e)
      /\ classify e = InvalidState.
Proof.
  split; [reflexivity|].
  refine (proj1 (assign_and_release_guards
                   (replace_slot 1 (fun o => assigned o 5) one_slot_store) 1
                   (assigned (mk_slot 1 1 7 (at_ 0 10 0) (at_ 0 11 0) true None) 5)
                   9 _ _ _) _).
  - unfold keys_unique; simpl. repeat constructor; simpl; tauto.
  - unfold match_refs_positive; simpl. repeat constructor.
    intros m H; inversion H; lia.
  - reflexivity.
  - left; reflexivity.
Defined.

End SlotAssignment.

(** ** Single-slot creation *)

Module SlotCreation.
Import Clock TimeSlots SlotGrid SlotInvariants ConflictChecker SlotAssignment.

Lemma insert_time_slot_inr : forall db v db' row,
    insert_time_slot db v = (db', inr row) ->
    row = row_of (time_slots_id_seq db) v
    /\ db' = mk_store (time_slots db ++ [row]) (time_slots_id_seq db + 1)
    /\ existsb (same_key (ins_court_id v) (ins_start_time v) (ins_end_time v))
               (time_slots db) = false.
Proof.
  intros db v db' row; unfold insert_time_slot.
  destruct (existsb _ _); intros H; inversion H; subst; auto.
Qed.

Lemma insert_time_slot_inl : forall db v db' e,
    insert_time_slot db v = (db', inl e) ->
    time_slots db' = time_slots db.
Proof.
  intros db v db' e; unfold insert_time_slot.
  destruct (existsb _ _); intros H; inversion H; subst; reflexivity.
Qed.

Lemma sequence_value_fresh : forall db r,
    ids_from_sequence db -> In r (time_slots db) -> id r <> time_slots_id_seq db.
Proof.
  intros db r [_ [Hb _]] Hin. rewrite Forall_forall in Hb.
  specialize (Hb r Hin). lia.
Qed.

(** The primary key stays the sequence's after an insert, accepted or
    not. *)
Lemma insert_keeps_ids : forall db v db' res,
    ids_from_sequence db -> insert_time_slot db v = (db', res) ->
    ids_from_sequence db'.
Proof.
  intros db v db' res [H1 [Hb Hnd]]; unfold insert_time_slot.
  rewrite Forall_forall in Hb.
  destruct (existsb _ _); intros H; inversion H; subst; clear H;
    (split; [simpl; lia|split]); simpl.
  - rewrite Forall_forall. intros r Hr. specialize (Hb r Hr). lia.
  - exact Hnd.
  - rewrite Forall_forall. intros r Hr. apply in_app_or in Hr.
    destruct Hr as [Hr|[<-|[]]]; [specialize (Hb r Hr)|simpl]; lia.
  - rewrite map_app; simpl.
    apply NoDup_app; [exact Hnd | repeat constructor; simpl; tauto |].
    intros i Hi [<-|[]]. apply in_map_iff in Hi.
    destruct Hi as [r [E Hr]]. specialize (Hb r Hr). lia.
Qed.

Lemma create_time_slot_persists : forall db tournament body db' slot,
    ids_from_sequence db ->
    create_time_slot db tournament body = (db', inr slot) ->
    match_id slot = None
    /\ is_available slot = body_is_available body
    /\ tournament_id slot = tournament
    /\ time_slots db' = time_slots db ++ [slot]
    /\ get_time_slot_by_id db' (id slot) = Some slot.
Proof.
  intros db tournament body db' slot Hids H. unfold create_time_slot in H.
  apply insert_time_slot_inr in H. destruct H as [Hrow [Hdb _]].
  subst db'. repeat split; try (subst slot; reflexivity).
  unfold get_time_slot_by_id; simpl. apply find_id_app_last.
  intros r Hr. subst slot; simpl. apply sequence_value_fresh; assumption.
Qed.

Lemma create_new_time_slot_inr : forall db tournament body db' slot,
    create_new_time_slot db tournament body = (db', inr slot) ->
    create_time_slot db tournament body = (db', inr slot).
Proof.
  intros db tournament body db' slot; unfold create_new_time_slot.
  destruct (check_slot_conflicts _ _ _ _ _ _); [auto|discriminate].
Qed.

(** C10: a slot persisted by a single create has [match_id = None]
    whatever the body says and [is_available] as the body gives it; the
    create goes through whenever no stored slot conflicts or has the same
    key.  A slot created unavailable is then refused both by
    [assign_match_to_time_slot] and by [release_time_slot]. *)
Theorem created_slot_holds_no_match :
  forall db tournament body,
    ids_from_sequence db ->
    (forall db' slot,
        create_time_slot db tournament body = (db', inr slot) ->
        match_id slot = None /\ is_available slot = body_is_available body
        /\ In slot (time_slots db'))
    /\ (forall db' slot,
          create_new_time_slot db tournament body = (db', inr slot) ->
          match_id slot = None /\ is_available slot = body_is_available body
          /\ get_time_slot_by_id db' (id slot) = Some slot
          /\ (body_is_available body = false ->
              forall m,
                (exists e, assign_match_to_time_slot db' (id slot) m = (db', inl e)
                           /\ classify e = InvalidState)
                /\ (exists e, release_time_slot db' (id slot) = (db', inl e)
                              /\ classify e = InvalidState)))
    /\ (check_slot_conflicts db tournament (body_court_id body)
                             (body_start_time body) (body_end_time body) None = [] ->
        existsb (same_key (body_court_id body) (body_start_time body)
                          (body_end_time body)) (time_slots db) = false ->
        exists db' slot, create_new_time_slot db tournament body = (db', inr slot)).
Proof.
  intros db tournament body Hids. split; [|split].
  - intros db' slot H.
    destruct (create_time_slot_persists _ _ _ _ _ Hids H)
      as [Hm [Ha [_ [Hrows _]]]].
    repeat split; auto. rewrite Hrows. apply in_or_app; right; left; reflexivity.
  - intros db' slot H. apply create_new_time_slot_inr in H.
    destruct (create_time_slot_persists _ _ _ _ _ Hids H)
      as [Hm [Ha [_ [_ Hget]]]].
    split; [exact Hm|]. split; [exact Ha|]. split; [exact Hget|].
    intros Hoff m. split.
    + unfold assign_match_to_time_slot. rewrite Hget.
      rewrite Ha, Hoff. simpl. eexists; split; reflexivity.
    + unfold release_time_slot. rewrite Hget, Hm. simpl.
      eexists; split; reflexivity.
  - intros Hnone Hfree. unfold create_new_time_slot. rewrite Hnone.
    unfold create_time_slot, insert_time_slot; simpl. rewrite Hfree.
    eexists; eexists; reflexivity.
Qed.

Lemma created_slot_holds_no_match_witness :
  ids_from_sequence empty_store
  /\ exists db' slot,
      create_new_time_slot empty_store 1 (mk_body 7 (at_ 0 10 0) (at_ 0 11 0) false)
      = (db', inr slot).
Proof.
  assert (H : ids_from_sequence empty_store).
  { repeat split; simpl; try lia; constructor. }
  split; [exact H|].
  apply (proj2 (proj2 (created_slot_holds_no_match empty_store 1
                         (mk_body 7 (at_ 0 10 0) (at_ 0 11 0) false) H)));
    reflexivity.
Defined.

(** A client creates an unavailable slot without a match; neither
    assigning nor releasing is then possible. *)
Example unavailable_without_match :
  let body := mk_body 7 (at_ 0 10 0) (at_ 0 11 0) false in
  let slot := mk_slot 1 1 7 (at_ 0 10 0) (at_ 0 11 0) false None in
  let db' := mk_store [slot] 2 in
  create_new_time_slot empty_store 1 body = (db', inr slot)
  /\ assign_match_to_time_slot db' 1 5
     = (db', inl (HTTPException HTTP_400_BAD_REQUEST slot_not_available))
  /\ release_time_slot db' 1
     = (db', inl (HTTPException HTTP_400_BAD_REQUEST slot_has_no_match)).
Proof. repeat split. Qed.

End SlotCreation.

(** ** Referee availability resolver *)

Module AvailabilityResolver.
Import Clock Referees Scenarios.

Lemma in_flat_map_const : forall (A B : Type) (keep : A -> B -> bool)
    (xs : list A) (ys : list B) x,
    In x (flat_map (fun x' => map (fun _ => x') (filter (keep x') ys)) xs)
    <-> In x xs /\ exists y, In y ys /\ keep x y = true.
Proof.
  intros A B keep xs ys x. rewrite in_flat_map. split.
  - intros [x' [Hx' Hin]]. apply in_map_iff in Hin.
    destruct Hin as [y [E Hy]]. subst x'. apply filter_In in Hy.
    split; [assumption | exists y; assumption].
  - intros [Hx [y [Hy Hk]]]. exists x. split; [assumption|].
    apply in_map_iff. exists y. split; [reflexivity|].
    apply filter_In; auto.
Qed.

Lemma candidate_where : forall (r : Referee) (a : RefereeAvailability) t s e,
    (id r =? av_referee_id a)
    && ((av_tournament_id a =? t) && (available_from a <=? s)
        && (available_to a >=? e) && Bool.eqb (active r) true) = true
    <-> active r = true /\ av_referee_id a = id r /\ av_tournament_id a = t
        /\ contains (available_from a) (available_to a) s e.
Proof.
  intros; unfold contains.
  rewrite !andb_true_iff, !Z.eqb_eq, Z.leb_le, Z.geb_leb, Z.leb_le, eqb_true_iff.
  intuition congruence.
Qed.

(** C3: the candidates of the resolver are exactly the active referees
    with an availability row for the tournament whose window contains the
    proposal ([available_from <= start] and [available_to >= end]); a
    referee whose rows for the tournament overlap the proposal without
    containing it is not a candidate. *)
Theorem candidate_referees_exact :
  forall db tournament s e,
    (forall r, In r (candidate_referees db tournament s e) <->
               In r (referees db) /\ active r = true
               /\ exists a, In a (referees_x_tournaments db)
                            /\ av_referee_id a = id r
                            /\ av_tournament_id a = tournament
                            /\ available_from a <= s /\ available_to a >= e)
    /\ (forall r,
           (forall a, In a (referees_x_tournaments db) ->
                      av_referee_id a = id r -> av_tournament_id a = tournament ->
                      overlaps (available_from a) (available_to a) s e
                      /\ ~ contains (available_from a) (available_to a) s e) ->
           ~ In r (candidate_referees db tournament s e)).
Proof.
  intros db tournament s e.
  assert (Hchar : forall r, In r (candidate_referees db tournament s e) <->
               In r (referees db) /\ active r = true
               /\ exists a, In a (referees_x_tournaments db)
                            /\ av_referee_id a = id r
                            /\ av_tournament_id a = tournament
                            /\ available_from a <= s /\ available_to a >= e).
  { intros r. unfold candidate_referees.
    rewrite (in_flat_map_const _ _
               (fun r a => (id r =? av_referee_id a)
                           && ((av_tournament_id a =? tournament)
                               && (available_from a <=? s)
                               && (available_to a >=? e)
                               && Bool.eqb (active r) true))).
    split.
    - intros [Hr [a [Ha Hk]]]. apply candidate_where in Hk.
      unfold contains in Hk. destruct Hk as [Hact [Hid [Ht [Hf Hto]]]].
      split; [assumption|]. split; [assumption|].
      exists a. repeat split; auto; lia.
    - intros [Hr [Hact [a [Ha [Hid [Ht [Hf Hto]]]]]]].
      split; [assumption|]. exists a. split; [assumption|].
      apply candidate_where. unfold contains. repeat split; auto; lia. }
  split; [exact Hchar|].
  intros r Hall Hin. apply Hchar in Hin.
  destruct Hin as [_ [_ [a [Ha [Hid [Ht [Hf Hto]]]]]]].
  destruct (Hall a Ha Hid Ht) as [_ Hnot]. apply Hnot.
  unfold contains; lia.
Qed.

Lemma conflict_where : forall (a : RefereeAssignment) (m : Match) referee s e,
    (match_id a =? m_id m)
    && ((referee_id a =? referee) && (m_start_time m <? e)
        && (m_start_time m
            + timedelta_minutes 1 * (duration_minutes m + margin_minutes m) >? s))
    = true
    <-> referee_id a = referee /\ match_id a = m_id m
        /\ overlaps (window_start m) (window_end m) s e.
Proof.
  intros; unfold overlaps, window_start, window_end, timedelta_minutes.
  rewrite !andb_true_iff, !Z.eqb_eq, Z.ltb_lt, Z.gtb_ltb, Z.ltb_lt.
  replace (1 * MICROSECONDS_PER_MINUTE * (duration_minutes m + margin_minutes m))
    with ((duration_minutes m + margin_minutes m) * MICROSECONDS_PER_MINUTE)
    by ring.
  tauto.
Qed.

Lemma in_conflicting_assignments : forall db referee s e a m,
    In (a, m) (conflicting_assignments db referee s e) <->
    In a (referees_x_matches db) /\ In m (matches db)
    /\ referee_id a = referee /\ match_id a = m_id m
    /\ overlaps (window_start m) (window_end m) s e.
Proof.
  intros db referee s e a m. unfold conflicting_assignments.
  rewrite in_flat_map. split.
  - intros [a' [Ha' Hin]]. apply in_map_iff in Hin.
    destruct Hin as [m' [E Hm']]. inversion E; subst a' m'.
    apply filter_In in Hm'. destruct Hm' as [Hm Hk].
    apply conflict_where in Hk. tauto.
  - intros [Ha [Hm Hk]]. exists a. split; [assumption|].
    apply in_map_iff. exists m. split; [reflexivity|].
    apply filter_In. split; [assumption|]. apply conflict_where. exact Hk.
Qed.

Lemma conflict_count_zero : forall db referee s e,
    conflict_count db referee s e = 0
    <-> conflicting_assignments db referee s e = [].
Proof.
  intros; unfold conflict_count.
  destruct (conflicting_assignments db referee s e); simpl.
  - tauto.
  - split; [lia | discriminate].
Qed.

Lemma conflict_count_positive : forall db referee s e,
    conflict_count db referee s e <> 0
    <-> exists a m, In (a, m) (conflicting_assignments db referee s e).
Proof.
  intros. rewrite conflict_count_zero.
  destruct (conflicting_assignments db referee s e) as [|[a m] l]; simpl.
  - split; [congruence | intros [a [m []]]].
  - split; [intros _; exists a, m; auto | discriminate].
Qed.

(** C2: a candidate is rejected by the resolver exactly when one of the
    referee's assigned matches has a window
    [[start, start + duration + margin)] that overlaps the proposal
    [[s, e)]; it is accepted exactly when the count of such assignments
    is zero; and every counted match starts before [e], so the margin
    never reaches back before a match's start. *)
Theorem resolver_rejects_on_margin_window :
  forall db tournament s e r,
    In r (candidate_referees db tournament s e) ->
    (~ In r (get_available_referees_for_time_slot db tournament s e) <->
     exists a m, In a (referees_x_matches db) /\ In m (matches db)
                 /\ referee_id a = id r /\ match_id a = m_id m
                 /\ m_start_time m < e
                 /\ m_start_time m
                    + timedelta_minutes (duration_minutes m + margin_minutes m) > s)
    /\ (In r (get_available_referees_for_time_slot db tournament s e) <->
        conflict_count db (id r) s e = 0)
    /\ ((forall a m, In a (referees_x_matches db) -> In m (matches db) ->
                     referee_id a = id r -> match_id a = m_id m ->
                     e <= m_start_time m) ->
        In r (get_available_referees_for_time_slot db tournament s e)).
Proof.
  intros db tournament s e r Hcand.
  assert (Hacc : In r (get_available_referees_for_time_slot db tournament s e) <->
                 conflict_count db (id r) s e = 0).
  { unfold get_available_referees_for_time_slot.
    rewrite filter_In, Z.eqb_eq. tauto. }
  split; [|split].
  - rewrite Hacc, conflict_count_positive. split.
    + intros [a [m Hin]]. apply in_conflicting_assignments in Hin.
      unfold overlaps, window_start, window_end in Hin.
      exists a, m. intuition lia.
    + intros [a [m [Ha [Hm [Hr [Hid [H1 H2]]]]]]]. exists a, m.
      apply in_conflicting_assignments.
      unfold overlaps, window_start, window_end. intuition lia.
  - exact Hacc.
  - intros Hlate. apply Hacc.
    destruct (Z.eq_dec (conflict_count db (id r) s e) 0) as [E|N]; [exact E|].
    apply conflict_count_positive in N. destruct N as [a [m Hin]].
    apply in_conflicting_assignments in Hin.
    destruct Hin as [Ha [Hm [Hr [Hid [H1 _]]]]].
    specialize (Hlate a m Ha Hm Hr Hid). unfold window_start in H1. lia.
Qed.

Lemma resolver_rejects_on_margin_window_witness :
  In ana (candidate_referees ana_store 1 (at_ 0 10 0) (at_ 0 11 0))
  /\ (In ana (get_available_referees_for_time_slot ana_store 1 (at_ 0 10 0) (at_ 0 11 0))
      <-> conflict_count ana_store (id ana) (at_ 0 10 0) (at_ 0 11 0) = 0).
Proof.
  assert (H : In ana (candidate_referees ana_store 1 (at_ 0 10 0) (at_ 0 11 0))).
  { simpl. left. reflexivity. }
  split; [exact H|].
  exact (proj1 (proj2 (resolver_rejects_on_margin_window
                         ana_store 1 (at_ 0 10 0) (at_ 0 11 0) ana H))).
Defined.

(** Section 8, property 5: declared [09:00, 17:00), proposed
    [08:00, 09:30): overlapping but not contained, so not a candidate. *)
Example partial_overlap_is_not_availability :
  candidate_referees ana_store 1 (at_ 0 8 0) (at_ 0 9 30) = []
  /\ overlaps (at_ 0 9 0) (at_ 0 17 0) (at_ 0 8 0) (at_ 0 9 30).
Proof. split; [reflexivity | unfold overlaps; vm_compute; split; reflexivity]. Qed.

(** Section 8, property 6: the window of match 10 ends at 10:05; the
    proposal [10:00, 11:00) is refused, [10:05, 11:00) is accepted. *)
Example margin_blocks_until_1005 :
  get_available_referees_for_time_slot ana_store 1 (at_ 0 10 0) (at_ 0 11 0) = []
  /\ get_available_referees_for_time_slot ana_store 1 (at_ 0 10 5) (at_ 0 11 0) = [ana].
Proof. split; reflexivity. Qed.

End AvailabilityResolver.

(** ** Assignment manager: referees *)

Module RefereeAssignments.
Import Clock Referees Scenarios.

Lemma get_referee_by_id_None : forall db referee,
    get_referee_by_id db referee = None
    <-> forall r, In r (referees db) -> id r <> referee.
Proof.
  intros db referee; unfold get_referee_by_id. split.
  - intros H r Hr E.
    apply (find_none _ _ H) in Hr. rewrite Z.eqb_neq in Hr. contradiction.
  - intros H. induction (referees db) as [|a l IH]; simpl; [reflexivity|].
    destruct (id a =? referee) eqn:E.
    + apply Z.eqb_eq in E. exfalso. apply (H a); simpl; auto.
    + apply IH. intros r Hr. apply H; simpl; auto.
Qed.

Lemma same_triple_spec : forall referee m role' a,
    same_triple referee m role' a = true
    <-> referee_id a = referee /\ match_id a = m /\ role a = role'.
Proof.
  intros; unfold same_triple.
  rewrite !andb_true_iff, !Z.eqb_eq, String.eqb_eq. tauto.
Qed.

Lemma role_check : forall role',
    existsb (String.eqb role') valid_roles = true <-> In role' valid_roles.
Proof.
  intros role'. rewrite existsb_exists. split.
  - intros [x [Hx E]]. apply String.eqb_eq in E. subst; assumption.
  - intros H. exists role'. split; [assumption | apply String.eqb_refl].
Qed.

Lemma valid_roles_enumeration : forall role',
    In role' valid_roles
    <-> role' = "main"%string \/ role' = "assistant"%string
        \/ role' = "line_judge"%string \/ role' = "video_referee"%string.
Proof.
  intros role'; unfold valid_roles; simpl. intuition congruence.
Qed.

Lemma triple_check : forall db referee m role',
    existsb (same_triple referee m role') (referees_x_matches db) = true
    <-> exists a, In a (referees_x_matches db)
                  /\ referee_id a = referee /\ match_id a = m /\ role a = role'.
Proof.
  intros. rewrite existsb_exists.
  split; intros [a [Ha H]]; exists a; (split; [assumption|]);
    apply same_triple_spec; assumption.
Qed.

(** C8: [assign_referee] fails with NotFound when no referee has the
    given id; with InvalidArgument when the referee exists and the role
    is none of main, assistant, line_judge, video_referee; with Conflict
    (the unique key of the table) when the (referee, match, role) triple
    is already stored; and otherwise it stores the new row, in particular
    for a role the pair does not have yet. *)
Theorem assign_referee_outcomes :
  forall db m referee role' c n,
    ((forall r, In r (referees db) -> id r <> referee) ->
     exists e, assign_referee db m referee role' c n = (db, inl e)
               /\ classify e = NotFound)
    /\ ((exists r, In r (referees db) /\ id r = referee) ->
        ~ (role' = "main"%string \/ role' = "assistant"%string
           \/ role' = "line_judge"%string \/ role' = "video_referee"%string) ->
        exists e, assign_referee db m referee role' c n = (db, inl e)
                  /\ classify e = InvalidArgument)
    /\ ((exists r, In r (referees db) /\ id r = referee) ->
        In role' valid_roles ->
        (exists a, In a (referees_x_matches db)
                   /\ referee_id a = referee /\ match_id a = m /\ role a = role') ->
        exists e, assign_referee db m referee role' c n = (db, inl e)
                  /\ classify e = Conflict)
    /\ ((exists r, In r (referees db) /\ id r = referee) ->
        In role' valid_roles ->
        (forall a, In a (referees_x_matches db) ->
                   referee_id a = referee -> match_id a = m -> role a <> role') ->
        let row := mk_assignment referee m role' c n in
        assign_referee db m referee role' c n
        = (mk_store (referees db) (referees_x_tournaments db)
                    (referees_x_matches db ++ [row]) (matches db),
           inr row)).
Proof.
  intros db m referee role' c n.
  assert (Hfound : (exists r, In r (referees db) /\ id r = referee) ->
                   exists r, get_referee_by_id db referee = Some r).
  { intros [r [Hr Hid]].
    destruct (get_referee_by_id db referee) as [r'|] eqn:E; [exists r'; reflexivity|].
    exfalso. rewrite get_referee_by_id_None in E. apply (E r Hr Hid). }
  repeat split.
  - intros Hnone. apply get_referee_by_id_None in Hnone.
    unfold assign_referee. rewrite Hnone. eexists; split; reflexivity.
  - intros Hex Hrole. destruct (Hfound Hex) as [r Hr].
    unfold assign_referee. rewrite Hr.
    destruct (existsb (String.eqb role') valid_roles) eqn:E.
    + exfalso. apply Hrole. apply valid_roles_enumeration, role_check. exact E.
    + simpl. eexists; split; reflexivity.
  - intros Hex Hrole Hdup. destruct (Hfound Hex) as [r Hr].
    unfold assign_referee. rewrite Hr.
    apply role_check in Hrole. rewrite Hrole. simpl.
    unfold assign_referee_to_match.
    apply triple_check in Hdup. rewrite Hdup. eexists; split; reflexivity.
  - intros Hex Hrole Hnew. destruct (Hfound Hex) as [r Hr].
    unfold assign_referee. rewrite Hr.
    apply role_check in Hrole. rewrite Hrole. simpl.
    unfold assign_referee_to_match.
    destruct (existsb (same_triple referee m role') (referees_x_matches db)) eqn:E;
      [|reflexivity].
    exfalso. apply triple_check in E. destruct E as [a [Ha [H1 [H2 H3]]]].
    apply (Hnew a Ha H1 H2 H3).
Qed.

(** Section 8, property 8: Ana is already the main referee of match 10;
    assigning her as main again is a duplicate key, assigning her as
    assistant is stored. *)
Example duplicate_role_conflicts :
  assign_referee ana_store 10 1 "main" true None
  = (ana_store, inl (UniqueViolationError "unique_referee_match_role")).
Proof. reflexivity. Qed.

Example other_role_is_stored :
  exists db', assign_referee ana_store 10 1 "assistant" false None
              = (db', inr (mk_assignment 1 10 "assistant" false None)).
Proof. eexists; reflexivity. Qed.

Lemma assign_referee_outcomes_witness :
  exists e, assign_referee ana_store 10 1 "main" true None = (ana_store, inl e)
            /\ classify e = Conflict.
Proof.
  refine (proj1 (proj2 (proj2 (assign_referee_outcomes
                                 ana_store 10 1 "main"%string true None))) _ _ _).
  - exists ana. split; [left; reflexivity | reflexivity].
  - left; reflexivity.
  - exists (mk_assignment 1 10 "main" false None).
    split; [left; reflexivity | repeat split].
Defined.

Lemma same_pair_spec : forall referee m a,
    same_pair referee m a = true <-> referee_id a = referee /\ match_id a = m.
Proof.
  intros; unfold same_pair. rewrite andb_true_iff, !Z.eqb_eq. tauto.
Qed.

Lemma filter_nil_iff : forall (A : Type) (f : A -> bool) (l : list A),
    filter f l = [] <-> forall a, In a l -> f a = false.
Proof.
  intros A f l; induction l as [|x l IH]; simpl.
  - split; [intros _ a [] | reflexivity].
  - destruct (f x) eqn:E.
    + split; [discriminate|]. intros H. specialize (H x (or_introl eq_refl)).
      congruence.
    + rewrite IH. split.
      * intros H a [<-|Ha]; auto.
      * intros H a Ha. apply H; auto.
Qed.

Lemma no_pair_iff : forall db referee m,
    filter (same_pair referee m) (referees_x_matches db) = []
    <-> forall a, In a (referees_x_matches db) ->
                  ~ (referee_id a = referee /\ match_id a = m).
Proof.
  intros. rewrite filter_nil_iff. split; intros H a Ha.
  - rewrite <- same_pair_spec. rewrite (H a Ha). discriminate.
  - apply not_true_is_false. rewrite same_pair_spec. apply H; assumption.
Qed.

(** Row by row, what the UPDATE does to the table. *)
Lemma set_values_rows : forall referee m c n rows,
    Forall2
      (fun old new =>
         referee_id new = referee_id old /\ match_id new = match_id old
         /\ role new = role old
         /\ (referee_id old = referee /\ match_id old = m ->
             confirmed new = match c with Some v => v | None => confirmed old end
             /\ assignment_notes new
                = match n with Some v => Some v | None => assignment_notes old end)
         /\ (~ (referee_id old = referee /\ match_id old = m) -> new = old))
      rows
      (map (fun a => if same_pair referee m a then set_values c n a else a) rows).
Proof.
  intros referee m c n rows; induction rows as [|a rows IH]; simpl; constructor;
    [|exact IH].
  destruct (same_pair referee m a) eqn:E.
  - apply same_pair_spec in E. simpl. repeat split; tauto.
  - assert (N : ~ (referee_id a = referee /\ match_id a = m)).
    { rewrite <- same_pair_spec. congruence. }
    repeat split; tauto.
Qed.

Lemma set_values_nothing : forall a, set_values None None a = a.
Proof. intros [r m ro c n]; reflexivity. Qed.

Lemma map_set_values_nothing : forall referee m rows,
    map (fun a => if same_pair referee m a then set_values None None a else a) rows
    = rows.
Proof.
  intros referee m rows; induction rows as [|a rows IH]; simpl; [reflexivity|].
  rewrite IH, set_values_nothing. destruct (same_pair referee m a); reflexivity.
Qed.

(** The table and the value [update_referee_assignment] leaves, in one
    equation that also covers the call without fields. *)
Lemma update_referee_assignment_table : forall db referee m c n,
    referees_x_matches (fst (update_referee_assignment db referee m c n))
    = map (fun a => if same_pair referee m a then set_values c n a else a)
          (referees_x_matches db)
    /\ referees (fst (update_referee_assignment db referee m c n)) = referees db
    /\ referees_x_tournaments (fst (update_referee_assignment db referee m c n))
       = referees_x_tournaments db
    /\ matches (fst (update_referee_assignment db referee m c n)) = matches db.
Proof.
  intros db referee m c n; unfold update_referee_assignment.
  destruct c as [c|], n as [n|]; simpl; repeat split.
  symmetry; apply map_set_values_nothing.
Qed.

Lemma update_referee_assignment_value : forall db referee m c n,
    snd (update_referee_assignment db referee m c n) = None
    <-> (forall a, In a (referees_x_matches db) ->
                   ~ (referee_id a = referee /\ match_id a = m))
        \/ (c = None /\ n = None).
Proof.
  intros db referee m c n. rewrite <- no_pair_iff.
  unfold update_referee_assignment.
  destruct c as [c|], n as [n|]; simpl;
    destruct (filter (same_pair referee m) (referees_x_matches db));
    split; intros H; try tauto; try discriminate;
    destruct H as [H|[H1 H2]]; congruence.
Qed.

(** C9: [update_referee_match_assignment] changes, in the rows of the
    (referee, match) pair, only [confirmed] and [notes] and only when
    they are supplied; every other column, row and table stays as it
    was.  It fails, always with NotFound, exactly when no row matches
    the pair or when neither field is supplied. *)
Theorem update_assignment_is_partial :
  forall db m referee c n,
    let db' := fst (update_referee_match_assignment db m referee c n) in
    let res := snd (update_referee_match_assignment db m referee c n) in
    Forall2
      (fun old new =>
         referee_id new = referee_id old /\ match_id new = match_id old
         /\ role new = role old
         /\ (referee_id old = referee /\ match_id old = m ->
             confirmed new = match c with Some v => v | None => confirmed old end
             /\ assignment_notes new
                = match n with Some v => Some v | None => assignment_notes old end)
         /\ (~ (referee_id old = referee /\ match_id old = m) -> new = old))
      (referees_x_matches db) (referees_x_matches db')
    /\ referees db' = referees db
    /\ referees_x_tournaments db' = referees_x_tournaments db
    /\ matches db' = matches db
    /\ ((exists e, res = inl e) <->
        (forall a, In a (referees_x_matches db) ->
                   ~ (referee_id a = referee /\ match_id a = m))
        \/ (c = None /\ n = None))
    /\ (forall e, res = inl e -> classify e = NotFound /\ db' = db)
    /\ (forall a', res = inr a' ->
                   In a' (referees_x_matches db')
                   /\ referee_id a' = referee /\ match_id a' = m).
Proof.
  intros db m referee c n db' res.
  pose proof (update_referee_assignment_table db referee m c n) as Htab.
  pose proof (update_referee_assignment_value db referee m c n) as Hval.
  subst db' res. unfold update_referee_match_assignment.
  destruct (update_referee_assignment db referee m c n) as [db1 [a1|]] eqn:Hupd;
    simpl in *; destruct Htab as [Hrows [Hr [Hrt Hm]]].
  - split; [rewrite Hrows; apply set_values_rows|].
    repeat split; auto.
    + intros [e He]; discriminate.
    + intros H. apply Hval in H. discriminate.
    + discriminate.
    + discriminate.
    + inversion H; subst a'. clear H.
      unfold update_referee_assignment in Hupd.
      assert (Hsome : exists a rest,
                 filter (same_pair referee m) (referees_x_matches db) = a :: rest
                 /\ a1 = set_values c n a).
      { destruct c as [c|], n as [n|]; try discriminate;
          destruct (filter (same_pair referee m) (referees_x_matches db))
            as [|a rest]; inversion Hupd; exists a, rest; auto. }
      destruct Hsome as [a [rest [Hf Ha1]]].
      assert (Hin : In a (filter (same_pair referee m) (referees_x_matches db))).
      { rewrite Hf; left; reflexivity. }
      apply filter_In in Hin. destruct Hin as [Hin Hp].
      rewrite Hrows. apply in_map_iff. exists a. rewrite Hp. auto.
    + inversion H; subst a'. clear H.
      unfold update_referee_assignment in Hupd.
      destruct c as [c|], n as [n|]; try discriminate;
        destruct (filter (same_pair referee m) (referees_x_matches db))
          as [|a rest] eqn:Hf; inversion Hupd; subst; simpl;
        assert (Hin : In a (filter (same_pair referee m) (referees_x_matches db)))
          by (rewrite Hf; left; reflexivity);
        apply filter_In in Hin; destruct Hin as [_ Hp];
        apply same_pair_spec in Hp; tauto.
    + inversion H; subst a'. clear H.
      unfold update_referee_assignment in Hupd.
      destruct c as [c|], n as [n|]; try discriminate;
        destruct (filter (same_pair referee m) (referees_x_matches db))
          as [|a rest] eqn:Hf; inversion Hupd; subst; simpl;
        assert (Hin : In a (filter (same_pair referee m) (referees_x_matches db)))
          by (rewrite Hf; left; reflexivity);
        apply filter_In in Hin; destruct Hin as [_ Hp];
        apply same_pair_spec in Hp; tauto.
  - split; [rewrite Hrows; apply set_values_rows|].
    repeat split; auto.
    + intros _. apply Hval. reflexivity.
    + intros _. eexists; reflexivity.
    + inversion H; reflexivity.
    + assert (Hnone : (forall a, In a (referees_x_matches db) ->
                                 ~ (referee_id a = referee /\ match_id a = m))
                      \/ (c = None /\ n = None)) by (apply Hval; reflexivity).
      destruct db as [rs rts rms ms], db1 as [rs1 rts1 rms1 ms1]; simpl in *.
      subst rs1 rts1 ms1. f_equal. rewrite Hrows.
      destruct Hnone as [Hno|[-> ->]].
      * clear Hupd Hval Hrows. induction rms as [|a rms IH]; simpl; [reflexivity|].
        rewrite IH by (intros x Hx; apply Hno; simpl; auto).
        destruct (same_pair referee m a) eqn:E; [|reflexivity].
        apply same_pair_spec in E. exfalso. apply (Hno a); simpl; auto.
      * apply map_set_values_nothing.
    + discriminate.
    + discriminate.
    + discriminate.
Qed.

(** Without fields the request ends in 404 although the row exists. *)
Example update_without_fields_is_not_found :
  update_referee_match_assignment ana_store 10 1 None None
  = (ana_store, inl (HTTPException HTTP_404_NOT_FOUND (assignment_not_found 1 10))).
Proof. reflexivity. Qed.

Example update_confirms_only :
  update_referee_match_assignment ana_store 10 1 (Some true) None
  = (mk_store [ana]
              [mk_availability 1 1 (at_ 0 9 0) (at_ 0 17 0) 5 [] None]
              [mk_assignment 1 10 "main" true None]
              [mk_match 10 (at_ 0 9 0) 60 5],
     inr (mk_assignment 1 10 "main" true None)).
Proof. reflexivity. Qed.

End RefereeAssignments.

(** ** Slot grid generator *)

Module GridGenerator.
Import Clock TimeSlots SlotGrid SlotInvariants ConflictChecker SlotAssignment
       SlotCreation.

Lemma insert_all_app : forall l1 l2 db created,
    insert_all db (l1 ++ l2) created
    = match insert_all db l1 created with
      | (db', inl e) => (db', inl e)
      | (db', inr created') => insert_all db' l2 created'
      end.
Proof.
  induction l1 as [|v l1 IH]; simpl; intros l2 db created; [reflexivity|].
  destruct (insert_time_slot db v) as [db' [e|row]]; [reflexivity|].
  apply IH.
Qed.

Section Walk.
Variable req : TimeSlotBulkCreate.
Hypothesis duration_positive : 0 < slot_duration_minutes req.
Hypothesis break_not_negative : 0 <= break_duration_minutes req.

Lemma duration_gt0 : 0 < duration req.
Proof. unfold duration, timedelta_minutes, MICROSECONDS_PER_MINUTE. lia. Qed.

Lemma stride_ge_duration : duration req <= stride req.
Proof.
  unfold stride, duration, timedelta_minutes, MICROSECONDS_PER_MINUTE. lia.
Qed.

Lemma stride_gt0 : 0 < stride req.
Proof. pose proof duration_gt0. pose proof stride_ge_duration. lia. Qed.

Lemma fitting_nonneg : forall c close, 0 <= fitting req c close.
Proof.
  intros c close; unfold fitting.
  destruct (c + duration req <=? close) eqn:E; [|lia].
  apply Z.leb_le in E.
  assert (0 <= (close - c - duration req) / stride req).
  { apply Z.div_pos; [lia | apply stride_gt0]. }
  lia.
Qed.

Lemma fitting_zero : forall c close,
    fitting req c close = 0 <-> close < c + duration req.
Proof.
  intros c close; unfold fitting.
  destruct (c + duration req <=? close) eqn:E.
  - apply Z.leb_le in E.
    assert (0 <= (close - c - duration req) / stride req).
    { apply Z.div_pos; [lia | apply stride_gt0]. }
    lia.
  - apply Z.leb_gt in E. lia.
Qed.

Lemma fitting_step : forall c close,
    c + duration req <= close ->
    fitting req c close = fitting req (c + stride req) close + 1.
Proof.
  intros c close Hfit. pose proof stride_gt0 as Hs. unfold fitting.
  destruct (c + duration req <=? close) eqn:E; [|apply Z.leb_gt in E; lia].
  destruct (c + stride req + duration req <=? close) eqn:E'.
  - apply Z.leb_le in E'.
    replace (close - c - duration req)
      with ((close - (c + stride req) - duration req) + 1 * stride req) by ring.
    rewrite Z.div_add by lia. ring.
  - apply Z.leb_gt in E'.
    rewrite Z.div_small by lia. reflexivity.
Qed.

(** The k-th slot of a walk fits exactly when [k] is below the number
    of fitting slots. *)
Lemma fitting_bound : forall c close k,
    0 <= k ->
    (k < fitting req c close <-> c + k * stride req + duration req <= close).
Proof.
  intros c close k Hk. pose proof stride_gt0 as Hs. unfold fitting.
  destruct (c + duration req <=? close) eqn:E.
  - apply Z.leb_le in E.
    pose proof (Z.div_mod (close - c - duration req) (stride req)) as Hdm.
    pose proof (Z.mod_pos_bound (close - c - duration req) (stride req) Hs) as Hb.
    assert (Hne : stride req <> 0) by lia. specialize (Hdm Hne).
    split; intros H; nia.
  - apply Z.leb_gt in E. split; intros H; [lia|]. nia.
Qed.

Lemma walk_succ : forall court c n,
    walk req court c (S n)
    = slot_at req court c :: walk req court (c + stride req) n.
Proof.
  intros court c n; unfold walk. simpl seq. simpl map.
  f_equal; [f_equal; simpl; lia|].
  rewrite <- seq_shift, map_map. apply map_ext.
  intros k. f_equal. lia.
Qed.

(** The inner loop persists the walk from the cursor, one slot per
    iteration, and needs one more iteration to leave. *)
Lemma slots_loop_walk : forall n fuel court c close db created,
    fitting req c close = Z.of_nat n -> (n < fuel)%nat ->
    slots_loop fuel req court c close db created
    = Some (insert_all db (walk req court c n) created).
Proof.
  pose proof duration_gt0 as Hd.
  induction n as [|n IH]; intros fuel court c close db created Hfit Hfuel;
    (destruct fuel as [|fuel]; [lia|]); simpl slots_loop.
  - apply fitting_zero in Hfit. fold (duration req).
    destruct (c <? close); [|reflexivity].
    destruct (c + duration req >? close) eqn:E; [reflexivity|].
    rewrite Z.gtb_ltb in E. apply Z.ltb_ge in E. lia.
  - assert (Hin : c + duration req <= close).
    { destruct (Z_le_gt_dec (c + duration req) close) as [L|G]; [exact L|].
      assert (fitting req c close = 0) by (apply fitting_zero; lia). lia. }
    fold (duration req).
    assert (E1 : (c <? close) = true) by (apply Z.ltb_lt; lia).
    assert (E2 : (c + duration req >? close) = false)
      by (rewrite Z.gtb_ltb; apply Z.ltb_ge; lia).
    rewrite E1, E2, walk_succ. simpl insert_all. unfold slot_at.
    destruct (insert_time_slot db _) as [db' [e|row]]; [reflexivity|].
    replace (c + duration req + timedelta_minutes (break_duration_minutes req))
      with (c + stride req) by (unfold stride, duration; ring).
    apply IH; [|lia].
    rewrite (fitting_step c close Hin) in Hfit. lia.
Qed.

Lemma fitting_day : forall d,
    fitting req (combine d (daily_start_time req)) (combine d (daily_end_time req))
    = slots_per_day req.
Proof.
  intros d; unfold fitting, slots_per_day, daily_window, combine.
  replace (timedelta_days d + time_offset (daily_start_time req) + duration req
           <=? timedelta_days d + time_offset (daily_end_time req))
    with (duration req
          <=? time_offset (daily_end_time req) - time_offset (daily_start_time req)).
  - destruct (duration req <=? _); [|reflexivity].
    do 2 f_equal. ring.
  - apply eq_true_iff_eq. rewrite !Z.leb_le. lia.
Qed.

Lemma slots_per_day_nonneg : 0 <= slots_per_day req.
Proof. rewrite <- (fitting_day 0). apply fitting_nonneg. Qed.

Lemma courts_loop_grid : forall fuel d courts db created,
    (enough_fuel req <= fuel)%nat ->
    courts_loop fuel req d courts db created
    = Some (insert_all db (flat_map (day_slots req d) courts) created).
Proof.
  intros fuel d courts; induction courts as [|court courts IH];
    intros db created Hfuel; simpl; [reflexivity|].
  rewrite (slots_loop_walk (Z.to_nat (slots_per_day req))).
  - rewrite insert_all_app. fold (day_slots req d court).
    destruct (insert_all db (day_slots req d court) created) as [db' [e|created']];
      [reflexivity|].
    apply IH; exact Hfuel.
  - rewrite fitting_day, Z2Nat.id; [reflexivity | apply slots_per_day_nonneg].
  - unfold enough_fuel in Hfuel. lia.
Qed.

Lemma days_loop_grid : forall n fuel d db created,
    (enough_fuel req <= fuel)%nat ->
    days_loop n fuel req d db created
    = Some (insert_all db
              (flat_map (fun d' => flat_map (day_slots req d') (court_ids req))
                        (filter (fun d' => negb (excluded req d'))
                                (map (fun k => d + Z.of_nat k) (seq 0 n))))
              created).
Proof.
  induction n as [|n IH]; intros fuel d db created Hfuel; [reflexivity|].
  assert (Hdates : map (fun k => d + Z.of_nat k) (seq 0 (S n))
                   = d :: map (fun k => d + 1 + Z.of_nat k) (seq 0 n)).
  { simpl seq. simpl map. f_equal; [simpl; lia|].
    rewrite <- seq_shift, map_map. apply map_ext. intros k. lia. }
  rewrite Hdates. simpl days_loop. simpl filter. unfold excluded at 1.
  destruct (existsb (Z.eqb (weekday d)) (exclude_days req)); simpl negb; cbv iota.
  - apply IH; exact Hfuel.
  - simpl flat_map. rewrite insert_all_app, courts_loop_grid by exact Hfuel.
    destruct (insert_all db (flat_map (day_slots req d) (court_ids req)) created)
      as [db' [e|created']]; [reflexivity|].
    apply IH; exact Hfuel.
Qed.

(** The loops of [bulk_create_time_slots] persist the grid of the
    specification, draft by draft. *)
Lemma bulk_create_is_grid : forall fuel db,
    (enough_fuel req <= fuel)%nat ->
    bulk_create_time_slots fuel db req = Some (insert_all db (slot_grid req) []).
Proof.
  intros fuel db Hfuel. unfold bulk_create_time_slots.
  rewrite days_loop_grid by exact Hfuel. reflexivity.
Qed.

Lemma in_walk : forall court c n v,
    In v (walk req court c n)
    <-> exists k, 0 <= k < Z.of_nat n /\ v = slot_at req court (c + k * stride req).
Proof.
  intros court c n v; unfold walk. rewrite in_map_iff. split.
  - intros [k [E Hk]]. apply in_seq in Hk. exists (Z.of_nat k). split; [lia|auto].
  - intros [k [Hk E]]. exists (Z.to_nat k). rewrite Z2Nat.id by lia.
    split; [auto|]. apply in_seq. lia.
Qed.

Lemma in_dates : forall d,
    In d (dates req) <-> first_date req <= d <= last_date req.
Proof.
  intros d; unfold dates. rewrite in_map_iff. split.
  - intros [k [E Hk]]. apply in_seq in Hk. lia.
  - intros H. exists (Z.to_nat (d - first_date req)). split; [lia|].
    apply in_seq. lia.
Qed.

Lemma excluded_spec : forall d,
    excluded req d = true <-> In (weekday d) (exclude_days req).
Proof.
  intros d; unfold excluded. rewrite existsb_exists. split.
  - intros [x [Hx E]]. apply Z.eqb_eq in E. subst; assumption.
  - intros H. exists (weekday d). split; [assumption | apply Z.eqb_refl].
Qed.

Lemma in_open_dates : forall d,
    In d (open_dates req)
    <-> first_date req <= d <= last_date req /\ ~ In (weekday d) (exclude_days req).
Proof.
  intros d; unfold open_dates.
  rewrite filter_In, in_dates, negb_true_iff, <- excluded_spec.
  destruct (excluded req d); intuition congruence.
Qed.

Lemma in_day_slots : forall d court v,
    In v (day_slots req d court)
    <-> exists k, 0 <= k
                  /\ combine d (daily_start_time req) + k * stride req + duration req
                     <= combine d (daily_end_time req)
                  /\ v = slot_at req court (combine d (daily_start_time req)
                                            + k * stride req).
Proof.
  intros d court v; unfold day_slots. rewrite in_walk.
  rewrite Z2Nat.id by apply slots_per_day_nonneg.
  rewrite <- (fitting_day d).
  split.
  - intros [k [[H0 H1] E]]. exists k. apply fitting_bound in H1; auto.
  - intros [k [H0 [H1 E]]]. exists k. split; [|exact E]. split; [exact H0|].
    apply fitting_bound; auto.
Qed.

Lemma in_slot_grid : forall v,
    In v (slot_grid req)
    <-> exists d court k,
        (first_date req <= d <= last_date req
         /\ ~ In (weekday d) (exclude_days req))
        /\ In court (court_ids req)
        /\ 0 <= k
        /\ combine d (daily_start_time req) + k * stride req + duration req
           <= combine d (daily_end_time req)
        /\ v = slot_at req court (combine d (daily_start_time req) + k * stride req).
Proof.
  intros v; unfold slot_grid. rewrite in_flat_map. split.
  - intros [d [Hd Hv]]. apply in_flat_map in Hv. destruct Hv as [court [Hc Hv]].
    apply in_day_slots in Hv. destruct Hv as [k [Hk [Hfit E]]].
    apply in_open_dates in Hd. exists d, court, k. auto.
  - intros [d [court [k [Hd [Hc [Hk [Hfit E]]]]]]].
    exists d. split; [apply in_open_dates; exact Hd|].
    apply in_flat_map. exists court. split; [exact Hc|].
    apply in_day_slots. exists k. auto.
Qed.


End Walk.

Lemma NoDup_app_disjoint : forall (A : Type) (l1 l2 : list A) x,
    NoDup (l1 ++ l2) -> In x l1 -> In x l2 -> False.
Proof.
  intros A l1 l2 x; induction l1 as [|a l1 IH]; simpl; intros Hnd H1 H2;
    [contradiction|].
  inversion Hnd as [|? ? Ha Hl]; subst. destruct H1 as [->|H1].
  - apply Ha. apply in_or_app; right; exact H2.
  - apply IH; assumption.
Qed.

Lemma draft_of_row_of : forall i v, draft_of (row_of i v) = v.
Proof. intros i [t c s e a m]; reflexivity. Qed.

Lemma slot_key_row_of : forall i v, slot_key (row_of i v) = draft_key v.
Proof. reflexivity. Qed.

Lemma slot_key_draft_of : forall r, draft_key (draft_of r) = slot_key r.
Proof. reflexivity. Qed.


Lemma NoDup_flat_map : forall (A B : Type) (f : A -> list B) (l : list A),
    NoDup l ->
    (forall x, In x l -> NoDup (f x)) ->
    (forall x y b, In x l -> In y l -> In b (f x) -> In b (f y) -> x = y) ->
    NoDup (flat_map f l).
Proof.
  intros A B f l Hl; induction Hl as [|a l Ha Hl IH]; simpl; intros Hf Hdis;
    [constructor|].
  apply NoDup_app.
  - apply Hf; left; reflexivity.
  - apply IH.
    + intros x Hx. apply Hf; right; exact Hx.
    + intros x y b Hx Hy. apply Hdis; right; assumption.
  - intros b Hb Hin. apply in_flat_map in Hin. destruct Hin as [y [Hy Hby]].
    assert (a = y) by (apply (Hdis a y b); simpl; auto).
    subst y. contradiction.
Qed.

Section Distinct.
Variable req : TimeSlotBulkCreate.
Hypothesis duration_positive : 0 < slot_duration_minutes req.
Hypothesis break_not_negative : 0 <= break_duration_minutes req.
Hypothesis open_valid : valid_time (daily_start_time req).
Hypothesis close_valid : valid_time (daily_end_time req).
Hypothesis courts_distinct : NoDup (court_ids req).

Lemma time_offset_in_day : forall t,
    valid_time t -> 0 <= time_offset t < MICROSECONDS_PER_DAY.
Proof.
  intros t [Hh Hm].
  unfold time_offset, timedelta_minutes, MICROSECONDS_PER_MINUTE, MICROSECONDS_PER_DAY.
  lia.
Qed.

(** A slot of the grid starts on the date it is made for. *)
Lemma day_slot_date : forall d court v,
    In v (day_slots req d court) -> date_of (ins_start_time v) = d.
Proof.
  intros d court v Hv.
  apply (in_day_slots req duration_positive break_not_negative) in Hv.
  destruct Hv as [k [Hk [Hfit E]]]. subst v. simpl.
  pose proof (duration_gt0 req duration_positive) as Hd.
  pose proof (stride_gt0 req duration_positive break_not_negative) as Hs.
  pose proof (time_offset_in_day _ open_valid) as Ho.
  pose proof (time_offset_in_day _ close_valid) as Hc.
  unfold date_of, combine, timedelta_days in *.
  symmetry. apply (Z.div_unique_pos _ _ d
                     (time_offset (daily_start_time req) + k * stride req));
    unfold MICROSECONDS_PER_DAY in *; nia.
Qed.

Lemma NoDup_walk : forall court c n, NoDup (walk req court c n).
Proof.
  intros court c n; unfold walk.
  pose proof (stride_gt0 req duration_positive break_not_negative) as Hs.
  apply NoDup_map_NoDup_ForallPairs; [|apply seq_NoDup].
  intros i j _ _ E. pose proof (f_equal ins_start_time E) as E'. simpl in E'. nia.
Qed.

Lemma NoDup_open_dates : NoDup (open_dates req).
Proof.
  unfold open_dates, dates. apply NoDup_filter.
  apply NoDup_map_NoDup_ForallPairs; [|apply seq_NoDup].
  intros i j _ _ E. lia.
Qed.

Lemma NoDup_slot_grid : NoDup (slot_grid req).
Proof.
  unfold slot_grid. apply NoDup_flat_map.
  - apply NoDup_open_dates.
  - intros d _. apply NoDup_flat_map.
    + exact courts_distinct.
    + intros court _. apply NoDup_walk.
    + intros c1 c2 v _ _ H1 H2.
      apply (in_day_slots req duration_positive break_not_negative) in H1, H2.
      destruct H1 as [k1 [_ [_ E1]]], H2 as [k2 [_ [_ E2]]].
      rewrite E1 in E2. apply (f_equal ins_court_id) in E2. exact E2.
  - intros d1 d2 v _ _ H1 H2.
    apply in_flat_map in H1, H2.
    destruct H1 as [c1 [_ H1]], H2 as [c2 [_ H2]].
    apply day_slot_date in H1, H2. congruence.
Qed.

(** The grid never repeats a key: on an empty table every insert of the
    generation is accepted. *)
Lemma grid_keys_distinct : NoDup (map draft_key (slot_grid req)).
Proof.
  apply NoDup_map_NoDup_ForallPairs; [|apply NoDup_slot_grid].
  intros v1 v2 H1 H2 E.
  apply (in_slot_grid req duration_positive break_not_negative) in H1, H2.
  destruct H1 as [d1 [c1 [k1 [_ [_ [_ [_ E1]]]]]]].
  destruct H2 as [d2 [c2 [k2 [_ [_ [_ [_ E2]]]]]]].
  subst v1 v2. unfold draft_key, slot_at in *; simpl in E.
  inversion E as [[Hc Hs He]]. rewrite Hs. reflexivity.
Qed.

Lemma keys_free_on_empty_table : forall next,
    keys_free (mk_store [] next) (slot_grid req).
Proof. intros next; unfold keys_free; simpl. apply grid_keys_distinct. Qed.

(** More generally every insert is accepted when no stored slot has the
    court and bounds of a slot of the grid. *)
Lemma keys_free_when_disjoint : forall db,
    keys_unique db ->
    (forall r v, In r (time_slots db) -> In v (slot_grid req) ->
                 slot_key r <> draft_key v) ->
    keys_free db (slot_grid req).
Proof.
  intros db Hk Hdis. unfold keys_free. apply NoDup_app.
  - exact Hk.
  - apply grid_keys_distinct.
  - intros k H1 H2. apply in_map_iff in H1, H2.
    destruct H1 as [r [Er Hr]], H2 as [v [Ev Hv]].
    apply (Hdis r v Hr Hv). congruence.
Qed.

End Distinct.






(** Section 8, property 2: between 09:00 and 12:00 a slot of 90 minutes
    with a break of 15 fits once; the second one would end at 12:15 and is
    not made. *)
Example one_slot_between_nine_and_noon :
  bulk_create_time_slots 2 empty_store
    (mk_bulk 1 [7] (at_ 0 0 0) (at_ 0 0 0) 90 15 (mk_time 9 0) (mk_time 12 0) [])
  = Some (mk_store [mk_slot 1 1 7 (at_ 0 9 0) (at_ 0 10 30) true None] 2,
          inr [mk_slot 1 1 7 (at_ 0 9 0) (at_ 0 10 30) true None]).
Proof. reflexivity. Qed.

(** Without the contract the loop does not walk the window: with a
    duration of 0 and no break the cursor never moves, and the second
    insert of the same slot is refused by the unique key; with a break
    that outweighs the duration the cursor walks backwards and the fuel
    runs out. *)
Example zero_duration_repeats_the_slot :
  bulk_create_time_slots 5 empty_store
    (mk_bulk 1 [7] (at_ 0 0 0) (at_ 0 0 0) 0 0 (mk_time 9 0) (mk_time 12 0) [])
  = Some (mk_store [mk_slot 1 1 7 (at_ 0 9 0) (at_ 0 9 0) true None] 3,
          inl (UniqueViolationError "unique_court_time_slot")).
Proof. reflexivity. Qed.

Example negative_stride_runs_out_of_fuel :
  bulk_create_time_slots 40 empty_store
    (mk_bulk 1 [7] (at_ 0 0 0) (at_ 0 0 0) 10 (-20) (mk_time 9 0) (mk_time 12 0) [])
  = None.
Proof. reflexivity. Qed.



(** Excluding Thursdays (weekday 3) leaves one date of the two. *)
Example excluded_weekday_reduces_D :
  bulk_create_time_slots 2 empty_store
    (mk_bulk 1 [1; 2] (at_ 0 0 0) (at_ 1 23 0) 90 15 (mk_time 9 0) (mk_time 12 0) [3])
  = Some (mk_store [mk_slot 1 1 1 (at_ 1 9 0) (at_ 1 10 30) true None;
                    mk_slot 2 1 2 (at_ 1 9 0) (at_ 1 10 30) true None] 3,
          inr [mk_slot 1 1 1 (at_ 1 9 0) (at_ 1 10 30) true None;
               mk_slot 2 1 2 (at_ 1 9 0) (at_ 1 10 30) true None]).
Proof. reflexivity. Qed.

End GridGenerator.

(** ** The per-court invariant *)

Module NoOverlap.
Import Clock TimeSlots SlotGrid SlotInvariants ConflictChecker SlotAssignment
       SlotCreation Scenarios.

Lemma no_overlap_rows : forall db db',
    time_slots db' = time_slots db ->
    no_overlap_in_tournament db -> no_overlap_in_tournament db'.
Proof.
  intros db db' E H a b Ha Hb. rewrite E in Ha, Hb. apply H; assumption.
Qed.

(** A proposal without conflicts overlaps no stored slot of its
    tournament and court. *)
Lemma no_conflicts_no_overlap : forall db t c s e r,
    check_slot_conflicts db t c s e None = [] ->
    In r (time_slots db) -> tournament_id r = t -> court_id r = c ->
    ~ overlaps (start_time r) (end_time r) s e.
Proof.
  intros db t c s e r Hnone Hr Ht Hc Hov.
  assert (Hin : In r (check_slot_conflicts db t c s e None)).
  { unfold check_slot_conflicts. apply filter_In. split; [exact Hr|].
    apply where_clause_spec. auto. }
  rewrite Hnone in Hin. contradiction.
Qed.

Lemma overlaps_sym : forall a b c d, overlaps a b c d -> overlaps c d a b.
Proof. unfold overlaps; intros; tauto. Qed.

(** X11: the single create keeps the invariant among the slots of a
    tournament, whatever its outcome: it writes only after an empty
    conflict check. *)
Lemma create_keeps_no_overlap : forall db tournament body db' res,
    no_overlap_in_tournament db ->
    create_new_time_slot db tournament body = (db', res) ->
    no_overlap_in_tournament db'.
Proof.
  intros db tournament body db' res Hinv; unfold create_new_time_slot.
  destruct (check_slot_conflicts db tournament (body_court_id body)
              (body_start_time body) (body_end_time body) None) eqn:Hc.
  - unfold create_time_slot. intros Hrun. destruct res as [e|row].
    + apply insert_time_slot_inl in Hrun. apply (no_overlap_rows db); assumption.
    + apply insert_time_slot_inr in Hrun. destruct Hrun as [Hrow [Hdb _]].
      subst db'. intros a b Ha Hb Hid Ht Hct. simpl in Ha, Hb.
      apply in_app_or in Ha. apply in_app_or in Hb.
      destruct Ha as [Ha|[<-|[]]], Hb as [Hb|[<-|[]]].
      * apply Hinv; assumption.
      * subst row; simpl in *.
        apply (no_conflicts_no_overlap db _ _ _ _ a Hc Ha); auto.
      * subst row; simpl in *. intros Hov. apply overlaps_sym in Hov.
        revert Hov. apply (no_conflicts_no_overlap db _ _ _ _ b Hc Hb); auto.
      * congruence.
  - intros Hrun; inversion Hrun; subst; assumption.
Qed.

Lemma excluded_check_complete : forall db t c s e x r,
    In r (time_slots db) -> tournament_id r = t -> court_id r = c ->
    id r <> x -> overlaps (start_time r) (end_time r) s e ->
    In r (check_slot_conflicts db t c s e (Some x)).
Proof.
  intros db t c s e x r Hr Ht Hc Hid Hov. unfold check_slot_conflicts.
  assert (Hq : In r (filter (fun r => (tournament_id r =? t) && (court_id r =? c)
                                      && ((start_time r <? e) && (end_time r >? s)))
                            (time_slots db))).
  { apply filter_In. split; [exact Hr|]. apply where_clause_spec. auto. }
  destruct (truthy (Some x)); [|exact Hq].
  apply filter_In. split; [exact Hq|].
  apply negb_true_iff, Z.eqb_neq. exact Hid.
Qed.

Lemma apply_updates_in_place : forall u r,
    keeps_place u ->
    id (apply_updates u r) = set_field (upd_id u) (id r)
    /\ tournament_id (apply_updates u r) = tournament_id r
    /\ court_id (apply_updates u r) = court_id r
    /\ start_time (apply_updates u r) = set_field (upd_start_time u) (start_time r)
    /\ end_time (apply_updates u r) = set_field (upd_end_time u) (end_time r).
Proof.
  intros u r [Ht Hc]. unfold apply_updates; simpl. rewrite Ht, Hc. simpl. auto.
Qed.

(** The re-timed slot against any other slot of its tournament and
    court: either the bounds were left alone, or the conflict check found
    nothing. *)
Lemma retimed_slot_is_clear : forall db slot_id u existing other,
    no_overlap_in_tournament db -> keeps_place u ->
    In existing (time_slots db) -> id existing = slot_id ->
    (if is_some (upd_start_time u) || is_some (upd_end_time u)
     then check_slot_conflicts db
            (tournament_id existing) (court_id existing)
            (set_field (upd_start_time u) (start_time existing))
            (set_field (upd_end_time u) (end_time existing))
            (Some slot_id)
     else []) = [] ->
    In other (time_slots db) -> id other <> slot_id ->
    tournament_id other = tournament_id existing ->
    court_id other = court_id existing ->
    ~ overlaps (start_time other) (end_time other)
               (start_time (apply_updates u existing))
               (end_time (apply_updates u existing)).
Proof.
  intros db slot_id u existing other Hinv Hplace Hex Hid Hcheck Ho Hne Ht Hc.
  destruct (apply_updates_in_place u existing Hplace) as [_ [_ [_ [Hs He]]]].
  rewrite Hs, He.
  destruct (is_some (upd_start_time u) || is_some (upd_end_time u)) eqn:Htouched.
  - intros Hov.
    assert (Hin : In other (check_slot_conflicts db
                              (tournament_id existing) (court_id existing)
                              (set_field (upd_start_time u) (start_time existing))
                              (set_field (upd_end_time u) (end_time existing))
                              (Some slot_id))).
    { apply excluded_check_complete; auto. }
    rewrite Hcheck in Hin. contradiction.
  - apply orb_false_iff in Htouched. destruct Htouched as [H1 H2].
    destruct (upd_start_time u); [discriminate|].
    destruct (upd_end_time u); [discriminate|]. simpl.
    apply Hinv; auto. congruence.
Qed.

(** X12: on a table that satisfies its primary key, the update keeps the
    invariant among the slots of a tournament, whatever its outcome and
    whatever it does to the identifier, as long as it leaves the slot on its
    court and in its tournament: new bounds are written only after an empty
    conflict check. *)
Lemma update_keeps_no_overlap : forall db slot_id u db' res,
    primary_key db -> no_overlap_in_tournament db -> keeps_place u ->
    update_time_slot_info db slot_id u = (db', res) ->
    no_overlap_in_tournament db'.
Proof.
  intros db slot_id u db' res Hnd Hinv Hplace; unfold update_time_slot_info.
  destruct (get_time_slot_by_id db slot_id) as [existing|] eqn:Hget;
    [|intros H; inversion H; subst; assumption].
  pose proof Hget as Hget'. unfold get_time_slot_by_id in Hget'.
  apply find_id_In in Hget'. destruct Hget' as [Hex Hid].
  destruct (if is_some (upd_start_time u) || is_some (upd_end_time u)
            then _ else _) eqn:Hcheck;
    [|intros H; inversion H; subst; assumption].
  unfold update_time_slot. unfold get_time_slot_by_id in Hget. rewrite Hget.
  destruct (no_values u); [intros H; inversion H; subst; assumption|].
  destruct (existsb _ _) eqn:Hpk; [intros H; inversion H; subst; assumption|].
  clear Hpk.
  destruct (existsb _ _); intros H; inversion H; subst; clear H;
    [assumption|].
  intros a' b' Ha' Hb' Hne Ht Hc. simpl in Ha', Hb'.
  apply in_map_iff in Ha'. destruct Ha' as [a [Ea Ha]].
  apply in_map_iff in Hb'. destruct Hb' as [b [Eb Hb]].
  assert (Hsame : forall o, In o (time_slots db) -> id o = id existing -> o = existing).
  { intros o Ho Hio. apply (NoDup_map_inj _ _ id (time_slots db)); auto. }
  destruct (apply_updates_in_place u existing Hplace) as [_ [Ut [Uc _]]].
  destruct (id a =? id existing) eqn:Eia, (id b =? id existing) eqn:Eib.
  - apply Z.eqb_eq in Eia, Eib. subst a' b'.
    rewrite (Hsame a Ha Eia), (Hsame b Hb Eib) in Hne. congruence.
  - apply Z.eqb_eq in Eia. apply Z.eqb_neq in Eib.
    rewrite (Hsame a Ha Eia) in Ea. subst a' b'.
    intros Hov. apply overlaps_sym in Hov. revert Hov.
    apply (retimed_slot_is_clear db (id existing) u existing b); auto; congruence.
  - apply Z.eqb_neq in Eia. apply Z.eqb_eq in Eib.
    rewrite (Hsame b Hb Eib) in Eb. subst a' b'.
    apply (retimed_slot_is_clear db (id existing) u existing a); auto; congruence.
  - subst a' b'. apply Hinv; assumption.
Qed.

(** C6, at the input where it fails: [bulk_create_time_slots] writes
    without a conflict check.  After the single create of [09:00, 10:00) on
    court 7, the generation of half-hour slots on that court is accepted,
    and the store it reaches holds overlapping slots of one court: the
    per-court invariant does not hold in every reachable store. *)
Theorem bulk_generation_overlaps_stored_slot :
  let hour := mk_slot 1 1 7 (at_ 0 9 0) (at_ 0 10 0) true None in
  let first_half := mk_slot 2 1 7 (at_ 0 9 0) (at_ 0 9 30) true None in
  let second_half := mk_slot 3 1 7 (at_ 0 9 30) (at_ 0 10 0) true None in
  create_new_time_slot empty_store 1 (mk_body 7 (at_ 0 9 0) (at_ 0 10 0) true)
  = (mk_store [hour] 2, inr hour)
  /\ no_overlap (mk_store [hour] 2)
  /\ create_time_slots_bulk 3 (mk_store [hour] 2) 1 half_hours_on_court_7
     = Some (mk_store [hour; first_half; second_half] 4,
             inr (2%nat, [first_half; second_half]))
  /\ reachable (mk_store [hour; first_half; second_half] 4)
  /\ ~ no_overlap (mk_store [hour; first_half; second_half] 4).
Proof.
  intros hour first_half second_half.
  assert (Hcreate : create_new_time_slot empty_store 1
                      (mk_body 7 (at_ 0 9 0) (at_ 0 10 0) true)
                    = (mk_store [hour] 2, inr hour)) by reflexivity.
  assert (Hbulk : create_time_slots_bulk 3 (mk_store [hour] 2) 1 half_hours_on_court_7
                  = Some (mk_store [hour; first_half; second_half] 4,
                          inr (2%nat, [first_half; second_half]))) by reflexivity.
  split; [exact Hcreate|]. split; [|split; [exact Hbulk|split]].
  - intros a b [<-|[]] [<-|[]] Hid. congruence.
  - eapply reach_bulk; [|exact Hbulk].
    eapply reach_create; [apply reach_empty | exact Hcreate].
  - intros H. apply (H hour first_half).
    + left; reflexivity.
    + right; left; reflexivity.
    + simpl; lia.
    + reflexivity.
    + unfold overlaps; vm_compute. split; reflexivity.
Qed.

(** The conflict check is scoped to a tournament and to the court the slot
    had: a create for another tournament on the same court, and an update
    that only moves the slot to another court, are written unchecked. *)
Example create_in_other_tournament :
  let db := mk_store [mk_slot 1 1 7 (at_ 0 9 0) (at_ 0 10 0) true None] 2 in
  create_new_time_slot db 2 (mk_body 7 (at_ 0 9 30) (at_ 0 10 30) true)
  = (mk_store [mk_slot 1 1 7 (at_ 0 9 0) (at_ 0 10 0) true None;
               mk_slot 2 2 7 (at_ 0 9 30) (at_ 0 10 30) true None] 3,
     inr (mk_slot 2 2 7 (at_ 0 9 30) (at_ 0 10 30) true None)).
Proof. reflexivity. Qed.

Example update_moves_court_unchecked :
  let db := mk_store [mk_slot 1 1 7 (at_ 0 9 0) (at_ 0 10 0) true None;
                      mk_slot 2 1 8 (at_ 0 9 30) (at_ 0 10 30) true None] 3 in
  update_time_slot_info db 2 (mk_updates None None (Some 7) None None None None)
  = (mk_store [mk_slot 1 1 7 (at_ 0 9 0) (at_ 0 10 0) true None;
               mk_slot 2 1 7 (at_ 0 9 30) (at_ 0 10 30) true None] 3,
     inr (Some (mk_slot 2 1 7 (at_ 0 9 30) (at_ 0 10 30) true None))).
Proof. reflexivity. Qed.

End NoOverlap.

(** ** The constraints of the table, kept by the write routes *)

Module TableConstraints.
Import Clock TimeSlots SlotGrid SlotInvariants ConflictChecker SlotAssignment
       SlotCreation.

Lemma insert_keeps_keys : forall db v db' res,
    keys_unique db -> insert_time_slot db v = (db', res) -> keys_unique db'.
Proof.
  intros db v db' res Hk; unfold insert_time_slot, keys_unique in *.
  destruct (existsb _ _) eqn:E; intros H; inversion H; subst; clear H; simpl;
    [exact Hk|].
  rewrite map_app. apply NoDup_app; [exact Hk | repeat constructor; simpl; tauto|].
  intros k Hin [<-|[]]. apply in_map_iff in Hin. destruct Hin as [r [Hr Hin]].
  assert (existsb (same_key (ins_court_id v) (ins_start_time v) (ins_end_time v))
                  (time_slots db) = true); [|congruence].
  apply existsb_exists. exists r. split; [exact Hin|].
  apply same_key_spec. exact Hr.
Qed.

Lemma insert_keeps_constraints : forall db v db' res,
    constraints_hold db -> insert_time_slot db v = (db', res) -> constraints_hold db'.
Proof.
  intros db v db' res [Hi Hk] H. split.
  - apply (insert_keeps_ids db v db' res); assumption.
  - apply (insert_keeps_keys db v db' res); assumption.
Qed.

Lemma slots_loop_keeps : forall fuel req court c close db created db' res,
    constraints_hold db ->
    slots_loop fuel req court c close db created = Some (db', res) ->
    constraints_hold db'.
Proof.
  induction fuel as [|fuel IH]; intros req court c close db created db' res Hc;
    simpl; [discriminate|].
  destruct (c <? close); [|intros H; inversion H; subst; exact Hc].
  destruct (_ >? close); [intros H; inversion H; subst; exact Hc|].
  destruct (insert_time_slot db _) as [db1 [e|row]] eqn:Hins.
  - intros H; inversion H; subst.
    apply (insert_keeps_constraints _ _ _ _ Hc Hins).
  - apply IH. apply (insert_keeps_constraints _ _ _ _ Hc Hins).
Qed.

Lemma courts_loop_keeps : forall fuel req d courts db created db' res,
    constraints_hold db ->
    courts_loop fuel req d courts db created = Some (db', res) ->
    constraints_hold db'.
Proof.
  intros fuel req d courts; induction courts as [|court courts IH];
    intros db created db' res Hc; simpl.
  - intros H; inversion H; subst; exact Hc.
  - destruct (slots_loop _ _ _ _ _ _ _) as [[db1 [e|created1]]|] eqn:Hloop;
      [| |discriminate].
    + intros H; inversion H; subst. apply (slots_loop_keeps _ _ _ _ _ _ _ _ _ Hc Hloop).
    + apply IH. apply (slots_loop_keeps _ _ _ _ _ _ _ _ _ Hc Hloop).
Qed.

Lemma days_loop_keeps : forall n fuel req d db created db' res,
    constraints_hold db ->
    days_loop n fuel req d db created = Some (db', res) ->
    constraints_hold db'.
Proof.
  induction n as [|n IH]; intros fuel req d db created db' res Hc; simpl.
  - intros H; inversion H; subst; exact Hc.
  - destruct (existsb _ _); [apply IH; exact Hc|].
    destruct (courts_loop _ _ _ _ _ _) as [[db1 [e|created1]]|] eqn:Hloop;
      [| |discriminate].
    + intros H; inversion H; subst. apply (courts_loop_keeps _ _ _ _ _ _ _ _ Hc Hloop).
    + apply IH. apply (courts_loop_keeps _ _ _ _ _ _ _ _ Hc Hloop).
Qed.

Lemma NoDup_map_filter : forall (A B : Type) (f : A -> B) (p : A -> bool) (l : list A),
    NoDup (map f l) -> NoDup (map f (filter p l)).
Proof.
  intros A B f p l; induction l as [|a l IH]; simpl; intros H; [constructor|].
  inversion H as [|? ? Ha Hl]; subst.
  destruct (p a); simpl; [constructor|]; auto.
  intros Hin. apply Ha. apply in_map_iff in Hin. destruct Hin as [x [E Hx]].
  apply filter_In in Hx. rewrite <- E. apply in_map. tauto.
Qed.

Lemma delete_keeps : forall db slot_id,
    constraints_hold db -> constraints_hold (fst (delete_time_slot db slot_id)).
Proof.
  intros db slot_id [[H1 [Hb Hnd]] Hk]. unfold delete_time_slot; simpl.
  repeat split; simpl.
  - exact H1.
  - rewrite Forall_forall in *. intros r Hr. apply filter_In in Hr. apply Hb; tauto.
  - apply NoDup_map_filter; exact Hnd.
  - unfold keys_unique; simpl. apply NoDup_map_filter; exact Hk.
Qed.

Lemma fixed_dict_names_no_id : forall db u,
    upd_id u = None -> names_issued_id db u.
Proof. intros db u E x Hx. congruence. Qed.

(** Rewriting the one row with a given id keeps a column (or a tuple of
    columns) free of duplicates when the new value is met nowhere else. *)
Lemma replace_keeps_unique :
  forall (B : Type) (f : TimeSlot -> B) (g : TimeSlot -> TimeSlot) slot_id rows,
    NoDup (map id rows) -> NoDup (map f rows) ->
    (forall o x, In o rows -> id o <> slot_id -> In x rows -> id x = slot_id ->
                 f o <> f (g x)) ->
    NoDup (map f (map (fun o => if id o =? slot_id then g o else o) rows)).
Proof.
  intros B f g slot_id rows; induction rows as [|a rows IH]; simpl;
    intros Hid Hk Hnew; [constructor|].
  inversion Hid as [|? ? Hia Hil]; subst. inversion Hk as [|? ? Hka Hkl]; subst.
  constructor.
  - intros Hin. apply in_map_iff in Hin. destruct Hin as [y [Ey Hy]].
    apply in_map_iff in Hy. destruct Hy as [o [Eo Ho]].
    destruct (id a =? slot_id) eqn:Ea, (id o =? slot_id) eqn:Eo'; subst y.
    + apply Z.eqb_eq in Ea, Eo'. apply Hia. apply in_map_iff.
      exists o. split; [congruence | exact Ho].
    + apply Z.eqb_eq in Ea. apply Z.eqb_neq in Eo'.
      apply (Hnew o a); simpl; auto.
    + apply Z.eqb_neq in Ea. apply Z.eqb_eq in Eo'.
      apply (Hnew a o); simpl; auto.
    + apply Hka. rewrite <- Ey. apply in_map. exact Ho.
  - apply IH; [exact Hil | exact Hkl |].
    intros o x Ho Hio Hx Hix. apply Hnew; simpl; auto.
Qed.

Lemma update_keeps : forall db slot_id u db' res,
    constraints_hold db -> names_issued_id db u ->
    update_time_slot db slot_id u = (db', res) ->
    constraints_hold db'.
Proof.
  intros db slot_id u db' res [[H1 [Hb Hnd]] Hk] Hu; unfold update_time_slot.
  destruct (no_values u); [intros H; inversion H; subst; repeat split; assumption|].
  destruct (find _ _) as [r|] eqn:Hf;
    [|intros H; inversion H; subst; repeat split; assumption].
  destruct (existsb (fun o => negb (id o =? slot_id) && (id o =? id (apply_updates u r)))
                    (time_slots db)) eqn:Hpk;
    [intros H; inversion H; subst; repeat split; assumption|].
  destruct (existsb (fun o => negb (id o =? slot_id)
                              && same_key (court_id (apply_updates u r))
                                          (start_time (apply_updates u r))
                                          (end_time (apply_updates u r)) o)
                    (time_slots db)) eqn:Hex;
    intros H; inversion H; subst db'; clear H;
    [repeat split; assumption|].
  apply find_id_In in Hf. destruct Hf as [Hr Hir].
  assert (Hsame : forall x, In x (time_slots db) -> id x = slot_id -> x = r).
  { intros x Hx Hix. apply (NoDup_map_inj _ _ id (time_slots db)); auto. congruence. }
  repeat split; simpl.
  - exact H1.
  - rewrite Forall_forall in *. intros o' Ho'. apply in_map_iff in Ho'.
    destruct Ho' as [o [E Ho]]. specialize (Hb o Ho).
    destruct (id o =? slot_id); subst o'; [|exact Hb].
    unfold apply_updates; simpl. unfold names_issued_id in Hu.
    destruct (upd_id u) as [x|]; simpl; [apply Hu; reflexivity | exact Hb].
  - apply replace_keeps_unique; auto.
    intros o x Ho Hio Hx Hix Hkey. rewrite (Hsame x Hx Hix) in Hkey.
    assert (existsb (fun o => negb (id o =? slot_id)
                              && (id o =? id (apply_updates u r)))
                    (time_slots db) = true); [|congruence].
    apply existsb_exists. exists o. split; [exact Ho|].
    apply andb_true_iff. split.
    + apply negb_true_iff, Z.eqb_neq. exact Hio.
    + apply Z.eqb_eq. exact Hkey.
  - unfold keys_unique; simpl. apply replace_keeps_unique; auto.
    intros o x Ho Hio Hx Hix Hkey. rewrite (Hsame x Hx Hix) in Hkey.
    assert (existsb (fun o => negb (id o =? slot_id)
                              && same_key (court_id (apply_updates u r))
                                          (start_time (apply_updates u r))
                                          (end_time (apply_updates u r)) o)
                    (time_slots db) = true); [|congruence].
    apply existsb_exists. exists o. split; [exact Ho|].
    apply andb_true_iff. split.
    + apply negb_true_iff, Z.eqb_neq. exact Hio.
    + apply same_key_spec. exact Hkey.
Qed.

(** X13: each write route takes a table that satisfies its primary key
    with identifiers from the sequence, and its unique key, to a table that
    does, whatever the outcome; for the update this holds when the [id] it
    names, if any, is a value the sequence has handed out.  The update
    [{id: 0}] leaves these tables. *)
Lemma routes_keep_constraints : forall db,
    constraints_hold db ->
    (forall tournament body db' res,
        create_new_time_slot db tournament body = (db', res) -> constraints_hold db')
    /\ (forall fuel tournament req db' res,
           create_time_slots_bulk fuel db tournament req = Some (db', res) ->
           constraints_hold db')
    /\ (forall slot_id updates db' res,
           names_issued_id db updates ->
           update_time_slot_info db slot_id updates = (db', res) ->
           constraints_hold db')
    /\ (forall slot_id db' res,
           delete_time_slot_by_id db slot_id = (db', res) -> constraints_hold db')
    /\ (forall slot_id m db' res,
           assign_match_to_time_slot db slot_id m = (db', res) -> constraints_hold db')
    /\ (forall slot_id db' res,
           release_time_slot db slot_id = (db', res) -> constraints_hold db')
    /\ ~ constraints_hold
           (fst (update_time_slot_info one_slot_store 1
                   (mk_updates (Some 0) None None None None None None))).
Proof.
  intros db IH. split; [|split; [|split; [|split; [|split; [|split]]]]].
  - intros tournament body db' res Hrun.
    unfold create_new_time_slot in Hrun.
    destruct (check_slot_conflicts _ _ _ _ _ _);
      [|inversion Hrun; subst; exact IH].
    apply (insert_keeps_constraints _ _ _ _ IH Hrun).
  - intros fuel tournament req db' res Hrun.
    unfold create_time_slots_bulk, bulk_create_time_slots in Hrun.
    destruct (days_loop _ _ _ _ _ _) as [[db1 [e|created]]|] eqn:Hloop;
      inversion Hrun; subst;
      apply (days_loop_keeps _ _ _ _ _ _ _ _ IH Hloop).
  - intros slot_id updates db' res Hu Hrun.
    unfold update_time_slot_info in Hrun.
    destruct (get_time_slot_by_id db slot_id); [|inversion Hrun; subst; exact IH].
    destruct (is_some (upd_start_time updates) || is_some (upd_end_time updates)).
    + destruct (check_slot_conflicts _ _ _ _ _ _);
        [|inversion Hrun; subst; exact IH].
      apply (update_keeps _ _ _ _ _ IH Hu Hrun).
    + apply (update_keeps _ _ _ _ _ IH Hu Hrun).
  - intros slot_id db' res Hrun.
    unfold delete_time_slot_by_id in Hrun.
    destruct (get_time_slot_by_id db slot_id) as [slot|];
      [|inversion Hrun; subst; exact IH].
    destruct (truthy (match_id slot)); [inversion Hrun; subst; exact IH|].
    pose proof (delete_keeps db slot_id IH) as Hdel.
    destruct (delete_time_slot db slot_id) as [db1 [e|deleted]]; simpl in Hdel;
      [|destruct deleted]; inversion Hrun; subst; exact Hdel.
  - intros slot_id m db' res Hrun.
    unfold assign_match_to_time_slot in Hrun.
    destruct (get_time_slot_by_id db slot_id) as [slot|];
      [|inversion Hrun; subst; exact IH].
    destruct (negb (is_available slot)); [inversion Hrun; subst; exact IH|].
    destruct (truthy (match_id slot)); [inversion Hrun; subst; exact IH|].
    refine (update_keeps _ _ _ _ _ IH _ Hrun).
    apply fixed_dict_names_no_id. reflexivity.
  - intros slot_id db' res Hrun.
    unfold release_time_slot in Hrun.
    destruct (get_time_slot_by_id db slot_id) as [slot|];
      [|inversion Hrun; subst; exact IH].
    destruct (negb (truthy (match_id slot))); [inversion Hrun; subst; exact IH|].
    refine (update_keeps _ _ _ _ _ IH _ Hrun).
    apply fixed_dict_names_no_id. reflexivity.
  - intros [[_ [Hb _]] _]. simpl in Hb. inversion Hb as [|? ? H0 _]; subst.
    simpl in H0. lia.
Qed.

End TableConstraints.

(** ** Deleting a slot *)

Module SlotDeletion.
Import Clock TimeSlots SlotGrid SlotInvariants ConflictChecker SlotAssignment.

Lemma find_id_filtered : forall rows slot_id,
    find (fun r => id r =? slot_id)
         (filter (fun r => negb (id r =? slot_id)) rows) = None.
Proof.
  intros rows slot_id. apply find_id_fresh.
  intros r Hr. apply filter_In in Hr. destruct Hr as [_ Hr].
  apply negb_true_iff, Z.eqb_neq in Hr. exact Hr.
Qed.

(** X1: [delete_time_slot_by_id] answers 404 for an unknown slot and 400
    for a slot whose [match_id] is a non-zero id, both without touching the
    store; otherwise it removes the rows with that id and nothing else, the
    slot can no longer be fetched, and the call ends in the [TypeError] of
    [delete_time_slot], where [result > 0] compares the [None] of
    [database.execute] with a number.  The route never answers with its
    success response nor with its own 500. *)
Theorem delete_slot_outcomes :
  forall db slot_id,
    (get_time_slot_by_id db slot_id = None ->
     delete_time_slot_by_id db slot_id
     = (db, inl (HTTPException HTTP_404_NOT_FOUND (slot_not_found slot_id))))
    /\ (forall slot m,
           get_time_slot_by_id db slot_id = Some slot ->
           match_id slot = Some m -> m <> 0 ->
           delete_time_slot_by_id db slot_id
           = (db, inl (HTTPException HTTP_400_BAD_REQUEST slot_delete_with_match)))
    /\ (forall slot,
           get_time_slot_by_id db slot_id = Some slot ->
           match_id slot = None \/ match_id slot = Some 0 ->
           let db' := mk_store (filter (fun r => negb (id r =? slot_id)) (time_slots db))
                               (time_slots_id_seq db) in
           delete_time_slot_by_id db slot_id = (db', inl TypeError)
           /\ classify TypeError = Internal
           /\ get_time_slot_by_id db' slot_id = None
           /\ (forall r, In r (time_slots db') <->
                         In r (time_slots db) /\ id r <> slot_id))
    /\ (forall db' res,
           delete_time_slot_by_id db slot_id = (db', res) ->
           res <> inr tt
           /\ res <> inl (HTTPException HTTP_500_INTERNAL_SERVER_ERROR
                                        slot_delete_failed)).
Proof.
  intros db slot_id. split; [|split; [|split]].
  - intros Hnone. unfold delete_time_slot_by_id. rewrite Hnone. reflexivity.
  - intros slot m Hget Hm Hnz. unfold delete_time_slot_by_id. rewrite Hget.
    assert (Ht : truthy (match_id slot) = true).
    { apply truthy_true. exists m. auto. }
    rewrite Ht. reflexivity.
  - intros slot Hget Hfree db'. split; [|split; [|split]].
    + unfold delete_time_slot_by_id. rewrite Hget.
      assert (Ht : truthy (match_id slot) = false) by (apply truthy_false; exact Hfree).
      rewrite Ht. reflexivity.
    + reflexivity.
    + unfold get_time_slot_by_id, db'; simpl. apply find_id_filtered.
    + intros r. unfold db'; simpl. rewrite filter_In, negb_true_iff, Z.eqb_neq.
      tauto.
  - intros db' res. unfold delete_time_slot_by_id.
    destruct (get_time_slot_by_id db slot_id) as [slot|] eqn:Hget.
    + destruct (truthy (match_id slot)).
      * intros H; inversion H; subst. split; discriminate.
      * unfold delete_time_slot. intros H; inversion H; subst. split; discriminate.
    + intros H; inversion H; subst. split; discriminate.
Qed.

(** X2: once [release_time_slot] has succeeded on a slot, deleting that
    slot passes the guards of the route: the rows with its id are removed,
    and the call ends in the [TypeError] of [delete_time_slot]. *)
Theorem release_then_delete :
  forall db slot_id db' released_slot,
    release_time_slot db slot_id = (db', inr released_slot) ->
    delete_time_slot_by_id db' slot_id
    = (mk_store (filter (fun r => negb (id r =? slot_id)) (time_slots db'))
                (time_slots_id_seq db'),
       inl TypeError).
Proof.
  intros db slot_id db' released_slot. unfold release_time_slot.
  destruct (get_time_slot_by_id db slot_id) as [slot|] eqn:Hget; [|discriminate].
  destruct (negb (truthy (match_id slot))); [discriminate|].
  unfold release_slot, update_time_slot.
  unfold get_time_slot_by_id in Hget. rewrite Hget. simpl no_values. cbv iota.
  destruct (existsb _ _); [discriminate|].
  destruct (existsb _ _); [discriminate|].
  intros H; inversion H; subst db'; clear H.
  set (u := mk_updates None None None None None (Some true) (Some None)).
  assert (Hget' : get_time_slot_by_id
                    (mk_store (map (fun o => if id o =? slot_id
                                             then apply_updates u o else o)
                                   (time_slots db)) (time_slots_id_seq db)) slot_id
                  = Some (apply_updates u slot)).
  { unfold get_time_slot_by_id; simpl.
    apply (find_id_map (apply_updates u)); [reflexivity | exact Hget]. }
  unfold delete_time_slot_by_id. rewrite Hget'. simpl truthy. cbv iota.
  reflexivity.
Qed.

Lemma release_then_delete_witness :
  let held := mk_slot 1 1 7 (at_ 0 10 0) (at_ 0 11 0) false (Some 5) in
  let free := mk_slot 1 1 7 (at_ 0 10 0) (at_ 0 11 0) true None in
  let next := mk_slot 2 1 7 (at_ 0 11 0) (at_ 0 12 0) true None in
  release_time_slot (mk_store [held; next] 3) 1
  = (mk_store [free; next] 3, inr (Some free))
  /\ delete_time_slot_by_id (mk_store [free; next] 3) 1
     = (mk_store [next] 3, inl TypeError).
Proof.
  intros held free next.
  assert (H : release_time_slot (mk_store [held; next] 3) 1
              = (mk_store [free; next] 3, inr (Some free))) by reflexivity.
  split; [exact H|].
  exact (release_then_delete (mk_store [held; next] 3) 1
                             (mk_store [free; next] 3) (Some free) H).
Defined.

(** Section 8, property 9: a slot holding match 5 cannot be deleted. *)
Example delete_with_match_is_refused :
  delete_time_slot_by_id
    (mk_store [mk_slot 1 1 7 (at_ 0 10 0) (at_ 0 11 0) false (Some 5)] 2) 1
  = (mk_store [mk_slot 1 1 7 (at_ 0 10 0) (at_ 0 11 0) false (Some 5)] 2,
     inl (HTTPException HTTP_400_BAD_REQUEST slot_delete_with_match)).
Proof. reflexivity. Qed.

End SlotDeletion.

(** ** Listing queries *)

Module SlotListing.
Import Clock TimeSlots SlotGrid SlotInvariants ConflictChecker SlotAssignment.

Section OrderBy.
Context {A : Type}.
Variable leb : A -> A -> bool.

Lemma insert_by_perm : forall x l, Permutation (insert_by leb x l) (x :: l).
Proof.
  intros x l; induction l as [|y l IH]; simpl; [reflexivity|].
  destruct (leb x y); [reflexivity|].
  rewrite IH. apply perm_swap.
Qed.

Lemma order_by_perm : forall l, Permutation (order_by leb l) l.
Proof.
  induction l as [|x l IH]; simpl; [reflexivity|].
  rewrite insert_by_perm. constructor. exact IH.
Qed.

Lemma order_by_In : forall l x, In x (order_by leb l) <-> In x l.
Proof.
  intros l x. split; apply Permutation_in;
    [apply order_by_perm | symmetry; apply order_by_perm].
Qed.

Hypothesis leb_total : forall a b, leb a b = true \/ leb b a = true.
Hypothesis leb_trans : forall a b c, leb a b = true -> leb b c = true -> leb a c = true.

Lemma insert_by_sorted : forall x l,
    StronglySorted (fun a b => leb a b = true) l ->
    StronglySorted (fun a b => leb a b = true) (insert_by leb x l).
Proof.
  intros x l H; induction H as [|y l Hs IH Hall]; simpl.
  - repeat constructor.
  - destruct (leb x y) eqn:E.
    + constructor; [constructor; assumption|].
      constructor; [exact E|].
      rewrite Forall_forall in *. intros z Hz. apply (leb_trans x y z); auto.
    + constructor; [exact IH|].
      rewrite Forall_forall in *. intros z Hz.
      apply (Permutation_in _ (insert_by_perm x l)) in Hz.
      destruct Hz as [<-|Hz]; [|auto].
      destruct (leb_total x y); congruence.
Qed.

Lemma order_by_sorted : forall l,
    StronglySorted (fun a b => leb a b = true) (order_by leb l).
Proof.
  induction l as [|x l IH]; simpl; [constructor|].
  apply insert_by_sorted. exact IH.
Qed.

End OrderBy.

Lemma by_start_then_court_spec : forall a b,
    by_start_then_court a b = true
    <-> start_time a < start_time b
        \/ (start_time a = start_time b /\ court_id a <= court_id b).
Proof.
  intros a b; unfold by_start_then_court.
  rewrite orb_true_iff, andb_true_iff, Z.ltb_lt, Z.eqb_eq, Z.leb_le. tauto.
Qed.

Lemma StronglySorted_impl : forall (A : Type) (R S : A -> A -> Prop) (l : list A),
    (forall a b, R a b -> S a b) -> StronglySorted R l -> StronglySorted S l.
Proof.
  intros A R S l H Hs; induction Hs as [|x l Hs IH Hall]; constructor; auto.
  apply (Forall_impl _ (H x)). exact Hall.
Qed.

(** The bounds of the day of [d] hold a start exactly when it falls on
    the date of [d]. *)
Lemma within_day : forall start d,
    (start >=? start_of_day d) && (start <=? end_of_day d) = true
    <-> date_of start = date_of d.
Proof.
  intros start d. unfold start_of_day, end_of_day, date_of, timedelta_days.
  rewrite andb_true_iff, Z.geb_leb, !Z.leb_le.
  unfold MICROSECONDS_PER_DAY. set (q := d / 86400000000).
  pose proof (Z.div_mod start 86400000000 ltac:(lia)) as Hdm.
  pose proof (Z.mod_pos_bound start 86400000000 ltac:(lia)) as Hb.
  split.
  - intros [H1 H2]. symmetry.
    apply (Z.div_unique_pos start 86400000000 q (start - q * 86400000000)); lia.
  - intros E. rewrite E in Hdm. lia.
Qed.

Lemma optional_court_filter : forall (court : option Z) (l : list TimeSlot) r,
    In r (match court with
          | Some c => if truthy (Some c) then filter (fun r => court_id r =? c) l else l
          | None => l
          end)
    <-> In r l /\ (forall c, court = Some c -> c <> 0 -> court_id r = c).
Proof.
  intros [c|] l r.
  - destruct (truthy (Some c)) eqn:Ht.
    + rewrite filter_In, Z.eqb_eq. split.
      * intros [H E]. split; [exact H|]. intros c' Hc _. congruence.
      * intros [H E]. split; [exact H|]. apply E; [reflexivity|].
        apply truthy_true in Ht. destruct Ht as [n [En Hn]]. congruence.
    + apply truthy_false in Ht. destruct Ht as [Ht|Ht]; [discriminate|].
      inversion Ht; subst c. split; [|tauto].
      intros H. split; [exact H|]. intros c' Hc Hnz. congruence.
  - split; [|tauto]. intros H. split; [exact H|]. discriminate.
Qed.

Lemma filter_twice : forall (A : Type) (f g : A -> bool) (l : list A),
    filter f (filter g l) = filter (fun x => g x && f x) l.
Proof.
  intros A f g l; induction l as [|x l IH]; simpl; [reflexivity|].
  destruct (g x); simpl; [destruct (f x)|]; rewrite IH; reflexivity.
Qed.

(** X3: [get_time_slots_for_tournament] returns the slots of the
    tournament that pass the optional filters, each as often as the table
    holds it: the court filter applies for a non-zero court id, the date
    filter keeps the slots that start on the date of [date], and
    [only_available] keeps the available ones. *)
Theorem listing_selects :
  forall db tournament court date' only,
    (forall r,
        In r (get_time_slots_for_tournament db tournament court date' only) <->
        In r (time_slots db) /\ tournament_id r = tournament
        /\ (forall c, court = Some c -> c <> 0 -> court_id r = c)
        /\ (forall d, date' = Some d -> date_of (start_time r) = date_of d)
        /\ (only = true -> is_available r = true))
    /\ exists keep,
        Permutation (get_time_slots_for_tournament db tournament court date' only)
                    (filter keep (time_slots db)).
Proof.
  intros db tournament court date' only. split.
  - intros r. unfold get_time_slots_for_tournament. rewrite order_by_In.
    assert (Honly : forall l,
               In r (if only then filter (fun r => Bool.eqb (is_available r) true) l
                     else l)
               <-> In r l /\ (only = true -> is_available r = true)).
    { intros l. destruct only.
      - rewrite filter_In, eqb_true_iff. tauto.
      - split; [|tauto]. intros H. split; [exact H | discriminate]. }
    assert (Hdate : forall l,
               In r (match date' with
                     | Some d => filter (fun r => (start_time r >=? start_of_day d)
                                                  && (start_time r <=? end_of_day d)) l
                     | None => l
                     end)
               <-> In r l
                   /\ (forall d, date' = Some d -> date_of (start_time r) = date_of d)).
    { intros l. destruct date' as [d|].
      - rewrite filter_In, within_day. split.
        + intros [H E]. split; [exact H|]. intros d' Hd. congruence.
        + intros [H E]. split; [exact H|]. apply E. reflexivity.
      - split; [|tauto]. intros H. split; [exact H | discriminate]. }
    rewrite Honly, Hdate, optional_court_filter, filter_In, Z.eqb_eq. tauto.
  - unfold get_time_slots_for_tournament.
    set (q1 := filter (fun r => tournament_id r =? tournament) (time_slots db)).
    assert (H2 : exists k, (match court with
                            | Some c => if truthy (Some c)
                                        then filter (fun r => court_id r =? c) q1
                                        else q1
                            | None => q1
                            end) = filter k (time_slots db)).
    { unfold q1. destruct court as [c|]; [destruct (truthy (Some c))|].
      - eexists. rewrite filter_twice. reflexivity.
      - eexists. reflexivity.
      - eexists. reflexivity. }
    destruct H2 as [k2 ->].
    assert (H3 : exists k, (match date' with
                            | Some d =>
                                filter (fun r => (start_time r >=? start_of_day d)
                                                 && (start_time r <=? end_of_day d))
                                       (filter k2 (time_slots db))
                            | None => filter k2 (time_slots db)
                            end) = filter k (time_slots db)).
    { destruct date' as [d|].
      - eexists. rewrite filter_twice. reflexivity.
      - eexists. reflexivity. }
    destruct H3 as [k3 ->].
    destruct only.
    + eexists. rewrite order_by_perm, filter_twice. reflexivity.
    + exists k3. apply order_by_perm.
Qed.

Lemma by_start_then_court_total : forall a b,
    by_start_then_court a b = true \/ by_start_then_court b a = true.
Proof. intros a b. rewrite !by_start_then_court_spec. lia. Qed.

Lemma by_start_then_court_trans : forall a b c,
    by_start_then_court a b = true -> by_start_then_court b c = true ->
    by_start_then_court a c = true.
Proof. intros a b c. rewrite !by_start_then_court_spec. lia. Qed.

(** X4: the list of [get_time_slots_for_tournament] is ordered by start
    time and, among equal starts, by court id: every slot stands before
    all the slots that come later in that order. *)
Theorem listing_is_ordered :
  forall db tournament court date' only,
    StronglySorted
      (fun a b => start_time a < start_time b
                  \/ (start_time a = start_time b /\ court_id a <= court_id b))
      (get_time_slots_for_tournament db tournament court date' only).
Proof.
  intros db tournament court date' only. unfold get_time_slots_for_tournament.
  apply (StronglySorted_impl _ (fun a b => by_start_then_court a b = true)).
  - intros a b. apply by_start_then_court_spec.
  - apply order_by_sorted.
    + apply by_start_then_court_total.
    + apply by_start_then_court_trans.
Qed.

Example listing_orders_two_courts :
  get_time_slots_for_tournament
    (mk_store [mk_slot 1 1 8 (at_ 0 10 0) (at_ 0 11 0) true None;
               mk_slot 2 1 7 (at_ 0 10 0) (at_ 0 11 0) false (Some 5);
               mk_slot 3 1 7 (at_ 0 9 0) (at_ 0 10 0) true None;
               mk_slot 4 2 7 (at_ 0 8 0) (at_ 0 9 0) true None;
               mk_slot 5 1 7 (at_ 1 9 0) (at_ 1 10 0) true None] 6)
    1 None (Some (at_ 0 15 30)) false
  = [mk_slot 3 1 7 (at_ 0 9 0) (at_ 0 10 0) true None;
     mk_slot 2 1 7 (at_ 0 10 0) (at_ 0 11 0) false (Some 5);
     mk_slot 1 1 8 (at_ 0 10 0) (at_ 0 11 0) true None].
Proof. reflexivity. Qed.

Lemma by_start_total : forall a b, by_start a b = true \/ by_start b a = true.
Proof. intros a b; unfold by_start. rewrite !Z.leb_le. lia. Qed.

Lemma by_start_trans : forall a b c,
    by_start a b = true -> by_start b c = true -> by_start a c = true.
Proof. intros a b c; unfold by_start. rewrite !Z.leb_le. lia. Qed.

Lemma hd_error_earliest : forall (l : list TimeSlot),
    (forall slot, hd_error (order_by by_start l) = Some slot ->
                  In slot l /\ forall r, In r l -> start_time slot <= start_time r)
    /\ (hd_error (order_by by_start l) = None <-> l = []).
Proof.
  intros l.
  pose proof (order_by_sorted by_start by_start_total by_start_trans l) as Hs.
  pose proof (order_by_perm by_start l) as Hp.
  destruct (order_by by_start l) as [|x rest]; simpl.
  - split; [discriminate|]. split; [|reflexivity]. intros _.
    apply Permutation_nil. exact Hp.
  - split.
    + intros slot E; inversion E; subst x. split.
      * apply (Permutation_in _ Hp). left; reflexivity.
      * intros r Hr. symmetry in Hp. apply (Permutation_in _ Hp) in Hr.
        destruct Hr as [<-|Hr]; [lia|].
        inversion Hs as [|? ? _ Hall]; subst. rewrite Forall_forall in Hall.
        specialize (Hall r Hr). unfold by_start in Hall. apply Z.leb_le in Hall.
        exact Hall.
    + split; [discriminate|]. intros ->.
      symmetry in Hp. apply Permutation_nil in Hp. discriminate.
Qed.

(** X5: [get_next_available_slot] returns an available slot of the
    tournament that passes the optional filters (a non-zero court id,
    a start after [after_time]) and starts no later than any other such
    slot; it returns [None] exactly when there is no such slot. *)
Theorem next_available_is_earliest :
  forall db tournament court after_time,
    let eligible r :=
      In r (time_slots db) /\ tournament_id r = tournament
      /\ is_available r = true
      /\ (forall c, court = Some c -> c <> 0 -> court_id r = c)
      /\ (forall t, after_time = Some t -> start_time r > t) in
    (forall slot,
        get_next_available_slot db tournament court after_time = Some slot ->
        eligible slot /\ forall r, eligible r -> start_time slot <= start_time r)
    /\ (get_next_available_slot db tournament court after_time = None <->
        forall r, ~ eligible r).
Proof.
  intros db tournament court after_time eligible.
  unfold get_next_available_slot.
  set (q1 := filter (fun r => (tournament_id r =? tournament)
                              && Bool.eqb (is_available r) true) (time_slots db)).
  set (q2 := match court with
             | Some c => if truthy (Some c)
                         then filter (fun r => court_id r =? c) q1 else q1
             | None => q1
             end).
  set (q3 := match after_time with
             | Some t => filter (fun r => start_time r >? t) q2
             | None => q2
             end).
  assert (Hq : forall r, In r q3 <-> eligible r).
  { intros r. unfold eligible, q3.
    assert (Hafter : In r (match after_time with
                           | Some t => filter (fun r => start_time r >? t) q2
                           | None => q2
                           end)
                     <-> In r q2 /\ (forall t, after_time = Some t -> start_time r > t)).
    { destruct after_time as [t|].
      - rewrite filter_In, Z.gtb_ltb, Z.ltb_lt. split.
        + intros [H E]. split; [exact H|]. intros t' Ht. inversion Ht; subst. lia.
        + intros [H E]. split; [exact H|]. specialize (E t eq_refl). lia.
      - split; [|tauto]. intros H. split; [exact H | discriminate]. }
    rewrite Hafter. unfold q2. rewrite optional_court_filter. unfold q1.
    rewrite filter_In, andb_true_iff, Z.eqb_eq, eqb_true_iff. tauto. }
  destruct (hd_error_earliest q3) as [Hsome Hnone]. split.
  - intros slot E. destruct (Hsome slot E) as [Hin Hmin]. split.
    + apply Hq. exact Hin.
    + intros r Hr. apply Hmin. apply Hq. exact Hr.
  - split.
    + intros E r Hr. apply Hnone in E. apply Hq in Hr. rewrite E in Hr.
      contradiction.
    + intros Hno. apply Hnone. destruct q3 as [|x rest]; [reflexivity|].
      exfalso. apply (Hno x). apply Hq. left; reflexivity.
Qed.

End SlotListing.

(** ** Daily summary by court *)

Module ScheduleSummary.
Import Clock TimeSlots SlotGrid SlotInvariants.

Lemma filter_partition_length : forall (A : Type) (f : A -> bool) (l : list A),
    List.length l
    = (List.length (filter f l) + List.length (filter (fun x => negb (f x)) l))%nat.
Proof.
  intros A f l; induction l as [|x l IH]; simpl; [reflexivity|].
  destruct (f x); simpl; lia.
Qed.

Lemma dict_get_set_same : forall k v d, dict_get k (dict_set k v d) = Some v.
Proof.
  intros k v d; induction d as [|[k' v'] d IH]; simpl.
  - rewrite Z.eqb_refl. reflexivity.
  - destruct (k' =? k) eqn:E; simpl; [rewrite Z.eqb_refl | rewrite E]; auto.
Qed.

Lemma dict_get_set_other : forall k k' v d,
    k' <> k -> dict_get k' (dict_set k v d) = dict_get k' d.
Proof.
  intros k k' v d Hne; induction d as [|[k0 v0] d IH]; simpl.
  - apply Z.eqb_neq in Hne. rewrite Z.eqb_sym, Hne. reflexivity.
  - destruct (k0 =? k) eqn:E; simpl.
    + apply Z.eqb_eq in E. subst k0.
      assert (E' : (k =? k') = false) by (apply Z.eqb_neq; congruence).
      rewrite E'. reflexivity.
    + destruct (k0 =? k'); [reflexivity | exact IH].
Qed.

Lemma dict_get_None : forall k d, dict_get k d = None <-> ~ In k (map fst d).
Proof.
  intros k d; induction d as [|[k' v'] d IH]; simpl; [tauto|].
  destruct (k' =? k) eqn:E.
  - apply Z.eqb_eq in E. split; [discriminate | tauto].
  - apply Z.eqb_neq in E. rewrite IH. tauto.
Qed.

Lemma dict_set_keys : forall k v d,
    map fst (dict_set k v d)
    = match dict_get k d with
      | Some _ => map fst d
      | None => map fst d ++ [k]
      end.
Proof.
  intros k v d; induction d as [|[k' v'] d IH]; simpl; [reflexivity|].
  destruct (k' =? k) eqn:E; simpl.
  - apply Z.eqb_eq in E. subst; reflexivity.
  - rewrite IH. destruct (dict_get k d); reflexivity.
Qed.

Lemma dict_set_NoDup : forall k v d,
    NoDup (map fst d) -> NoDup (map fst (dict_set k v d)).
Proof.
  intros k v d H. rewrite dict_set_keys.
  destruct (dict_get k d) eqn:E; [exact H|].
  apply dict_get_None in E.
  apply NoDup_app; [exact H | repeat constructor; simpl; tauto|].
  intros x Hx [<-|[]]. contradiction.
Qed.

(** The entry a court has once the slots [p] have been grouped. *)
Definition court_entry (p : list TimeSlot) (c : Z) : option CourtSlots :=
  if existsb (fun s => court_id s =? c) p
  then Some (mk_court_slots
               (filter (fun s => (court_id s =? c) && is_available s) p)
               (filter (fun s => (court_id s =? c) && negb (is_available s)) p))
  else None.

Lemma group_slot_same : forall d s,
    dict_get (court_id s) (group_slot d s)
    = Some (let entry := match dict_get (court_id s) d with
                         | Some e => e
                         | None => mk_court_slots [] []
                         end in
            if is_available s
            then mk_court_slots (available entry ++ [s]) (occupied entry)
            else mk_court_slots (available entry) (occupied entry ++ [s])).
Proof.
  intros d s. unfold group_slot.
  destruct (dict_get (court_id s) d) as [e|] eqn:E.
  - rewrite E. apply dict_get_set_same.
  - rewrite dict_get_set_same. apply dict_get_set_same.
Qed.

Lemma group_slot_other : forall d s c,
    c <> court_id s -> dict_get c (group_slot d s) = dict_get c d.
Proof.
  intros d s c Hne. unfold group_slot.
  destruct (dict_get (court_id s) d) as [e|] eqn:E.
  - rewrite E. apply dict_get_set_other. exact Hne.
  - rewrite dict_get_set_same. rewrite !dict_get_set_other by exact Hne.
    reflexivity.
Qed.

Lemma group_slot_NoDup : forall d s,
    NoDup (map fst d) -> NoDup (map fst (group_slot d s)).
Proof.
  intros d s H. unfold group_slot.
  destruct (dict_get (court_id s) d) as [e|] eqn:E.
  - rewrite E. apply dict_set_NoDup. exact H.
  - rewrite dict_get_set_same. apply dict_set_NoDup, dict_set_NoDup. exact H.
Qed.

Lemma no_slot_of_court : forall (g : TimeSlot -> bool) c p,
    existsb (fun s => court_id s =? c) p = false ->
    filter (fun s => (court_id s =? c) && g s) p = [].
Proof.
  intros g c p; induction p as [|x p IH]; simpl; [reflexivity|].
  intros H. apply orb_false_iff in H. destruct H as [H1 H2].
  rewrite H1. simpl. apply IH. exact H2.
Qed.

Lemma group_slot_entry : forall p d s,
    (forall c, dict_get c d = court_entry p c) ->
    forall c, dict_get c (group_slot d s) = court_entry (p ++ [s]) c.
Proof.
  intros p d s Hd c. destruct (Z.eq_dec c (court_id s)) as [->|Hne].
  - rewrite group_slot_same, Hd. unfold court_entry.
    rewrite existsb_app, !filter_app. simpl. rewrite Z.eqb_refl. simpl.
    rewrite orb_true_r.
    destruct (existsb (fun s0 => court_id s0 =? court_id s) p) eqn:Ex.
    + destruct (is_available s); simpl; rewrite ?app_nil_r; reflexivity.
    + rewrite !no_slot_of_court by exact Ex.
      destruct (is_available s); simpl; reflexivity.
  - rewrite group_slot_other by exact Hne. rewrite Hd. unfold court_entry.
    assert (E : (court_id s =? c) = false) by (apply Z.eqb_neq; congruence).
    rewrite existsb_app, !filter_app. simpl. rewrite E. simpl.
    rewrite orb_false_r, !app_nil_r. reflexivity.
Qed.

Lemma fold_group_slot : forall l p d,
    NoDup (map fst d) -> (forall c, dict_get c d = court_entry p c) ->
    NoDup (map fst (fold_left group_slot l d))
    /\ forall c, dict_get c (fold_left group_slot l d) = court_entry (p ++ l) c.
Proof.
  induction l as [|s l IH]; intros p d Hnd Hd; simpl.
  - rewrite app_nil_r. auto.
  - replace (p ++ s :: l) with ((p ++ [s]) ++ l) by (rewrite <- app_assoc; reflexivity).
    apply IH.
    + apply group_slot_NoDup. exact Hnd.
    + apply group_slot_entry. exact Hd.
Qed.

(** X6: in the answer of [get_schedule_availability] the total is the
    sum of the available and the occupied count, every court is one key of
    [slots_by_court], and the entry of a court holds exactly the day's
    slots of that court, split by [is_available], in listing order; a court
    without a slot that day has no entry. *)
Theorem schedule_groups_by_court :
  forall db tournament date',
    let all_slots :=
      get_time_slots_for_tournament db tournament None (Some date') false in
    let answer := get_schedule_availability db tournament date' in
    total_slots answer = (available_count answer + occupied_count answer)%nat
    /\ NoDup (map fst (slots_by_court answer))
    /\ forall c,
        dict_get c (slots_by_court answer)
        = if existsb (fun s => court_id s =? c) all_slots
          then Some (mk_court_slots
                       (filter (fun s => (court_id s =? c) && is_available s)
                               all_slots)
                       (filter (fun s => (court_id s =? c) && negb (is_available s))
                               all_slots))
          else None.
Proof.
  intros db tournament date' all_slots answer.
  unfold answer, get_schedule_availability. fold all_slots. simpl.
  split; [apply filter_partition_length|].
  destruct (fold_group_slot all_slots [] []) as [Hnd Hget].
  - constructor.
  - intros c. reflexivity.
  - split; [exact Hnd|]. intros c. rewrite Hget. reflexivity.
Qed.

Example schedule_of_a_day :
  slots_by_court
    (get_schedule_availability
       (mk_store [mk_slot 1 1 8 (at_ 0 10 0) (at_ 0 11 0) true None;
                  mk_slot 2 1 7 (at_ 0 10 0) (at_ 0 11 0) false (Some 5);
                  mk_slot 3 1 7 (at_ 0 9 0) (at_ 0 10 0) true None] 4)
       1 (at_ 0 0 0))
  = [(7, mk_court_slots [mk_slot 3 1 7 (at_ 0 9 0) (at_ 0 10 0) true None]
                        [mk_slot 2 1 7 (at_ 0 10 0) (at_ 0 11 0) false (Some 5)]);
     (8, mk_court_slots [mk_slot 1 1 8 (at_ 0 10 0) (at_ 0 11 0) true None] [])].
Proof. reflexivity. Qed.

End ScheduleSummary.

(** ** Writes through the routes *)

Module SlotWrites.
Import Clock TimeSlots SlotGrid SlotInvariants ConflictChecker SlotAssignment
       SlotCreation GridGenerator NoOverlap Scenarios.

Lemma excluded_check_sound : forall db t c s e x r,
    In r (check_slot_conflicts db t c s e (Some x)) ->
    In r (time_slots db) /\ tournament_id r = t /\ court_id r = c
    /\ overlaps (start_time r) (end_time r) s e
    /\ (x <> 0 -> id r <> x).
Proof.
  intros db t c s e x r; unfold check_slot_conflicts.
  destruct (truthy (Some x)) eqn:Ht.
  - rewrite !filter_In, where_clause_spec, negb_true_iff, Z.eqb_neq. tauto.
  - rewrite filter_In, where_clause_spec.
    apply truthy_false in Ht. destruct Ht as [Ht|Ht]; [discriminate|].
    inversion Ht; subst x. tauto.
Qed.

Lemma update_time_slot_info_retime : forall db slot_id slot s e,
    get_time_slot_by_id db slot_id = Some slot ->
    update_time_slot_info db slot_id (mk_updates None None None (Some s) (Some e) None None)
    = match check_slot_conflicts db (tournament_id slot) (court_id slot) s e
                                 (Some slot_id) with
      | [] => update_time_slot db slot_id
                (mk_updates None None None (Some s) (Some e) None None)
      | r :: l =>
          (db, inl (HTTPException HTTP_409_CONFLICT
                                  (new_time_conflicts (List.length (r :: l)))))
      end.
Proof.
  intros db slot_id slot s e Hget. unfold update_time_slot_info. rewrite Hget.
  cbn [is_some upd_start_time upd_end_time orb set_field].
  destruct (check_slot_conflicts db (tournament_id slot) (court_id slot) s e
                                 (Some slot_id)); reflexivity.
Qed.

(** X7: re-timing a stored slot through [update_time_slot_info].  A slot
    whose identifier is not 0 is checked against the other slots of its
    tournament and court only, never against its own bounds: when none of
    them overlaps the new interval (and none has the new key) the new bounds
    are written.  Whatever the identifier, when another slot of the
    tournament and court overlaps the new interval the request is refused
    with 409 and nothing is written.  The slot with the identifier 0 is
    checked against its own bounds as well ([if exclude_slot_id:]), and
    refused with 409 when the new interval overlaps them. *)
Theorem retime_checks_only_others :
  forall db slot_id slot s e,
    get_time_slot_by_id db slot_id = Some slot ->
    let u := mk_updates None None None (Some s) (Some e) None None in
    (slot_id <> 0 ->
     (forall o, In o (time_slots db) -> id o <> slot_id ->
                tournament_id o = tournament_id slot -> court_id o = court_id slot ->
                ~ overlaps (start_time o) (end_time o) s e) ->
     (forall o, In o (time_slots db) -> id o <> slot_id ->
                ~ (court_id o = court_id slot /\ start_time o = s /\ end_time o = e)) ->
     update_time_slot_info db slot_id u
     = (replace_slot slot_id (apply_updates u) db,
        inr (Some (mk_slot (id slot) (tournament_id slot) (court_id slot) s e
                           (is_available slot) (match_id slot)))))
    /\ ((exists o, In o (time_slots db) /\ id o <> slot_id
                   /\ tournament_id o = tournament_id slot
                   /\ court_id o = court_id slot
                   /\ overlaps (start_time o) (end_time o) s e) ->
        exists n, update_time_slot_info db slot_id u
                  = (db, inl (HTTPException HTTP_409_CONFLICT (new_time_conflicts n)))
                  /\ (1 <= n)%nat)
    /\ (slot_id = 0 -> overlaps (start_time slot) (end_time slot) s e ->
        exists n, update_time_slot_info db slot_id u
                  = (db, inl (HTTPException HTTP_409_CONFLICT (new_time_conflicts n)))
                  /\ (1 <= n)%nat).
Proof.
  intros db slot_id slot s e Hget u.
  pose proof Hget as Hfind. unfold get_time_slot_by_id in Hfind.
  destruct (find_id_In _ _ _ Hfind) as [Hin Hid].
  split; [|split].
  - intros Hpos Hclear Hkey. unfold u.
    rewrite (update_time_slot_info_retime db slot_id slot s e Hget).
    destruct (check_slot_conflicts db (tournament_id slot) (court_id slot) s e
                                   (Some slot_id)) as [|r l] eqn:Hc.
    + unfold update_time_slot. rewrite Hfind. simpl.
      assert (Hfree : existsb (fun o => negb (id o =? slot_id)
                                        && same_key (court_id slot) s e o)
                              (time_slots db) = false).
      { apply not_true_is_false. intros H. apply existsb_exists in H.
        destruct H as [o [Ho H]]. apply andb_true_iff in H. destruct H as [H1 H2].
        apply negb_true_iff, Z.eqb_neq in H1. apply same_key_spec in H2.
        apply (Hkey o Ho H1). unfold slot_key in H2. inversion H2. auto. }
      subst slot_id. rewrite update_keeps_pkey_free, Hfree. reflexivity.
    + exfalso.
      assert (Hr : In r (check_slot_conflicts db (tournament_id slot) (court_id slot)
                                              s e (Some slot_id))).
      { rewrite Hc. left; reflexivity. }
      apply excluded_check_sound in Hr.
      destruct Hr as [Hr [Ht [Hct [Hov Hx]]]].
      apply (Hclear r Hr (Hx Hpos) Ht Hct Hov).
  - intros [o [Ho [Hne [Ht [Hc Hov]]]]]. unfold u.
    rewrite (update_time_slot_info_retime db slot_id slot s e Hget).
    pose proof (excluded_check_complete db (tournament_id slot) (court_id slot)
                                        s e slot_id o Ho Ht Hc Hne Hov) as Hfound.
    destruct (check_slot_conflicts db (tournament_id slot) (court_id slot) s e
                                   (Some slot_id)) as [|r l]; [contradiction|].
    eexists. split; [reflexivity | simpl; lia].
  - intros Hzero Hov. unfold u.
    rewrite (update_time_slot_info_retime db slot_id slot s e Hget).
    assert (Hfound : In slot (check_slot_conflicts db (tournament_id slot)
                                (court_id slot) s e (Some slot_id))).
    { apply check_slot_conflicts_spec. unfold overlaps in Hov.
      split; [exact Hin|]. split; [reflexivity|]. split; [reflexivity|].
      split; [|lia]. intros x Ex Hx. inversion Ex; congruence. }
    destruct (check_slot_conflicts db (tournament_id slot) (court_id slot) s e
                                   (Some slot_id)) as [|r l]; [contradiction|].
    eexists. split; [reflexivity | simpl; lia].
Qed.

Lemma retime_checks_only_others_witness :
  let first := mk_slot 1 1 7 (at_ 0 10 0) (at_ 0 11 0) true None in
  let second := mk_slot 2 1 7 (at_ 0 11 30) (at_ 0 12 30) true None in
  let moved := mk_slot 1 1 7 (at_ 0 10 30) (at_ 0 11 30) true None in
  update_time_slot_info (mk_store [first; second] 3) 1
    (mk_updates None None None (Some (at_ 0 10 30)) (Some (at_ 0 11 30)) None None)
  = (mk_store [moved; second] 3, inr (Some moved)).
Proof.
  intros first second moved.
  refine (proj1 (retime_checks_only_others (mk_store [first; second] 3) 1 first
                   (at_ 0 10 30) (at_ 0 11 30) _) _ _ _).
  - reflexivity.
  - lia.
  - intros o [<-|[<-|[]]] Hne _ _; simpl in Hne; [congruence|].
    unfold overlaps; vm_compute. intros [H _]; discriminate.
  - intros o [<-|[<-|[]]] Hne; simpl in Hne; [congruence|].
    vm_compute. intros [_ [H _]]; discriminate.
Defined.

(** X8: once a slot has been created, a create for the same tournament
    and court whose interval overlaps it is refused with 409 and writes
    nothing; in particular the same non-empty slot cannot be created
    twice. *)
Theorem overlapping_create_is_refused :
  forall db tournament body db' slot body',
    create_new_time_slot db tournament body = (db', inr slot) ->
    body_court_id body' = body_court_id body ->
    overlaps (body_start_time body) (body_end_time body)
             (body_start_time body') (body_end_time body') ->
    exists n, create_new_time_slot db' tournament body'
              = (db', inl (HTTPException HTTP_409_CONFLICT (slot_conflicts n)))
              /\ (1 <= n)%nat.
Proof.
  intros db tournament body db' slot body' Hrun Hc Hov.
  apply create_new_time_slot_inr in Hrun. unfold create_time_slot in Hrun.
  apply insert_time_slot_inr in Hrun. destruct Hrun as [Hrow [Hdb _]].
  assert (Hin : In slot (check_slot_conflicts db' tournament (body_court_id body')
                           (body_start_time body') (body_end_time body') None)).
  { unfold check_slot_conflicts. apply filter_In. split.
    - subst db'. simpl. apply in_or_app. right. left. reflexivity.
    - apply where_clause_spec. subst slot. simpl. auto. }
  unfold create_new_time_slot.
  destruct (check_slot_conflicts db' tournament (body_court_id body')
              (body_start_time body') (body_end_time body') None) as [|r l];
    [contradiction|].
  eexists. split; [reflexivity | simpl; lia].
Qed.

Lemma overlapping_create_is_refused_witness :
  exists n,
    create_new_time_slot one_slot_store 1 (mk_body 7 (at_ 0 10 0) (at_ 0 11 0) true)
    = (one_slot_store, inl (HTTPException HTTP_409_CONFLICT (slot_conflicts n)))
    /\ (1 <= n)%nat.
Proof.
  refine (overlapping_create_is_refused empty_store 1
            (mk_body 7 (at_ 0 10 0) (at_ 0 11 0) true) one_slot_store
            (mk_slot 1 1 7 (at_ 0 10 0) (at_ 0 11 0) true None)
            (mk_body 7 (at_ 0 10 0) (at_ 0 11 0) true) _ _ _).
  - reflexivity.
  - reflexivity.
  - unfold overlaps. vm_compute. split; reflexivity.
Defined.

End SlotWrites.

(** ** What bulk generation writes *)

Module BulkWrites.
Import Clock TimeSlots SlotGrid SlotInvariants ConflictChecker SlotAssignment
       SlotCreation GridGenerator Scenarios.

(** A row as the generation makes it for the request [req]. *)
Definition generated (req : TimeSlotBulkCreate) (r : TimeSlot) : Prop :=
  tournament_id r = bulk_tournament_id req
  /\ In (court_id r) (court_ids req)
  /\ end_time r = start_time r + timedelta_minutes (slot_duration_minutes req)
  /\ is_available r = true /\ match_id r = None.

(** [db'] is [db] with the rows [news] appended, all of them generated for
    [req] with identifiers taken from the sequence in between. *)
Definition appended (req : TimeSlotBulkCreate) (db db' : Store)
    (news : list TimeSlot) : Prop :=
  time_slots db' = time_slots db ++ news
  /\ time_slots_id_seq db <= time_slots_id_seq db'
  /\ Forall (fun r => time_slots_id_seq db <= id r < time_slots_id_seq db'
                      /\ generated req r) news.

Lemma appended_refl : forall req db, appended req db db [].
Proof. intros; repeat split; [symmetry; apply app_nil_r | lia | constructor]. Qed.

Lemma appended_trans : forall req db db1 db2 n1 n2,
    appended req db db1 n1 -> appended req db1 db2 n2 ->
    appended req db db2 (n1 ++ n2).
Proof.
  intros req db db1 db2 n1 n2 [E1 [L1 F1]] [E2 [L2 F2]]. repeat split.
  - rewrite E2, E1, app_assoc. reflexivity.
  - lia.
  - rewrite Forall_forall in F1, F2. apply Forall_app. split; apply Forall_forall.
    + intros r Hr. destruct (F1 r Hr) as [Hb Hg]. split; [lia | exact Hg].
    + intros r Hr. destruct (F2 r Hr) as [Hb Hg]. split; [lia | exact Hg].
Qed.

Lemma slots_loop_appends : forall req fuel court c close db created db' res,
    In court (court_ids req) ->
    slots_loop fuel req court c close db created = Some (db', res) ->
    exists news, appended req db db' news
                 /\ forall created', res = inr created' -> created' = created ++ news.
Proof.
  intros req; induction fuel as [|fuel IH];
    intros court c close db created db' res Hcourt; simpl; [discriminate|].
  destruct (c <? close);
    [|intros H; inversion H; subst; exists []; split;
      [apply appended_refl | intros c' E; inversion E; rewrite app_nil_r; reflexivity]].
  destruct (_ >? close);
    [intros H; inversion H; subst; exists []; split;
     [apply appended_refl | intros c' E; inversion E; rewrite app_nil_r; reflexivity]|].
  destruct (insert_time_slot db _) as [db1 [e|row]] eqn:Hins.
  - intros H; inversion H; subst. exists []. split; [|discriminate].
    unfold insert_time_slot in Hins.
    destruct (existsb _ _); inversion Hins; subst.
    repeat split; simpl; [symmetry; apply app_nil_r | lia | constructor].
  - intros Hrun. apply insert_time_slot_inr in Hins. destruct Hins as [Hrow [Hdb _]].
    destruct (IH _ _ _ _ _ _ _ Hcourt Hrun) as [news [Happ Hres]].
    exists (row :: news). split.
    + apply (appended_trans req db db1 db' [row] news); [|exact Happ].
      subst db1. repeat split; simpl; [lia|].
      constructor; [|constructor]. subst row; simpl.
      repeat split; auto; lia.
    + intros created' E. rewrite (Hres created' E), <- app_assoc. reflexivity.
Qed.

Lemma courts_loop_appends : forall req fuel d courts db created db' res,
    incl courts (court_ids req) ->
    courts_loop fuel req d courts db created = Some (db', res) ->
    exists news, appended req db db' news
                 /\ forall created', res = inr created' -> created' = created ++ news.
Proof.
  intros req fuel d courts; induction courts as [|court courts IH];
    intros db created db' res Hincl; simpl.
  - intros H; inversion H; subst. exists []. split; [apply appended_refl|].
    intros c' E; inversion E; rewrite app_nil_r; reflexivity.
  - destruct (slots_loop _ _ _ _ _ _ _) as [[db1 [e|created1]]|] eqn:Hloop;
      [| |discriminate].
    + intros H; inversion H; subst.
      apply slots_loop_appends in Hloop; [|apply Hincl; left; reflexivity].
      destruct Hloop as [news [Happ _]]. exists news. split; [exact Happ|discriminate].
    + intros Hrun.
      apply slots_loop_appends in Hloop; [|apply Hincl; left; reflexivity].
      destruct Hloop as [n1 [Happ1 Hres1]].
      apply IH in Hrun; [|intros x Hx; apply Hincl; right; exact Hx].
      destruct Hrun as [n2 [Happ2 Hres2]].
      exists (n1 ++ n2). split; [apply (appended_trans req db db1 db'); assumption|].
      intros created' E. rewrite (Hres2 created' E), (Hres1 created1 eq_refl).
      rewrite app_assoc. reflexivity.
Qed.

Lemma days_loop_appends : forall req n fuel d db created db' res,
    days_loop n fuel req d db created = Some (db', res) ->
    exists news, appended req db db' news
                 /\ forall created', res = inr created' -> created' = created ++ news.
Proof.
  intros req; induction n as [|n IH]; intros fuel d db created db' res; simpl.
  - intros H; inversion H; subst. exists []. split; [apply appended_refl|].
    intros c' E; inversion E; rewrite app_nil_r; reflexivity.
  - destruct (existsb _ _); [apply IH|].
    destruct (courts_loop _ _ _ _ _ _) as [[db1 [e|created1]]|] eqn:Hloop;
      [| |discriminate].
    + intros H; inversion H; subst.
      apply courts_loop_appends in Hloop; [|apply incl_refl].
      destruct Hloop as [news [Happ _]]. exists news. split; [exact Happ|discriminate].
    + intros Hrun.
      apply courts_loop_appends in Hloop; [|apply incl_refl].
      destruct Hloop as [n1 [Happ1 Hres1]].
      apply IH in Hrun. destruct Hrun as [n2 [Happ2 Hres2]].
      exists (n1 ++ n2). split; [apply (appended_trans req db db1 db'); assumption|].
      intros created' E. rewrite (Hres2 created' E), (Hres1 created1 eq_refl).
      rewrite app_assoc. reflexivity.
Qed.

(** X9: whatever the request and however it ends, [create_time_slots_bulk]
    only appends: the table afterwards is the table before followed by new
    rows, each of the tournament of the path, on a requested court, of the
    full slot duration, available and without a match, with a fresh
    identifier.  Rows inserted before a rejected insert stay; on success
    [created_count] is the number of new rows and the sample is their first
    ten. *)
Theorem bulk_only_appends :
  forall fuel db tournament req db' res,
    create_time_slots_bulk fuel db tournament req = Some (db', res) ->
    exists news,
      time_slots db' = time_slots db ++ news
      /\ Forall (fun r => tournament_id r = tournament
                          /\ In (court_id r) (court_ids req)
                          /\ end_time r
                             = start_time r
                               + timedelta_minutes (slot_duration_minutes req)
                          /\ is_available r = true /\ match_id r = None
                          /\ time_slots_id_seq db <= id r < time_slots_id_seq db')
                news
      /\ forall count sample,
          res = inr (count, sample) ->
          count = List.length news /\ sample = firstn 10 news.
Proof.
  intros fuel db tournament req db' res. unfold create_time_slots_bulk.
  destruct (bulk_create_time_slots fuel db (with_tournament tournament req))
    as [[db1 [e|created]]|] eqn:Hrun; [| |discriminate];
    intros H; inversion H; subst; clear H;
    unfold bulk_create_time_slots in Hrun;
    apply days_loop_appends in Hrun; destruct Hrun as [news [[E [L F]] Hres]];
    exists news; (split; [exact E|]); split.
  - rewrite Forall_forall in *. intros r Hr.
    destruct (F r Hr) as [Hb [Ht [Hc [Hd [Ha Hm]]]]]. simpl in *. auto 10.
  - discriminate.
  - rewrite Forall_forall in *. intros r Hr.
    destruct (F r Hr) as [Hb [Ht [Hc [Hd [Ha Hm]]]]]. simpl in *. auto 10.
  - intros count sample Ecs. inversion Ecs; subst.
    rewrite (Hres created eq_refl). simpl. auto.
Qed.

Lemma bulk_only_appends_witness :
  exists news,
    [mk_slot 1 1 7 (at_ 0 9 0) (at_ 0 9 30) true None;
     mk_slot 2 1 7 (at_ 0 9 30) (at_ 0 10 0) true None] = [] ++ news
    /\ forall count sample,
        @inr exception _ (2%nat, [mk_slot 1 1 7 (at_ 0 9 0) (at_ 0 9 30) true None;
                                  mk_slot 2 1 7 (at_ 0 9 30) (at_ 0 10 0) true None])
        = inr (count, sample) ->
        count = List.length news /\ sample = firstn 10 news.
Proof.
  destruct (bulk_only_appends 3 empty_store 1 half_hours_on_court_7
              (mk_store [mk_slot 1 1 7 (at_ 0 9 0) (at_ 0 9 30) true None;
                         mk_slot 2 1 7 (at_ 0 9 30) (at_ 0 10 0) true None] 3)
              (inr (2%nat, [mk_slot 1 1 7 (at_ 0 9 0) (at_ 0 9 30) true None;
                            mk_slot 2 1 7 (at_ 0 9 30) (at_ 0 10 0) true None])))
    as [news [E [_ H]]].
  - reflexivity.
  - exists news. split; [exact E | exact H].
Defined.

(** X10: on an empty table a request that honours the contract (duration
    > 0, break >= 0, times of day in range) and names each court once is
    never refused by the unique key: the generation returns, and the rows
    it has created are the whole grid, in order. *)
Theorem bulk_on_empty_table_succeeds :
  forall req next fuel,
    0 < slot_duration_minutes req -> 0 <= break_duration_minutes req ->
    valid_time (daily_start_time req) -> valid_time (daily_end_time req) ->
    NoDup (court_ids req) ->
    (enough_fuel req <= fuel)%nat ->
    exists created,
      bulk_create_time_slots fuel (mk_store [] next) req
      = Some (mk_store created (next + Z.of_nat (List.length created)), inr created)
      /\ map draft_of created = slot_grid req
      /\ map id created
         = map (fun k => next + Z.of_nat k) (seq 0 (List.length created)).
Proof.
  intros req next fuel Hd Hb Ho Hc Hcourts Hfuel.
  rewrite (bulk_create_is_grid req Hd Hb fuel (mk_store [] next) Hfuel).
  pose proof (keys_free_on_empty_table req Hd Hb Ho Hc Hcourts next) as Hfree.
  revert Hfree. generalize (slot_grid req). intros grid.
  assert (Hgen : forall drafts db acc,
             keys_free db drafts ->
             exists news,
               insert_all db drafts acc
               = (mk_store (time_slots db ++ news)
                           (time_slots_id_seq db + Z.of_nat (List.length news)),
                  inr (acc ++ news))
               /\ map draft_of news = drafts
               /\ map id news
                  = map (fun k => time_slots_id_seq db + Z.of_nat k)
                        (seq 0 (List.length news))).
  { induction drafts as [|v drafts IH]; intros db acc Hfree.
    - exists []. simpl. rewrite !app_nil_r, Z.add_0_r. destruct db; auto.
    - unfold keys_free in Hfree. simpl insert_all. unfold insert_time_slot.
      assert (Hnew : existsb (same_key (ins_court_id v) (ins_start_time v)
                                       (ins_end_time v)) (time_slots db) = false).
      { apply not_true_is_false. intros H. apply existsb_exists in H.
        destruct H as [r [Hr Hk]]. apply same_key_spec in Hk.
        apply (NoDup_app_disjoint _ _ _ (draft_key v) Hfree).
        - apply in_map_iff. exists r. auto.
        - left; reflexivity. }
      rewrite Hnew.
      set (row := row_of (time_slots_id_seq db) v).
      destruct (IH (mk_store (time_slots db ++ [row]) (time_slots_id_seq db + 1))
                   (acc ++ [row])) as [news [Hrun [Hdrafts Hids]]].
      { unfold keys_free; simpl. rewrite map_app, <- app_assoc. exact Hfree. }
      exists (row :: news). rewrite Hrun. simpl time_slots. simpl time_slots_id_seq.
      rewrite <- !app_assoc. simpl. split; [|split].
      + do 2 f_equal. lia.
      + rewrite Hdrafts. unfold row. rewrite draft_of_row_of. reflexivity.
      + simpl in Hids. rewrite Hids. f_equal; [unfold row; simpl; lia|].
        rewrite <- seq_shift, map_map. apply map_ext. intros k. lia. }
  intros Hfree. destruct (Hgen grid (mk_store [] next) [] Hfree)
    as [news [Hrun [Hgrid Hids]]].
  exists news. rewrite Hrun. simpl. auto.
Qed.

Lemma bulk_on_empty_table_succeeds_witness :
  exists created,
    bulk_create_time_slots 2 (mk_store [] 1) two_days_two_courts
    = Some (mk_store created (1 + Z.of_nat (List.length created)), inr created)
    /\ map draft_of created = slot_grid two_days_two_courts.
Proof.
  destruct (bulk_on_empty_table_succeeds two_days_two_courts 1 2)
    as [created [Hrun [Hgrid _]]].
  - simpl; lia.
  - simpl; lia.
  - unfold valid_time; simpl; lia.
  - unfold valid_time; simpl; lia.
  - simpl. repeat constructor; simpl; intuition discriminate.
  - vm_compute. lia.
  - exists created. split; [exact Hrun | exact Hgrid].
Defined.

End BulkWrites.

(** ** The invariants at work *)

Module InvariantsAtWork.
Import Clock TimeSlots SlotGrid SlotInvariants NoOverlap TableConstraints.

Ltac no_overlap_by_cases :=
  let a := fresh "a" in
  let b := fresh "b" in
  let Ha := fresh "Ha" in
  let Hb := fresh "Hb" in
  let Hid := fresh "Hid" in
  let H1 := fresh "H1" in
  let H2 := fresh "H2" in
  intros a b Ha Hb Hid _ _; simpl in Ha, Hb;
  repeat (destruct Ha as [Ha|Ha]; [subst a|]); try contradiction;
  repeat (destruct Hb as [Hb|Hb]; [subst b|]); try contradiction;
  simpl in Hid; try congruence;
  unfold overlaps; vm_compute; intros [H1 H2]; discriminate.

(** The create of [11:00, 12:00) next to the stored [10:00, 11:00) of
    court 7 passes the conflict check, and the two rows do not overlap. *)
Lemma create_keeps_no_overlap_witness :
  let first := mk_slot 1 1 7 (at_ 0 10 0) (at_ 0 11 0) true None in
  let second := mk_slot 2 1 7 (at_ 0 11 0) (at_ 0 12 0) true None in
  create_new_time_slot one_slot_store 1 (mk_body 7 (at_ 0 11 0) (at_ 0 12 0) true)
  = (mk_store [first; second] 3, inr second)
  /\ no_overlap_in_tournament (mk_store [first; second] 3).
Proof.
  intros first second.
  assert (Hrun : create_new_time_slot one_slot_store 1
                   (mk_body 7 (at_ 0 11 0) (at_ 0 12 0) true)
                 = (mk_store [first; second] 3, inr second)) by reflexivity.
  split; [exact Hrun|].
  refine (create_keeps_no_overlap one_slot_store 1
            (mk_body 7 (at_ 0 11 0) (at_ 0 12 0) true)
            (mk_store [first; second] 3) (inr second) _ Hrun).
  no_overlap_by_cases.
Defined.

(** The slot [10:00, 11:00) is moved to [10:30, 11:30), next to the
    stored [11:30, 12:30) of its court: the check against the other row
    passes, and the two rows do not overlap. *)
Lemma update_keeps_no_overlap_witness :
  let first := mk_slot 1 1 7 (at_ 0 10 0) (at_ 0 11 0) true None in
  let second := mk_slot 2 1 7 (at_ 0 11 30) (at_ 0 12 30) true None in
  let moved := mk_slot 1 1 7 (at_ 0 10 30) (at_ 0 11 30) true None in
  update_time_slot_info (mk_store [first; second] 3) 1
    (mk_updates None None None (Some (at_ 0 10 30)) (Some (at_ 0 11 30)) None None)
  = (mk_store [moved; second] 3, inr (Some moved))
  /\ no_overlap_in_tournament (mk_store [moved; second] 3).
Proof.
  intros first second moved.
  assert (Hrun : update_time_slot_info (mk_store [first; second] 3) 1
                   (mk_updates None None None (Some (at_ 0 10 30))
                               (Some (at_ 0 11 30)) None None)
                 = (mk_store [moved; second] 3, inr (Some moved))) by reflexivity.
  split; [exact Hrun|].
  refine (update_keeps_no_overlap (mk_store [first; second] 3) 1
            (mk_updates None None None (Some (at_ 0 10 30)) (Some (at_ 0 11 30))
                        None None)
            (mk_store [moved; second] 3) (inr (Some moved)) _ _ _ Hrun).
  - unfold primary_key; simpl. repeat constructor; simpl; intuition lia.
  - no_overlap_by_cases.
  - split; reflexivity.
Defined.

(** After the slot 2 was deleted, the slot 3 takes its identifier and a
    new interval: the table still satisfies its constraints. *)
Lemma routes_keep_constraints_witness :
  let first := mk_slot 1 1 7 (at_ 0 10 0) (at_ 0 11 0) true None in
  let third := mk_slot 3 1 7 (at_ 0 12 0) (at_ 0 13 0) true None in
  let moved := mk_slot 2 1 7 (at_ 0 11 0) (at_ 0 12 0) true None in
  update_time_slot_info (mk_store [first; third] 4) 3
    (mk_updates (Some 2) None None (Some (at_ 0 11 0)) (Some (at_ 0 12 0)) None None)
  = (mk_store [first; moved] 4, inr (Some moved))
  /\ constraints_hold (mk_store [first; moved] 4).
Proof.
  intros first third moved.
  assert (Hrun : update_time_slot_info (mk_store [first; third] 4) 3
                   (mk_updates (Some 2) None None (Some (at_ 0 11 0))
                               (Some (at_ 0 12 0)) None None)
                 = (mk_store [first; moved] 4, inr (Some moved))) by reflexivity.
  split; [exact Hrun|].
  assert (Hdb : constraints_hold (mk_store [first; third] 4)).
  { unfold constraints_hold, ids_from_sequence, keys_unique; simpl.
    repeat split; repeat constructor; simpl; try lia; intuition (try lia);
      try discriminate. }
  refine (proj1 (proj2 (proj2 (routes_keep_constraints _ Hdb))) 3
                (mk_updates (Some 2) None None (Some (at_ 0 11 0))
                            (Some (at_ 0 12 0)) None None)
                (mk_store [first; moved] 4) (inr (Some moved)) _ Hrun).
  intros x Hx; inversion Hx; subst x. simpl. lia.
Defined.

End InvariantsAtWork.

(** ** Laws of the availability resolver *)

Module ResolverLaws.
Import Clock Referees RefereeInvariants Scenarios AvailabilityResolver
       RefereeAssignments.

Lemma in_candidates : forall db tournament s e r,
    In r (candidate_referees db tournament s e)
    <-> In r (referees db) /\ active r = true
        /\ exists a, In a (referees_x_tournaments db)
                     /\ av_referee_id a = id r /\ av_tournament_id a = tournament
                     /\ contains (available_from a) (available_to a) s e.
Proof.
  intros db tournament s e r. unfold candidate_referees.
  rewrite (in_flat_map_const _ _
             (fun r a => (id r =? av_referee_id a)
                         && ((av_tournament_id a =? tournament)
                             && (available_from a <=? s)
                             && (available_to a >=? e)
                             && Bool.eqb (active r) true))).
  split.
  - intros [Hr [a [Ha Hk]]]. apply candidate_where in Hk.
    split; [exact Hr|]. split; [tauto|]. exists a. tauto.
  - intros [Hr [Hact [a [Ha H]]]]. split; [exact Hr|]. exists a.
    split; [exact Ha|]. apply candidate_where. tauto.
Qed.

Lemma in_available : forall db tournament s e r,
    In r (get_available_referees_for_time_slot db tournament s e)
    <-> In r (candidate_referees db tournament s e)
        /\ forall a m, ~ In (a, m) (conflicting_assignments db (id r) s e).
Proof.
  intros db tournament s e r. unfold get_available_referees_for_time_slot.
  rewrite filter_In, Z.eqb_eq, conflict_count_zero. split.
  - intros [H E]. split; [exact H|]. intros a m Hin. rewrite E in Hin. exact Hin.
  - intros [H Hno]. split; [exact H|].
    destruct (conflicting_assignments db (id r) s e) as [|[a m] l]; [reflexivity|].
    exfalso. apply (Hno a m). left; reflexivity.
Qed.

(** X14: a referee the resolver returns for a window is returned for
    every window inside it. *)
Theorem availability_is_monotone :
  forall db tournament s e s' e' r,
    s <= s' -> e' <= e ->
    In r (get_available_referees db tournament s e) ->
    In r (get_available_referees db tournament s' e').
Proof.
  intros db tournament s e s' e' r Hs He. unfold get_available_referees.
  rewrite !in_available, !in_candidates.
  intros [[Hr [Hact [a [Ha [Hid [Ht Hc]]]]]] Hno]. split.
  - split; [exact Hr|]. split; [exact Hact|]. exists a.
    unfold contains in *. repeat split; auto; lia.
  - intros a' m Hin. apply (Hno a' m).
    apply in_conflicting_assignments in Hin. apply in_conflicting_assignments.
    unfold overlaps in *. intuition lia.
Qed.

Lemma availability_is_monotone_witness :
  In ana (get_available_referees ana_store 1 (at_ 0 10 5) (at_ 0 12 0))
  /\ In ana (get_available_referees ana_store 1 (at_ 0 11 0) (at_ 0 11 30)).
Proof.
  assert (H : In ana (get_available_referees ana_store 1 (at_ 0 10 5) (at_ 0 12 0))).
  { left; reflexivity. }
  split; [exact H|].
  refine (availability_is_monotone ana_store 1 (at_ 0 10 5) (at_ 0 12 0)
            (at_ 0 11 0) (at_ 0 11 30) ana _ _ H).
  - vm_compute; discriminate.
  - vm_compute; discriminate.
Defined.

Lemma assign_referee_inr : forall db m referee role' c n db' row,
    assign_referee db m referee role' c n = (db', inr row) ->
    row = mk_assignment referee m role' c n
    /\ db' = mk_store (referees db) (referees_x_tournaments db)
                      (referees_x_matches db ++ [row]) (matches db)
    /\ (exists r, get_referee_by_id db referee = Some r)
    /\ In role' valid_roles.
Proof.
  intros db m referee role' c n db' row. unfold assign_referee.
  destruct (get_referee_by_id db referee) as [r|]; [|discriminate].
  destruct (existsb (String.eqb role') valid_roles) eqn:Hrole; [|discriminate].
  simpl. unfold assign_referee_to_match.
  destruct (existsb _ (referees_x_matches db)); [discriminate|].
  intros H; inversion H; subst. repeat split; auto.
  - exists r; reflexivity.
  - apply role_check. exact Hrole.
Qed.

(** X15: after [assign_referee] has stored an assignment to a match whose
    window overlaps [[s, e)], the resolver no longer returns that referee
    for [[s, e)]; for every other referee its answer is what it was. *)
Theorem assignment_blocks_referee :
  forall db m referee role' c n db' row tournament s e,
    assign_referee db m referee role' c n = (db', inr row) ->
    ((exists mt, In mt (matches db) /\ m_id mt = m
                 /\ m_start_time mt < e
                 /\ m_start_time mt
                    + timedelta_minutes (duration_minutes mt + margin_minutes mt) > s) ->
     forall r, id r = referee ->
               ~ In r (get_available_referees db' tournament s e))
    /\ (forall r, id r <> referee ->
                  (In r (get_available_referees db' tournament s e)
                   <-> In r (get_available_referees db tournament s e))).
Proof.
  intros db m referee role' c n db' row tournament s e Hrun.
  destruct (assign_referee_inr _ _ _ _ _ _ _ _ Hrun) as [Hrow [Hdb _]].
  unfold get_available_referees. split.
  - intros [mt [Hmt [Hid [H1 H2]]]] r Hr Hin.
    apply in_available in Hin. destruct Hin as [_ Hno].
    apply (Hno row mt). apply in_conflicting_assignments.
    subst db' row; simpl.
    split; [apply in_or_app; right; left; reflexivity|].
    split; [exact Hmt|]. split; [auto|]. split; [auto|].
    unfold overlaps, window_start, window_end. lia.
  - intros r Hne. rewrite !in_available, !in_candidates.
    assert (Hsame : forall a mt,
               In (a, mt) (conflicting_assignments db' (id r) s e)
               <-> In (a, mt) (conflicting_assignments db (id r) s e)).
    { intros a mt. rewrite !in_conflicting_assignments. subst db' row; simpl.
      rewrite in_app_iff. simpl. split.
      - intros [[Ha|[<-|[]]] H]; [tauto|]. simpl in H. exfalso. apply Hne.
        symmetry. tauto.
      - tauto. }
    subst db'; simpl. split.
    + intros [Hc Hno]. split; [exact Hc|]. intros a mt Hin.
      apply (Hno a mt). apply Hsame. exact Hin.
    + intros [Hc Hno]. split; [exact Hc|]. intros a mt Hin.
      apply (Hno a mt). apply Hsame. exact Hin.
Qed.

Lemma assignment_blocks_referee_witness :
  ~ In ana (get_available_referees
              (mk_store [ana]
                        [mk_availability 1 1 (at_ 0 9 0) (at_ 0 17 0) 5 [] None]
                        [mk_assignment 1 10 "main" false None]
                        [mk_match 10 (at_ 0 9 0) 60 5])
              1 (at_ 0 9 30) (at_ 0 10 0)).
Proof.
  refine (proj1 (assignment_blocks_referee
                   (mk_store [ana]
                             [mk_availability 1 1 (at_ 0 9 0) (at_ 0 17 0) 5 [] None]
                             [] [mk_match 10 (at_ 0 9 0) 60 5])
                   10 1 "main"%string false None _
                   (mk_assignment 1 10 "main" false None)
                   1 (at_ 0 9 30) (at_ 0 10 0) _) _ ana _).
  - reflexivity.
  - exists (mk_match 10 (at_ 0 9 0) 60 5).
    split; [left; reflexivity|]. split; [reflexivity|].
    vm_compute. split; reflexivity.
  - reflexivity.
Defined.

Lemma length_flat_map_map : forall (A B : Type) (g : A -> A) (F : A -> list B)
                                   (l : list A),
    (forall a, List.length (F (g a)) = List.length (F a)) ->
    List.length (flat_map F (map g l)) = List.length (flat_map F l).
Proof.
  intros A B g F l H; induction l as [|a l IH]; simpl; [reflexivity|].
  rewrite !length_app, H, IH. reflexivity.
Qed.

(** X16: [update_referee_match_assignment] never changes whom the resolver
    returns: confirming or annotating an assignment leaves every answer
    of [get_available_referees] as it was. *)
Theorem update_keeps_availability :
  forall db m referee c n tournament s e,
    get_available_referees
      (fst (update_referee_match_assignment db m referee c n)) tournament s e
    = get_available_referees db tournament s e.
Proof.
  intros db m referee c n tournament s e.
  assert (Hdb : fst (update_referee_match_assignment db m referee c n)
                = fst (update_referee_assignment db referee m c n)).
  { unfold update_referee_match_assignment.
    destruct (update_referee_assignment db referee m c n) as [db1 [a|]]; reflexivity. }
  rewrite Hdb.
  destruct (update_referee_assignment_table db referee m c n) as [Hrows [Hr [Hrt Hm]]].
  unfold get_available_referees, get_available_referees_for_time_slot.
  assert (Hcand : candidate_referees (fst (update_referee_assignment db referee m c n))
                                     tournament s e
                  = candidate_referees db tournament s e).
  { unfold candidate_referees. rewrite Hr, Hrt. reflexivity. }
  rewrite Hcand. apply filter_ext. intros r.
  unfold conflict_count, conflicting_assignments. rewrite Hrows, Hm.
  rewrite length_flat_map_map; [reflexivity|].
  intros a. rewrite !length_map.
  destruct (same_pair referee m a); reflexivity.
Qed.

Lemma at_most_one : forall (A K : Type) (k : A -> K) (p : A -> bool) (k0 : K)
                           (l : list A),
    NoDup (map k l) -> (forall a, In a l -> p a = true -> k a = k0) ->
    (List.length (filter p l) <= 1)%nat.
Proof.
  intros A K k p k0 l; induction l as [|x l IH]; simpl; intros Hnd Hk; [lia|].
  inversion Hnd as [|? ? Hx Hl]; subst.
  destruct (p x) eqn:E; simpl.
  - assert (Hnone : filter p l = []).
    { destruct (filter p l) as [|y rest] eqn:Ef; [reflexivity|]. exfalso.
      assert (Hy : In y (filter p l)) by (rewrite Ef; left; reflexivity).
      apply filter_In in Hy. destruct Hy as [Hy Hpy].
      apply Hx. rewrite (Hk x (or_introl eq_refl) E).
      rewrite <- (Hk y (or_intror Hy) Hpy). apply in_map. exact Hy. }
    rewrite Hnone. simpl. lia.
  - apply IH; [exact Hl|]. intros a Ha. apply Hk. right; exact Ha.
Qed.

(** X17: when the referee identifiers are distinct and the availability
    table satisfies its unique key, no referee appears twice in the answer
    of the resolver. *)
Theorem available_referees_listed_once :
  forall db tournament s e,
    referee_ids_unique db -> availability_unique db ->
    NoDup (map id (get_available_referees db tournament s e)).
Proof.
  intros db tournament s e Hids Hav.
  unfold get_available_referees, get_available_referees_for_time_slot.
  apply TableConstraints.NoDup_map_filter.
  unfold candidate_referees. unfold referee_ids_unique in Hids.
  induction (referees db) as [|r rs IH]; simpl; [constructor|].
  inversion Hids as [|? ? Hr Hrs]; subst.
  rewrite map_app. apply NoDup_app.
  - set (p := fun a => (id r =? av_referee_id a)
                       && ((av_tournament_id a =? tournament)
                           && (available_from a <=? s) && (available_to a >=? e)
                           && Bool.eqb (active r) true)).
    assert (Hlen : (List.length (filter p (referees_x_tournaments db)) <= 1)%nat).
    { apply (at_most_one _ _ (fun a => (av_referee_id a, av_tournament_id a)) p
                         (id r, tournament)); [exact Hav|].
      intros a _ Hp. unfold p in Hp. apply candidate_where in Hp.
      destruct Hp as [_ [H1 [H2 _]]]. congruence. }
    destruct (filter p (referees_x_tournaments db)) as [|a [|b rest]]; simpl in *.
    + constructor.
    + repeat constructor. simpl; tauto.
    + lia.
  - apply IH. exact Hrs.
  - intros i Hi Hin. apply in_map_iff in Hi. destruct Hi as [x [Ex Hx]].
    apply in_map_iff in Hx. destruct Hx as [a [Ea _]]. subst x.
    apply in_map_iff in Hin. destruct Hin as [y [Ey Hy]].
    apply in_flat_map in Hy. destruct Hy as [r' [Hr' Hy]].
    apply in_map_iff in Hy. destruct Hy as [a' [Ea' _]]. subst y.
    apply Hr. rewrite Ex, <- Ey. apply in_map. exact Hr'.
Qed.

(** Ana, who has an availability row in each of two tournaments, and Ben
    are both free at 11:00 in tournament 1: each is listed once. *)
Lemma available_referees_listed_once_witness :
  let db := two_referees_store [mk_assignment 1 10 "main" false None] in
  get_available_referees db 1 (at_ 0 11 0) (at_ 0 12 0) = [ana; ben]
  /\ NoDup (map id (get_available_referees db 1 (at_ 0 11 0) (at_ 0 12 0))).
Proof.
  intros db. split; [reflexivity|].
  apply (available_referees_listed_once db 1 (at_ 0 11 0) (at_ 0 12 0)).
  - unfold referee_ids_unique; simpl. repeat constructor; simpl; intuition lia.
  - unfold availability_unique; simpl.
    repeat constructor; simpl; intuition discriminate.
Defined.

End ResolverLaws.

(** ** Referee administration *)

Module RefereeAdmin.
Import Clock Referees RefereeInvariants Scenarios AvailabilityResolver
       RefereeAssignments ResolverLaws.

Lemma store_eta : forall db : Store,
    mk_store (referees db) (referees_x_tournaments db) (referees_x_matches db)
             (matches db) = db.
Proof. intros [rs rts rms ms]; reflexivity. Qed.

Lemma filter_all : forall (A : Type) (p : A -> bool) (l : list A),
    (forall a, In a l -> p a = true) -> filter p l = l.
Proof.
  intros A p l; induction l as [|x l IH]; simpl; intros H; [reflexivity|].
  rewrite (H x (or_introl eq_refl)). f_equal. apply IH. intros a Ha. apply H; auto.
Qed.

Lemma pair_exists : forall db referee m,
    existsb (same_pair referee m) (referees_x_matches db) = true
    <-> exists a, In a (referees_x_matches db)
                  /\ referee_id a = referee /\ match_id a = m.
Proof.
  intros. rewrite existsb_exists.
  split; intros [a [Ha H]]; exists a; (split; [exact Ha|]);
    apply same_pair_spec; exact H.
Qed.

(** X18: [remove_referee_from_match_endpoint] removes every assignment of
    the referee to the match, whatever the role, leaves all other rows and
    tables as they were, and then ends in the [TypeError] of
    [remove_referee_from_match], where [result > 0] compares the [None] of
    [database.execute] with a number.  It does so with or without a stored
    assignment of the pair, so the route never answers with its success
    response nor with its 404; a second removal changes nothing. *)
Theorem remove_assignment_outcomes :
  forall db m referee,
    let removed :=
      mk_store (referees db) (referees_x_tournaments db)
               (filter (fun a => negb (same_pair referee m a)) (referees_x_matches db))
               (matches db) in
    remove_referee_from_match_endpoint db m referee = (removed, inl TypeError)
    /\ classify TypeError = Internal
    /\ (forall a, In a (referees_x_matches removed) <->
                  In a (referees_x_matches db)
                  /\ ~ (referee_id a = referee /\ match_id a = m))
    /\ remove_referee_from_match_endpoint removed m referee = (removed, inl TypeError)
    /\ ((forall a, In a (referees_x_matches db) ->
                   ~ (referee_id a = referee /\ match_id a = m)) ->
        removed = db).
Proof.
  intros db m referee removed.
  assert (Hnone : forall d,
             (forall a, In a (referees_x_matches d) ->
                        ~ (referee_id a = referee /\ match_id a = m)) ->
             mk_store (referees d) (referees_x_tournaments d)
                      (filter (fun a => negb (same_pair referee m a))
                              (referees_x_matches d))
                      (matches d) = d).
  { intros d Hno. rewrite filter_all.
    - apply store_eta.
    - intros a Ha. apply negb_true_iff, not_true_is_false.
      rewrite same_pair_spec. apply Hno. exact Ha. }
  assert (Hin : forall a, In a (referees_x_matches removed) <->
                          In a (referees_x_matches db)
                          /\ ~ (referee_id a = referee /\ match_id a = m)).
  { intros a. unfold removed; simpl.
    rewrite filter_In, negb_true_iff, <- same_pair_spec.
    destruct (same_pair referee m a); intuition congruence. }
  split; [reflexivity|]. split; [reflexivity|]. split; [exact Hin|]. split.
  - unfold remove_referee_from_match_endpoint, remove_referee_from_match.
    rewrite (Hnone removed); [reflexivity|].
    intros a Ha. apply Hin in Ha. tauto.
  - apply Hnone.
Qed.

(** Removing Ana from match 10 deletes her assignment and ends in the
    error; removing her from match 11, where she has none, ends in the same
    error. *)
Example remove_ana_from_her_match :
  remove_referee_from_match_endpoint ana_store 10 1
  = (mk_store [ana] [mk_availability 1 1 (at_ 0 9 0) (at_ 0 17 0) 5 [] None] []
              [mk_match 10 (at_ 0 9 0) 60 5],
     inl TypeError)
  /\ remove_referee_from_match_endpoint ana_store 11 1 = (ana_store, inl TypeError).
Proof. split; reflexivity. Qed.

(** X19: assigning a referee to a match they had no assignment to, and
    then removing the referee from the match, gives back the store as it
    was; the removal ends in the [TypeError] of
    [remove_referee_from_match]. *)
Theorem assign_then_remove_restores :
  forall db m referee role' c n db' row,
    (forall a, In a (referees_x_matches db) ->
               ~ (referee_id a = referee /\ match_id a = m)) ->
    assign_referee db m referee role' c n = (db', inr row) ->
    remove_referee_from_match_endpoint db' m referee = (db, inl TypeError).
Proof.
  intros db m referee role' c n db' row Hno Hrun.
  destruct (assign_referee_inr _ _ _ _ _ _ _ _ Hrun) as [Hrow [Hdb _]].
  unfold remove_referee_from_match_endpoint, remove_referee_from_match.
  subst db' row; simpl.
  assert (Hp : same_pair referee m (mk_assignment referee m role' c n) = true).
  { apply same_pair_spec. split; reflexivity. }
  rewrite filter_app. simpl. rewrite Hp. simpl. rewrite app_nil_r.
  rewrite filter_all.
  - rewrite store_eta. reflexivity.
  - intros a Ha. apply negb_true_iff, not_true_is_false.
    rewrite same_pair_spec. apply Hno. exact Ha.
Qed.

(** Ben, the line judge of match 11, is made assistant of match 10, where
    Ana is the main referee, and removed again. *)
Lemma assign_then_remove_restores_witness :
  let before := [mk_assignment 1 10 "main" false None;
                 mk_assignment 2 11 "line_judge" false None] in
  assign_referee (two_referees_store before) 10 2 "assistant"%string true None
  = (two_referees_store (before ++ [mk_assignment 2 10 "assistant" true None]),
     inr (mk_assignment 2 10 "assistant" true None))
  /\ remove_referee_from_match_endpoint
       (two_referees_store (before ++ [mk_assignment 2 10 "assistant" true None]))
       10 2
     = (two_referees_store before, inl TypeError).
Proof.
  intros before.
  assert (Hrun : assign_referee (two_referees_store before) 10 2
                   "assistant"%string true None
                 = (two_referees_store
                      (before ++ [mk_assignment 2 10 "assistant" true None]),
                    inr (mk_assignment 2 10 "assistant" true None))) by reflexivity.
  split; [exact Hrun|].
  refine (assign_then_remove_restores (two_referees_store before) 10 2
            "assistant"%string true None _
            (mk_assignment 2 10 "assistant" true None) _ Hrun).
  intros a [<-|[<-|[]]] [H1 H2]; simpl in H1, H2; discriminate.
Defined.

(** X20: [get_match_referees] lists exactly the pairs of a stored referee
    and a stored assignment of that referee to the match, the assignment
    being the stored row itself; so an assignment that [assign_referee] has
    just stored is listed with its referee. *)
Theorem match_referees_are_the_stored_rows :
  forall db m,
    (forall r a,
        In (r, a) (get_match_referees db m) <->
        In r (referees db) /\ In a (referees_x_matches db)
        /\ referee_id a = id r /\ match_id a = m)
    /\ (forall referee role' c n db' row,
           assign_referee db m referee role' c n = (db', inr row) ->
           exists r, id r = referee /\ In (r, row) (get_match_referees db' m)).
Proof.
  intros db m.
  assert (Hchar : forall d r a,
             In (r, a) (get_match_referees d m) <->
             In r (referees d) /\ In a (referees_x_matches d)
             /\ referee_id a = id r /\ match_id a = m).
  { intros d r a. unfold get_match_referees, get_referees_for_match.
    rewrite in_flat_map. split.
    - intros [r' [Hr' Hin]]. apply in_map_iff in Hin.
      destruct Hin as [a' [E Ha']]. apply filter_In in Ha'.
      destruct Ha' as [Ha' Hk]. apply andb_true_iff in Hk.
      rewrite !Z.eqb_eq in Hk. destruct Hk as [K1 K2].
      inversion E; subst r'. destruct a' as [ri mi ro co no]; simpl in *.
      subst ri mi. simpl. auto.
    - intros [Hr [Ha [E1 E2]]]. exists r. split; [exact Hr|].
      apply in_map_iff. exists a. split.
      + destruct a as [ri mi ro co no]; simpl in *. subst ri mi. reflexivity.
      + apply filter_In. split; [exact Ha|].
        apply andb_true_iff. rewrite !Z.eqb_eq. auto. }
  split; [apply Hchar|].
  intros referee role' c n db' row Hrun.
  destruct (assign_referee_inr _ _ _ _ _ _ _ _ Hrun) as [Hrow [Hdb [[r Hr] _]]].
  unfold get_referee_by_id in Hr. apply find_some in Hr.
  destruct Hr as [Hin Hid]. apply Z.eqb_eq in Hid.
  exists r. split; [exact Hid|]. apply Hchar. subst db' row; simpl.
  repeat split; auto. apply in_or_app. right. left. reflexivity.
Qed.

(** X21: deleting a stored referee through [delete_referee_by_id] removes
    the referee together with every availability and every assignment of
    theirs, and nothing else; afterwards the referee cannot be fetched and
    the resolver never returns them.  The call then ends in the
    [TypeError] of [delete_referee], where [result > 0] compares the
    [None] of [database.execute] with a number; for an unknown id it ends
    in the same error and changes nothing.  The route never answers with
    its success response nor with its 404. *)
Theorem delete_referee_cascades :
  forall db referee,
    ((exists r, In r (referees db) /\ id r = referee) ->
     exists db',
       delete_referee_by_id db referee = (db', inl TypeError)
       /\ get_referee db' referee
          = inl (HTTPException HTTP_404_NOT_FOUND (referee_not_found referee))
       /\ (forall r, In r (referees db') <-> In r (referees db) /\ id r <> referee)
       /\ (forall a, In a (referees_x_tournaments db') <->
                     In a (referees_x_tournaments db) /\ av_referee_id a <> referee)
       /\ (forall a, In a (referees_x_matches db') <->
                     In a (referees_x_matches db) /\ referee_id a <> referee)
       /\ matches db' = matches db
       /\ (forall tournament s e r,
              In r (get_available_referees db' tournament s e) -> id r <> referee))
    /\ ((forall r, In r (referees db) -> id r <> referee) ->
        delete_referee_by_id db referee = (db, inl TypeError))
    /\ (forall db' res,
           delete_referee_by_id db referee = (db', res) -> res = inl TypeError)
    /\ classify TypeError = Internal.
Proof.
  intros db referee. split; [|split; [|split]].
  - intros [r0 [Hr0 Hid0]].
    assert (Hex : existsb (fun r => id r =? referee) (referees db) = true).
    { apply existsb_exists. exists r0. split; [exact Hr0 | apply Z.eqb_eq; exact Hid0]. }
    eexists. split; [|split; [|split; [|split; [|split; [|split]]]]].
    + unfold delete_referee_by_id, delete_referee. rewrite Hex. reflexivity.
    + unfold get_referee, get_referee_by_id; simpl.
      assert (Hnone : find (fun r => id r =? referee)
                           (filter (fun r => negb (id r =? referee)) (referees db))
                      = None).
      { destruct (find _ _) as [x|] eqn:Hf; [|reflexivity].
        apply find_some in Hf. destruct Hf as [Hx Hidx].
        apply filter_In in Hx. destruct Hx as [_ Hx].
        rewrite Hidx in Hx. discriminate. }
      rewrite Hnone. reflexivity.
    + intros r. simpl. rewrite filter_In, negb_true_iff, Z.eqb_neq. tauto.
    + intros a. simpl. rewrite filter_In, negb_true_iff, Z.eqb_neq. tauto.
    + intros a. simpl. rewrite filter_In, negb_true_iff, Z.eqb_neq. tauto.
    + reflexivity.
    + intros tournament s e r Hin. unfold get_available_referees in Hin.
      apply in_available in Hin. destruct Hin as [Hc _].
      apply in_candidates in Hc. destruct Hc as [Hr _]. simpl in Hr.
      apply filter_In in Hr. destruct Hr as [_ Hr].
      apply negb_true_iff, Z.eqb_neq in Hr. exact Hr.
  - intros Hno. unfold delete_referee_by_id, delete_referee.
    assert (Hex : existsb (fun r => id r =? referee) (referees db) = false).
    { apply not_true_is_false. intros H. apply existsb_exists in H.
      destruct H as [r [Hr Hid]]. apply Z.eqb_eq in Hid. apply (Hno r Hr Hid). }
    rewrite Hex. reflexivity.
  - intros db' res. unfold delete_referee_by_id, delete_referee.
    destruct (existsb _ _); intros H; inversion H; reflexivity.
  - reflexivity.
Qed.

(** Deleting Ben takes his availability and his assignment with him and
    leaves Ana's rows. *)
Example delete_ben :
  delete_referee_by_id
    (two_referees_store [mk_assignment 1 10 "main" false None;
                         mk_assignment 2 11 "line_judge" false None]) 2
  = (mk_store [ana]
              [mk_availability 1 1 (at_ 0 9 0) (at_ 0 17 0) 5 [] None;
               mk_availability 1 2 (at_ 1 9 0) (at_ 1 17 0) 5 [] None]
              [mk_assignment 1 10 "main" false None]
              [mk_match 10 (at_ 0 9 0) 60 5; mk_match 11 (at_ 0 14 0) 60 5],
     inl TypeError).
Proof. reflexivity. Qed.

Lemma same_referee_tournament_spec : forall referee tournament a,
    same_referee_tournament referee tournament a = true
    <-> av_referee_id a = referee /\ av_tournament_id a = tournament.
Proof.
  intros; unfold same_referee_tournament.
  rewrite andb_true_iff, !Z.eqb_eq. tauto.
Qed.

(** X22: [add_referee_availability] answers 404 for an unknown referee;
    for a referee who already has an availability row in the tournament
    the insert is refused by the unique key and nothing is written;
    otherwise one row is appended, carrying the referee and tournament of
    the path (not those inside the body) and the window and preferences of
    the body, and the table still has at most one row per referee and
    tournament. *)
Theorem declare_availability_outcomes :
  forall db tournament referee body,
    ((forall r, In r (referees db) -> id r <> referee) ->
     add_referee_availability db tournament referee body
     = (db, inl (HTTPException HTTP_404_NOT_FOUND (referee_not_found referee))))
    /\ ((exists r, In r (referees db) /\ id r = referee) ->
        (exists a, In a (referees_x_tournaments db)
                   /\ av_referee_id a = referee /\ av_tournament_id a = tournament) ->
        add_referee_availability db tournament referee body
        = (db, inl (UniqueViolationError "unique_referee_tournament")))
    /\ ((exists r, In r (referees db) /\ id r = referee) ->
        (forall a, In a (referees_x_tournaments db) ->
                   ~ (av_referee_id a = referee /\ av_tournament_id a = tournament)) ->
        let row := mk_availability referee tournament
                     (available_from body) (available_to body)
                     (max_matches_per_day body) (preferred_courts body)
                     (av_notes body) in
        add_referee_availability db tournament referee body
        = (mk_store (referees db) (referees_x_tournaments db ++ [row])
                    (referees_x_matches db) (matches db),
           inr row)
        /\ (availability_unique db ->
            availability_unique
              (mk_store (referees db) (referees_x_tournaments db ++ [row])
                        (referees_x_matches db) (matches db)))).
Proof.
  intros db tournament referee body.
  assert (Hfound : (exists r, In r (referees db) /\ id r = referee) ->
                   exists r, get_referee_by_id db referee = Some r).
  { intros [r [Hr Hid]].
    destruct (get_referee_by_id db referee) as [r'|] eqn:E; [exists r'; reflexivity|].
    exfalso. rewrite get_referee_by_id_None in E. apply (E r Hr Hid). }
  split; [|split].
  - intros Hno. apply get_referee_by_id_None in Hno.
    unfold add_referee_availability. rewrite Hno. reflexivity.
  - intros Hex [a [Ha Hk]]. destruct (Hfound Hex) as [r Hr].
    unfold add_referee_availability, add_referee_to_tournament. rewrite Hr.
    assert (E : existsb (same_referee_tournament referee tournament)
                        (referees_x_tournaments db) = true).
    { apply existsb_exists. exists a. split; [exact Ha|].
      apply same_referee_tournament_spec. exact Hk. }
    rewrite E. reflexivity.
  - intros Hex Hnew row. destruct (Hfound Hex) as [r Hr].
    assert (E : existsb (same_referee_tournament referee tournament)
                        (referees_x_tournaments db) = false).
    { apply not_true_is_false. intros H. apply existsb_exists in H.
      destruct H as [a [Ha H]]. apply same_referee_tournament_spec in H.
      apply (Hnew a Ha H). }
    split.
    + unfold add_referee_availability, add_referee_to_tournament.
      rewrite Hr, E. reflexivity.
    + unfold availability_unique; simpl. intros Hu. rewrite map_app.
      apply NoDup_app; [exact Hu | repeat constructor; simpl; tauto|].
      intros k Hk [<-|[]]. apply in_map_iff in Hk. destruct Hk as [a [Ea Ha]].
      inversion Ea. apply (Hnew a Ha). auto.
Qed.

(** X23: once an active referee without a conflicting assignment has
    declared, through [add_referee_availability], a window that contains
    [[s, e)], the resolver returns that referee for [[s, e)]. *)
Theorem declared_availability_is_resolved :
  forall db tournament r body db' row s e,
    In r (referees db) -> active r = true ->
    add_referee_availability db tournament (id r) body = (db', inr row) ->
    available_from body <= s -> e <= available_to body ->
    conflict_count db (id r) s e = 0 ->
    In r (get_available_referees db' tournament s e).
Proof.
  intros db tournament r body db' row s e Hr Hact Hrun Hs He Hfree.
  unfold add_referee_availability in Hrun.
  destruct (get_referee_by_id db (id r)); [|discriminate].
  unfold add_referee_to_tournament in Hrun.
  destruct (existsb _ _); [discriminate|].
  inversion Hrun; subst db' row; clear Hrun.
  unfold get_available_referees. apply in_available. split.
  - apply in_candidates. simpl. split; [exact Hr|]. split; [exact Hact|].
    eexists. split; [apply in_or_app; right; left; reflexivity|].
    simpl. unfold contains. auto.
  - intros a m Hin. apply conflict_count_zero in Hfree.
    assert (Hin' : In (a, m) (conflicting_assignments db (id r) s e)).
    { apply in_conflicting_assignments in Hin. simpl in Hin.
      apply in_conflicting_assignments. exact Hin. }
    rewrite Hfree in Hin'. contradiction.
Qed.

Lemma declared_availability_is_resolved_witness :
  In ana (get_available_referees
            (mk_store [ana] [mk_availability 1 1 (at_ 0 9 0) (at_ 0 17 0) 5 [] None]
                      [] [])
            1 (at_ 0 10 0) (at_ 0 11 0)).
Proof.
  refine (declared_availability_is_resolved
            (mk_store [ana] [] [] []) 1 ana
            (mk_availability 99 99 (at_ 0 9 0) (at_ 0 17 0) 5 [] None)
            _ (mk_availability 1 1 (at_ 0 9 0) (at_ 0 17 0) 5 [] None)
            (at_ 0 10 0) (at_ 0 11 0) _ _ _ _ _ _).
  - left; reflexivity.
  - reflexivity.
  - reflexivity.
  - vm_compute; discriminate.
  - vm_compute; discriminate.
  - reflexivity.
Defined.

(** X24: [get_referees_for_tournament] lists the active referees that
    have an availability row in the tournament; each comes with that
    availability, which is never empty and holds rows of this referee and
    tournament only, and with all assignments of the referee, of whatever
    match. *)
Theorem tournament_referees_come_with_their_rows :
  forall db tournament,
    (forall r,
        (exists w, In w (get_referees_for_tournament db tournament)
                   /\ the_referee w = r)
        <-> In r (referees db) /\ active r = true
            /\ exists a, In a (referees_x_tournaments db)
                         /\ av_referee_id a = id r /\ av_tournament_id a = tournament)
    /\ (forall w,
           In w (get_referees_for_tournament db tournament) ->
           availability w <> []
           /\ (forall a, In a (availability w) <->
                         In a (referees_x_tournaments db)
                         /\ av_referee_id a = id (the_referee w)
                         /\ av_tournament_id a = tournament)
           /\ (forall a, In a (assignments w) <->
                         In a (referees_x_matches db)
                         /\ referee_id a = id (the_referee w))).
Proof.
  intros db tournament.
  assert (Hjoin : forall r,
             In r (flat_map
                     (fun r =>
                        map (fun _ => r)
                            (filter (fun a => (id r =? av_referee_id a)
                                              && ((av_tournament_id a =? tournament)
                                                  && Bool.eqb (active r) true))
                                    (referees_x_tournaments db)))
                     (referees db))
             <-> In r (referees db) /\ active r = true
                 /\ exists a, In a (referees_x_tournaments db)
                              /\ av_referee_id a = id r
                              /\ av_tournament_id a = tournament).
  { intros r.
    rewrite (in_flat_map_const _ _
               (fun r a => (id r =? av_referee_id a)
                           && ((av_tournament_id a =? tournament)
                               && Bool.eqb (active r) true))).
    split.
    - intros [Hr [a [Ha Hk]]].
      rewrite !andb_true_iff, !Z.eqb_eq, eqb_true_iff in Hk.
      split; [exact Hr|]. split; [tauto|]. exists a. intuition congruence.
    - intros [Hr [Hact [a [Ha [H1 H2]]]]]. split; [exact Hr|]. exists a.
      split; [exact Ha|]. rewrite !andb_true_iff, !Z.eqb_eq, eqb_true_iff. auto. }
  split.
  - intros r. unfold get_referees_for_tournament. split.
    + intros [w [Hw E]]. apply in_map_iff in Hw. destruct Hw as [r' [Ew Hr']].
      subst w. simpl in E. subst r'. apply Hjoin. exact Hr'.
    + intros H. apply Hjoin in H. eexists. split.
      * apply in_map_iff. exists r. split; [reflexivity | exact H].
      * reflexivity.
  - intros w Hw. unfold get_referees_for_tournament in Hw.
    apply in_map_iff in Hw. destruct Hw as [r [Ew Hr]]. subst w. simpl.
    apply Hjoin in Hr. destruct Hr as [_ [_ [a [Ha [H1 H2]]]]].
    assert (Hav : forall a', In a' (filter (fun a => (av_referee_id a =? id r)
                                                    && (av_tournament_id a =? tournament))
                                           (referees_x_tournaments db))
                             <-> In a' (referees_x_tournaments db)
                                 /\ av_referee_id a' = id r
                                 /\ av_tournament_id a' = tournament).
    { intros a'. rewrite filter_In, andb_true_iff, !Z.eqb_eq. tauto. }
    split; [|split].
    + intros E. assert (Hin : In a (filter (fun a => (av_referee_id a =? id r)
                                                    && (av_tournament_id a =? tournament))
                                           (referees_x_tournaments db))).
      { apply Hav. auto. }
      rewrite E in Hin. contradiction.
    + exact Hav.
    + intros a'. rewrite filter_In, Z.eqb_eq. tauto.
Qed.

End RefereeAdmin.

(** ** Creating referees *)

Module RegistryLaws.
Import Clock Referees RefereeRegistry.

(** X25: a referee made by [create_referee] gets the next value of the
    sequence as identifier, the name, email, phone, certification level,
    active flag and notes of the body, and the time of the call as
    [created]; the row is appended to [referees] and no other table
    changes; the referee can be fetched by that id, every other lookup is
    as it was, and the identifiers stay below the sequence. *)
Theorem created_referee_is_found :
  forall reg now body,
    referee_ids_from_sequence reg ->
    let reg' := fst (create_referee reg now body) in
    let r := snd (create_referee reg now body) in
    r = mk_referee (referees_id_seq reg) (body_name body) (body_email body)
                   (body_phone body) (body_certification_level body) now
                   (body_active body) (body_notes body)
    /\ referees (tables reg') = referees (tables reg) ++ [r]
    /\ referees_x_tournaments (tables reg') = referees_x_tournaments (tables reg)
    /\ referees_x_matches (tables reg') = referees_x_matches (tables reg)
    /\ matches (tables reg') = matches (tables reg)
    /\ referees_id_seq reg' = referees_id_seq reg + 1
    /\ get_referee_by_id (tables reg') (id r) = Some r
    /\ (forall i, i <> id r ->
                  get_referee_by_id (tables reg') i = get_referee_by_id (tables reg) i)
    /\ referee_ids_from_sequence reg'.
Proof.
  intros reg now body Hseq reg' r. unfold referee_ids_from_sequence in *.
  rewrite Forall_forall in Hseq.
  assert (Hlook : forall rows row i,
             find (fun x => id x =? i) (rows ++ [row])
             = match find (fun x => id x =? i) rows with
               | Some x => Some x
               | None => if id row =? i then Some row else None
               end).
  { intros rows row i. induction rows as [|x rows IH]; simpl; [reflexivity|].
    destruct (id x =? i); [reflexivity | exact IH]. }
  split; [reflexivity|]. split; [reflexivity|]. split; [reflexivity|].
  split; [reflexivity|]. split; [reflexivity|]. split; [reflexivity|].
  split; [|split].
  - unfold get_referee_by_id, reg', r; simpl. rewrite Hlook.
    destruct (find _ (referees (tables reg))) as [x|] eqn:Hf.
    + apply find_some in Hf. destruct Hf as [Hx Hid]. apply Z.eqb_eq in Hid.
      specialize (Hseq x Hx). lia.
    + simpl. rewrite Z.eqb_refl. reflexivity.
  - intros i Hi. unfold get_referee_by_id, reg'; simpl. rewrite Hlook.
    destruct (find _ (referees (tables reg))); [reflexivity|].
    simpl. unfold r in Hi; simpl in Hi.
    assert (E : (referees_id_seq reg =? i) = false) by (apply Z.eqb_neq; congruence).
    rewrite E. reflexivity.
  - unfold reg'; simpl. apply Forall_forall. intros x Hx.
    apply in_app_or in Hx. destruct Hx as [Hx|[<-|[]]].
    + specialize (Hseq x Hx). lia.
    + simpl. lia.
Qed.

Lemma created_referee_is_found_witness :
  let luis := mk_referee 2 "Luis" (Some "luis@club.example"%string)
                         (Some "600100200"%string) (Some "Regional"%string)
                         (at_ 3 8 15) false (Some "Only weekends"%string) in
  let reg' := fst (create_referee (mk_registry Scenarios.ana_store 2) (at_ 3 8 15)
                     (mk_referee_body "Luis" (Some "luis@club.example"%string)
                                      (Some "600100200"%string)
                                      (Some "Regional"%string) false
                                      (Some "Only weekends"%string))) in
  referees (tables reg') = [Scenarios.ana; luis]
  /\ get_referee_by_id (tables reg') 2 = Some luis
  /\ get_referee_by_id (tables reg') 1 = Some Scenarios.ana.
Proof.
  intros luis reg'.
  assert (Hseq : referee_ids_from_sequence (mk_registry Scenarios.ana_store 2)).
  { unfold referee_ids_from_sequence; simpl. repeat constructor; simpl; lia. }
  destruct (created_referee_is_found (mk_registry Scenarios.ana_store 2) (at_ 3 8 15)
              (mk_referee_body "Luis" (Some "luis@club.example"%string)
                               (Some "600100200"%string)
                               (Some "Regional"%string) false
                               (Some "Only weekends"%string)) Hseq)
    as [Hr [Hrows [_ [_ [_ [_ [Hget [Hother _]]]]]]]].
  split; [|split].
  - exact Hrows.
  - exact Hget.
  - unfold reg'. rewrite (Hother 1); [reflexivity | simpl; lia].
Defined.

End RegistryLaws.
